(** * Munajjam: Quran audio alignment engine

    A shallow embedding of the alignment code and the verification of its
    specification.

    Modelling conventions, used throughout:
    - a Python [str] is the list of its Unicode code points, [list N];
    - a Python [float] is a rational number [Q]: arithmetic and comparisons
      are the exact ones, rounding is not modelled;
    - a Python [int] used as an index or a length is a [nat]; where the code
      subtracts, the result is taken in [Z] and Python's rule for negative
      indices is written out ([py_getitem]);
    - a [dict] is a [gmap], a loop is a fold over the sequence it visits, a
      [while] loop is a recursion on a counter that bounds it;
    - a call that can raise returns an [outcome]. *)

From Stdlib Require Import QArith Qabs Lia.
From stdpp Require Import base numbers list gmap strings.

Abbreviation str := (list N).

(** ** Python's built-in string operations *)

Module PyStr.

(** [str.isspace] on one code point, which is also what [\s] matches in a
    [str] pattern and what [str.strip] and [str.split] cut at
    (CPython's [Py_UNICODE_ISSPACE]). *)
Definition isspace (c : N) : bool :=
  (((0x9 <=? c) && (c <=? 0xD)) || ((0x1C <=? c) && (c <=? 0x20))
   || (c =? 0x85) || (c =? 0xA0) || (c =? 0x1680)
   || ((0x2000 <=? c) && (c <=? 0x200A))
   || (c =? 0x2028) || (c =? 0x2029) || (c =? 0x202F) || (c =? 0x205F)
   || (c =? 0x3000))%N.

Definition SPACE : N := 0x20%N.

Global Arguments isspace : simpl never.
Global Arguments SPACE : simpl never.

Fixpoint lstrip (s : str) : str :=
  match s with
  | [] => []
  | c :: s' => if isspace c then lstrip s' else s
  end.

Fixpoint rstrip (s : str) : str :=
  match s with
  | [] => []
  | c :: s' =>
      match rstrip s' with
      | [] => if isspace c then [] else [c]
      | r => c :: r
      end
  end.

(** [s.strip()] *)
Definition strip (s : str) : str := rstrip (lstrip s).

(** [s.split()]: the maximal runs of non-space characters. [cur] is the
    word being read, most recent character first. *)
Fixpoint split_from (cur : str) (s : str) : list str :=
  match s with
  | [] => match cur with [] => [] | _ => [rev cur] end
  | c :: s' =>
      if isspace c
      then match cur with
           | [] => split_from [] s'
           | _ => rev cur :: split_from [] s'
           end
      else split_from (c :: cur) s'
  end.

Definition split (s : str) : list str := split_from [] s.

(** [sep.join(l)] *)
Fixpoint join (sep : str) (l : list str) : str :=
  match l with
  | [] => []
  | x :: l' => match l' with [] => x | _ => x ++ sep ++ join sep l' end
  end.

(** [re.sub(r"[...]", repl, text)] for a class of single characters and a
    one-character replacement. *)
Definition re_sub_class (cls : list N) (repl : N) (text : str) : str :=
  (λ c, if bool_decide (c ∈ cls) then repl else c) <$> text.

(** [re.sub(r"\s+", " ", text)]: every maximal run of white space becomes
    one space. [in_run] tells that the previous character was white. *)
Fixpoint re_sub_ws_runs (in_run : bool) (text : str) : str :=
  match text with
  | [] => []
  | c :: s' =>
      if isspace c
      then if in_run then re_sub_ws_runs true s'
           else SPACE :: re_sub_ws_runs true s'
      else c :: re_sub_ws_runs false s'
  end.

(** The part of the [\w] table that the examples need: ASCII and the Arabic
    block U+0600..U+06FF. Elsewhere the answer is [false]; no example has
    such a character. *)
Definition isword_table (c : N) : bool :=
  (((0x30 <=? c) && (c <=? 0x39)) || ((0x41 <=? c) && (c <=? 0x5A))
   || (c =? 0x5F) || ((0x61 <=? c) && (c <=? 0x7A))
   || ((0x620 <=? c) && (c <=? 0x64A)) || ((0x660 <=? c) && (c <=? 0x669))
   || ((0x66E <=? c) && (c <=? 0x66F)) || ((0x671 <=? c) && (c <=? 0x6D3))
   || (c =? 0x6D5) || ((0x6E5 <=? c) && (c <=? 0x6E6))
   || ((0x6EE <=? c) && (c <=? 0x6FC)) || (c =? 0x6FF))%N.

(** A text of ASCII characters, for the examples. *)
Definition of_ascii (s : string) : str :=
  map Ascii.N_of_ascii (String.list_ascii_of_string s).

End PyStr.

(** ** [difflib.SequenceMatcher(None, a, b)]

    The standard library's matcher, as [similarity] calls it: no junk
    predicate, [autojunk] left at its default. *)

Module Difflib.

(** A match [(i, j, k)] says [a[i:i+k] == b[j:j+k]]. *)
Definition Match : Type := nat * nat * nat.

Definition size_of (m : Match) : nat := m.2.

Section SequenceMatcher.
Variables a b : str.

(** [__chain_b], first loop: for every element of [b] the indices where
    it occurs, in increasing order. *)
Definition chain_b : gmap N (list nat) :=
  fold_left
    (λ (b2j : gmap N (list nat)) '(i, elt),
       <[elt := default [] (b2j !! elt) ++ [i]]> b2j)
    (imap pair b) ∅.

(** No junk predicate is given, so [bjunk] is empty. *)
Definition isbjunk (elt : N) : bool := false.

(** [__chain_b], last loop: in a [b] of 200 elements or more, the
    elements that occur more than [n // 100 + 1] times are popular, and
    leave [b2j]. *)
Definition b2j : gmap N (list nat) :=
  let n := length b in
  if 200 <=? n
  then let ntest := n / 100 + 1 in
       filter (λ kv : N * list nat, length kv.2 ≤ ntest) chain_b
  else chain_b.

(** [b2j.get(a[i], nothing)]; [i] is an index of [a] wherever this is
    called. *)
Definition b2j_at (i : nat) : list nat :=
  match a !! i with
  | Some elt => default [] (b2j !! elt)
  | None => []
  end.

(** [find_longest_match], the inner loop over the places [j] of [a[i]] in
    [b]; [best] is [(besti, bestj, bestsize)]. *)
Fixpoint scan_row (blo bhi i : nat) (j2len : gmap nat nat) (js : list nat)
    (newj2len : gmap nat nat) (best : Match) : gmap nat nat * Match :=
  match js with
  | [] => (newj2len, best)
  | j :: js' =>
      if j <? blo then scan_row blo bhi i j2len js' newj2len best
      else if bhi <=? j then (newj2len, best)
      else
        let k := match j with
                 | 0 => 0
                 | S j' => default 0 (j2len !! j')
                 end + 1 in
        let best := if size_of best <? k then (i + 1 - k, j + 1 - k, k)
                    else best in
        scan_row blo bhi i j2len js' (<[j := k]> newj2len) best
  end.

(** [find_longest_match], the outer loop: the longest match that holds no
    popular element. *)
Definition scan_rows (alo ahi blo bhi : nat) : Match :=
  (fold_left
     (λ '(j2len, best) i, scan_row blo bhi i j2len (b2j_at i) ∅ best)
     (seq alo (ahi - alo)) (∅, (alo, blo, 0))).2.

(** [a[i] == b[j]], with [isbjunk(b[j])] equal to [junk]. *)
Definition same_at (junk : bool) (i j : nat) : bool :=
  match a !! i, b !! j with
  | Some x, Some y => Bool.eqb (isbjunk y) junk && (x =? y)%N
  | _, _ => false
  end.

(** [while besti > alo and bestj > blo and ... a[besti-1] == b[bestj-1]] *)
Fixpoint extend_left (junk : bool) (alo blo besti bestj bestsize : nat)
    : Match :=
  match besti, bestj with
  | S i', S j' =>
      if (alo <? besti) && (blo <? bestj) && same_at junk i' j'
      then extend_left junk alo blo i' j' (S bestsize)
      else (besti, bestj, bestsize)
  | _, _ => (besti, bestj, bestsize)
  end.

(** [while besti+bestsize < ahi and bestj+bestsize < bhi and ...]; the
    counter is [ahi - (besti + bestsize)], at zero the loop test fails. *)
Fixpoint extend_right (junk : bool) (ahi bhi besti bestj : nat)
    (room bestsize : nat) : nat :=
  match room with
  | 0 => bestsize
  | S room' =>
      if (besti + bestsize <? ahi) && (bestj + bestsize <? bhi)
         && same_at junk (besti + bestsize) (bestj + bestsize)
      then extend_right junk ahi bhi besti bestj room' (S bestsize)
      else bestsize
  end.

Definition find_longest_match (alo ahi blo bhi : nat) : Match :=
  let '(besti, bestj, bestsize) := scan_rows alo ahi blo bhi in
  let '(besti, bestj, bestsize) :=
    extend_left false alo blo besti bestj bestsize in
  let bestsize :=
    extend_right false ahi bhi besti bestj (ahi - (besti + bestsize))
      bestsize in
  let '(besti, bestj, bestsize) :=
    extend_left true alo blo besti bestj bestsize in
  let bestsize :=
    extend_right true ahi bhi besti bestj (ahi - (besti + bestsize))
      bestsize in
  (besti, bestj, bestsize).

(** [get_matching_blocks], the loop over the queue. The queue is kept with
    its last element first, since [pop()] takes the last. [None] when the
    counter runs out before the queue is empty. *)
Fixpoint matching_loop (fuel : nat) (queue : list (nat * nat * nat * nat))
    (matching_blocks : list Match) : option (list Match) :=
  match queue with
  | [] => Some matching_blocks
  | (alo, ahi, blo, bhi) :: queue =>
      match fuel with
      | 0 => None
      | S fuel' =>
          let '(i, j, k) := find_longest_match alo ahi blo bhi in
          if k =? 0 then matching_loop fuel' queue matching_blocks
          else
            let queue :=
              if (alo <? i) && (blo <? j) then (alo, i, blo, j) :: queue
              else queue in
            let queue :=
              if (i + k <? ahi) && (j + k <? bhi)
              then (i + k, ahi, j + k, bhi) :: queue
              else queue in
            matching_loop fuel' queue (matching_blocks ++ [(i, j, k)])
      end
  end.

End SequenceMatcher.

(** The order of tuples. *)
Definition match_le (x y : Match) : bool :=
  let '(i1, j1, k1) := x in
  let '(i2, j2, k2) := y in
  (i1 <? i2) || ((i1 =? i2) && ((j1 <? j2) || ((j1 =? j2) && (k1 <=? k2)))).

Fixpoint insert_sorted (x : Match) (l : list Match) : list Match :=
  match l with
  | [] => [x]
  | y :: l' => if match_le x y then x :: l else y :: insert_sorted x l'
  end.

(** [matching_blocks.sort()] *)
Definition sort (l : list Match) : list Match := foldr insert_sorted [] l.

(** [get_matching_blocks], the loop that joins adjacent blocks;
    [cur] is [(i1, j1, k1)]. *)
Fixpoint join_adjacent (cur : Match) (blocks non_adjacent : list Match)
    : Match * list Match :=
  match blocks with
  | [] => (cur, non_adjacent)
  | (i2, j2, k2) :: rest =>
      let '(i1, j1, k1) := cur in
      if (i1 + k1 =? i2) && (j1 + k1 =? j2)
      then join_adjacent (i1, j1, k1 + k2) rest non_adjacent
      else join_adjacent (i2, j2, k2) rest
             (if k1 =? 0 then non_adjacent
              else non_adjacent ++ [(i1, j1, k1)])
  end.

Definition get_matching_blocks (a b : str) : option (list Match) :=
  let la := length a in
  let lb := length b in
  matching_blocks ← matching_loop a b (2 * la + 1) [(0, la, 0, lb)] [];
  let '((i1, j1, k1), non_adjacent) :=
    join_adjacent (0, 0, 0) (sort matching_blocks) [] in
  let non_adjacent :=
    if k1 =? 0 then non_adjacent else non_adjacent ++ [(i1, j1, k1)] in
  Some (non_adjacent ++ [(la, lb, 0)]).

(** [_calculate_ratio] *)
Definition calculate_ratio (matches length : nat) : Q :=
  if length =? 0 then 1
  else (2 * inject_Z (Z.of_nat matches) / inject_Z (Z.of_nat length))%Q.

(** [SequenceMatcher(None, a, b).ratio()] *)
Definition ratio (a b : str) : option Q :=
  blocks ← get_matching_blocks a b;
  Some (calculate_ratio (sum_list (size_of <$> blocks))
          (length a + length b)).

End Difflib.

(** ** The legacy aligner: [src/align_segments.py], text functions *)

Module AlignSegments.
Import PyStr.

Section Normalizer.
(** What [\w] matches in a [str] pattern: the alphanumeric code points
    and the underscore. The Unicode table behind it is not part of the
    repository; every result below holds for any table. *)
Variable isword : N → bool.

Definition normalize_arabic (text : str) : str :=
  let text := re_sub_class [0x623; 0x625; 0x622; 0x627]%N 0x627%N text in
  let text := re_sub_class [0x649]%N 0x64A%N text in
  let text := re_sub_class [0x629]%N 0x647%N text in
  let text := filter (λ c, isword c || isspace c) text in
  strip (re_sub_ws_runs false text).

(** [Counter(words)]; a key that is absent counts 0. *)
Definition Counter (words : list str) : gmap str nat :=
  fold_left (λ (m : gmap str nat) w, <[w := S (default 0 (m !! w))]> m)
    words ∅.

(** The loop of [remove_overlap]: a word of [text2] whose normal form still
    has a positive count is dropped and the count goes down by one. *)
Definition drop_counted (count1 : gmap str nat) (words2 : list str)
    : gmap str nat * list str :=
  fold_left
    (λ '(count1, cleaned_words2) word,
       let key := normalize_arabic word in
       if 0 <? default 0 (count1 !! key)
       then (<[key := default 0 (count1 !! key) - 1]> count1,
             cleaned_words2)
       else (count1, cleaned_words2 ++ [word]))
    words2 (count1, []).

Definition remove_overlap (text1 text2 : str) : str * bool :=
  let words1 := split (normalize_arabic text1) in
  let words2 := split text2 in
  let count1 := Counter words1 in
  let cleaned_words2 := (drop_counted count1 words2).2 in
  match cleaned_words2 with
  | [] => (strip text1, true)
  | _ => (strip text1 ++ [SPACE] ++ strip (join [SPACE] cleaned_words2),
          true)
  end.

End Normalizer.

(** [similarity(a, b)]; [None] only if the matcher's loop did not finish
    within its bound. *)
Definition similarity (a b : str) : option Q := Difflib.ratio a b.

End AlignSegments.


(** ** Python values shared by the library modules *)

Module Py.

(** The exceptions a call can end in. [Unfinished] stands for a loop that
    did not end within the bound of its counter. *)
Inductive exn := IndexError | Unfinished | Exception (name : string).

Inductive outcome (A : Type) := Returned (x : A) | Raised (e : exn).
Global Arguments Returned {A} x.
Global Arguments Raised {A} e.

Global Instance outcome_ret : MRet outcome := λ A x, Returned x.
Global Instance outcome_bind : MBind outcome :=
  λ A B f m, match m with Returned x => f x | Raised e => Raised e end.

(** [l[i]] with Python's rule for a negative index. *)
Definition py_getitem {A} (l : list A) (i : Z) : outcome A :=
  let i := if (i <? 0)%Z then (i + Z.of_nat (length l))%Z else i in
  if (i <? 0)%Z then Raised IndexError
  else match l !! Z.to_nat i with
       | Some x => Returned x
       | None => Raised IndexError
       end.

(** [l[lo:hi]] for indices that are not negative. *)
Definition slice {A} (l : list A) (lo hi : nat) : list A :=
  take (hi - lo) (drop lo l).

(** [x < y] on floats. *)
Definition Qlt_bool (x y : Q) : bool := negb (Qle_bool y x).

(** [max(x, y)] and [min(x, y)]: the first argument unless the second is
    strictly beyond it. *)
Definition py_max (x y : Q) : Q := if Qlt_bool x y then y else x.
Definition py_min (x y : Q) : Q := if Qlt_bool y x then y else x.

(** [sum(...)] of floats. *)
Definition Qsum (l : list Q) : Q := fold_left Qplus l 0%Q.

(** Milliseconds to seconds: [(s / 1000.0, e / 1000.0)]. *)
Definition ms_to_sec (p : Z * Z) : Q * Q :=
  (inject_Z p.1 / 1000, inject_Z p.2 / 1000)%Q.

End Py.

(** ** The data model: [munajjam.models] *)

(** The classes [Segment], [Ayah] and [AlignmentResult] are not among the
    sources. An object of any of them is true in a condition. *)

Module Segment.
(** Modelled from the spec: the class [models.Segment], missing from the
    sources; §3 and §6 give a stable id, start and end times in seconds and
    the transcribed text, read by the code as [id], [start], [end] and
    [text]. *)
Record t := mk { id : Z; start : Q; end_ : Q; text : str }.
End Segment.

Module Ayah.
(** Modelled from the spec: the class [models.Ayah], missing from the
    sources; §3 gives the āya number, the sūra id and the canonical text,
    read by the code as [ayah_number] and [text]. *)
Record t := mk { ayah_number : Z; surah_id : Z; text : str }.
End Ayah.

Module AlignmentResult.
(** Modelled from the spec: the class [models.AlignmentResult], missing
    from the sources; the fields of §3, under the names the code gives them
    when it builds a result. *)
Record t := mk {
  ayah : Ayah.t;
  start_time : Q;
  end_time : Q;
  transcribed_text : str;
  similarity_score : Q;
  overlap_detected : bool;
}.
End AlignmentResult.

(** ** The scorer of the library: [munajjam.core.matcher], [dp_core] *)

Module Matcher.

(** Modelled from the spec: [matcher.similarity] is not among the sources.
    §4.2: the ratio 2·M / (|a| + |b|) of the longest-common-subsequence-style
    match on the normalised forms, which is the matcher of the legacy
    aligner. The matcher's loop is given a bound; [0] stands where it would
    not finish, which it always does. *)
Definition similarity (isword : N → bool) (text1 text2 : str) : Q :=
  match Difflib.ratio (AlignSegments.normalize_arabic isword text1)
          (AlignSegments.normalize_arabic isword text2) with
  | Some q => q
  | None => 0
  end.

(** Modelled from the spec: [dp_core.compute_alignment_cost] is not among
    the sources. §4.3: [cost = 1 − similarity(merged_segment_text, āya_text)];
    the silence bonus is applied by the caller. *)
Definition compute_alignment_cost (isword : N → bool)
    (merged_text ayah_text : str) : Q :=
  (1 - similarity isword merged_text ayah_text)%Q.

End Matcher.

(** ** The hybrid strategy: [munajjam/core/hybrid.py] *)

Module Hybrid.
Import PyStr Py.

Record HybridStats := mkStats {
  total_ayahs : nat;
  dp_kept : nat;
  old_fallback : nat;
  split_improved : nat;
  still_low : nat;
}.

Definition _find_silences_in_range (silences_sec : list (Q * Q))
    (start_time end_time min_duration : Q) : list (Q * Q) :=
  omap
    (λ '(sil_start, sil_end),
       if Qlt_bool start_time sil_end && Qlt_bool sil_start end_time
       then
         let clipped_start := py_max sil_start start_time in
         let clipped_end := py_min sil_end end_time in
         let duration := (clipped_end - clipped_start)%Q in
         if Qle_bool min_duration duration
         then Some (clipped_start, clipped_end)
         else None
       else None)
    silences_sec.

(** [silences.sort(key=lambda x: x[0])]: a stable sort on the start. *)
Fixpoint insert_by_start (x : Q * Q) (l : list (Q * Q)) : list (Q * Q) :=
  match l with
  | [] => [x]
  | y :: l' =>
      if Qle_bool x.1 y.1 then x :: l else y :: insert_by_start x l'
  end.

Definition sort_by_start (l : list (Q * Q)) : list (Q * Q) :=
  foldr insert_by_start [] l.

(** One turn of the loop over [range_segments]; the state is
    [(chunks, current_chunk, silence_idx)]. *)
Definition split_step (silences : list (Q * Q))
    (st : list (list Segment.t) * list Segment.t * nat) (seg : Segment.t)
    : list (list Segment.t) * list Segment.t * nat :=
  let '(chunks, current_chunk, silence_idx) := st in
  match silences !! silence_idx with
  | Some (sil_start, sil_end) =>
      if Qle_bool (Segment.end_ seg) sil_start
      then (chunks, current_chunk ++ [seg], silence_idx)
      else if Qle_bool sil_end (Segment.start seg)
      then (match current_chunk with
            | [] => chunks
            | _ => chunks ++ [current_chunk]
            end, [seg], S silence_idx)
      else (chunks ++ [current_chunk ++ [seg]], [], S silence_idx)
  | None => (chunks, current_chunk ++ [seg], silence_idx)
  end.

Definition _split_segments_at_silences (segments : list Segment.t)
    (silences_sec : list (Q * Q)) (start_time end_time : Q)
    : list (list Segment.t) :=
  let range_segments :=
    filter
      (λ s, Qle_bool (start_time - 0.5) (Segment.start s)
            && Qle_bool (Segment.end_ s) (end_time + 0.5))
      segments in
  match range_segments with
  | [] => []
  | _ =>
      let silences :=
        _find_silences_in_range silences_sec start_time end_time 0.2 in
      match silences with
      | [] => [range_segments]
      | _ =>
          let silences := sort_by_start silences in
          let '(chunks, current_chunk, _) :=
            fold_left (split_step silences) range_segments ([], [], 0) in
          let chunks :=
            match current_chunk with
            | [] => chunks
            | _ => chunks ++ [current_chunk]
            end in
          match chunks with [] => [range_segments] | _ => chunks end
      end
  end.

Section Strategy.
(** [matcher.similarity], through which the strategy scores a text. *)
Variable similarity : str → str → Q.

Definition _try_split_and_restitch (segments : list Segment.t)
    (ayah : Ayah.t) (dp_result : AlignmentResult.t)
    (silences_ms : option (list (Z * Z))) : option AlignmentResult.t :=
  match silences_ms with
  | None | Some [] => None
  | Some silences_ms =>
      let silences_sec := ms_to_sec <$> silences_ms in
      let chunks :=
        _split_segments_at_silences segments silences_sec
          (AlignmentResult.start_time dp_result)
          (AlignmentResult.end_time dp_result) in
      if length chunks <=? 1 then None
      else
        let all_texts :=
          filter (λ chunk_text, strip chunk_text ≠ [])
            ((λ chunk, join [SPACE] (Segment.text <$> chunk)) <$> chunks) in
        match all_texts with
        | [] => None
        | _ =>
            let merged_text := join [SPACE] all_texts in
            let new_sim := similarity merged_text (Ayah.text ayah) in
            if Qlt_bool
                 (AlignmentResult.similarity_score dp_result + 0.05) new_sim
            then Some
                   (AlignmentResult.mk ayah
                      (AlignmentResult.start_time dp_result)
                      (AlignmentResult.end_time dp_result)
                      merged_text new_sim
                      (AlignmentResult.overlap_detected dp_result))
            else None
        end
  end.

(** The two aligners the strategy calls, [aligner_greedy.align_segments] and
    [dp_core.align_segments_dp_with_constraints], are not among the sources:
    they are parameters, and so is the type of the progress callback. *)
Variable callback : Type.
Variable align_segments_greedy :
  list Segment.t → list Ayah.t → option (list (Z * Z))
  → outcome (list AlignmentResult.t).
Variable align_segments_dp_with_constraints :
  list Segment.t → list Ayah.t → option (list (Z * Z)) → option callback
  → outcome (list AlignmentResult.t).

(** [old_by_ayah]: a later result takes the place of an earlier one with
    the same number. *)
Definition build_old_by_ayah (old_results : list AlignmentResult.t)
    : gmap Z AlignmentResult.t :=
  fold_left
    (λ (old_by_ayah : gmap Z AlignmentResult.t) r,
       <[Ayah.ayah_number (AlignmentResult.ayah r) := r]> old_by_ayah)
    old_results ∅.

(** [best_source] *)
Inductive source := src_dp | src_split | src_old.

Definition is_long_ayah (long_ayah_words : Z) (long_ayah_duration : Q)
    (dp_r : AlignmentResult.t) : bool :=
  let ayah := AlignmentResult.ayah dp_r in
  let ayah_word_count := length (split (Ayah.text ayah)) in
  let ayah_duration :=
    (AlignmentResult.end_time dp_r - AlignmentResult.start_time dp_r)%Q in
  (long_ayah_words <? Z.of_nat ayah_word_count)%Z
  || Qlt_bool long_ayah_duration ayah_duration.

(** The part of the loop body that runs for a result below the threshold:
    the result to emit and where it comes from. *)
Definition improve (segments : list Segment.t)
    (silences_ms : option (list (Z * Z)))
    (old_by_ayah : gmap Z AlignmentResult.t)
    (long_ayah_words : Z) (long_ayah_duration : Q)
    (dp_r : AlignmentResult.t) : AlignmentResult.t * source :=
  let ayah := AlignmentResult.ayah dp_r in
  let best_result := dp_r in
  let best_source := src_dp in
  let '(best_result, best_source) :=
    if is_long_ayah long_ayah_words long_ayah_duration dp_r
    then match _try_split_and_restitch segments ayah dp_r silences_ms with
         | Some split_result =>
             if Qlt_bool (AlignmentResult.similarity_score best_result)
                  (AlignmentResult.similarity_score split_result)
             then (split_result, src_split)
             else (best_result, best_source)
         | None => (best_result, best_source)
         end
    else (best_result, best_source) in
  match old_by_ayah !! Ayah.ayah_number ayah with
  | Some old_r =>
      if Qlt_bool (AlignmentResult.similarity_score best_result)
           (AlignmentResult.similarity_score old_r)
      then (old_r, src_old)
      else (best_result, best_source)
  | None => (best_result, best_source)
  end.

(** One turn of the loop over [dp_results]; the state is
    [(final_results, stats)]. *)
Definition hybrid_step (segments : list Segment.t)
    (silences_ms : option (list (Z * Z)))
    (old_by_ayah : gmap Z AlignmentResult.t)
    (quality_threshold : Q) (long_ayah_words : Z) (long_ayah_duration : Q)
    (st : list AlignmentResult.t * HybridStats) (dp_r : AlignmentResult.t)
    : list AlignmentResult.t * HybridStats :=
  let '(final_results, stats) := st in
  if Qle_bool quality_threshold (AlignmentResult.similarity_score dp_r)
  then (final_results ++ [dp_r],
        mkStats (total_ayahs stats) (dp_kept stats + 1) (old_fallback stats)
          (split_improved stats) (still_low stats))
  else
    let '(best_result, best_source) :=
      improve segments silences_ms old_by_ayah long_ayah_words
        long_ayah_duration dp_r in
    let stats :=
      match best_source with
      | src_old =>
          mkStats (total_ayahs stats) (dp_kept stats)
            (old_fallback stats + 1) (split_improved stats) (still_low stats)
      | src_split =>
          mkStats (total_ayahs stats) (dp_kept stats) (old_fallback stats)
            (split_improved stats + 1) (still_low stats)
      | src_dp =>
          if Qlt_bool (AlignmentResult.similarity_score best_result)
               quality_threshold
          then mkStats (total_ayahs stats) (dp_kept stats)
                 (old_fallback stats) (split_improved stats)
                 (still_low stats + 1)
          else mkStats (total_ayahs stats) (dp_kept stats + 1)
                 (old_fallback stats) (split_improved stats)
                 (still_low stats)
      end in
    (final_results ++ [best_result], stats).

Definition align_segments_hybrid (segments : list Segment.t)
    (ayahs : list Ayah.t) (silences_ms : option (list (Z * Z)))
    (quality_threshold : Q) (long_ayah_words : Z) (long_ayah_duration : Q)
    (on_progress : option callback)
    : outcome (list AlignmentResult.t * HybridStats) :=
  let stats := mkStats (length ayahs) 0 0 0 0 in
  match segments, ayahs with
  | [], _ | _, [] => Returned ([], stats)
  | _, _ =>
      dp_results ←
        align_segments_dp_with_constraints segments ayahs silences_ms
          on_progress;
      match dp_results with
      | [] =>
          old_results ← align_segments_greedy segments ayahs silences_ms;
          Returned
            (old_results,
             mkStats (total_ayahs stats) (dp_kept stats)
               (length old_results) (split_improved stats)
               (still_low stats))
      | _ =>
          old_results ← align_segments_greedy segments ayahs silences_ms;
          let old_by_ayah := build_old_by_ayah old_results in
          Returned
            (fold_left
               (hybrid_step segments silences_ms old_by_ayah
                  quality_threshold long_ayah_words long_ayah_duration)
               dp_results ([], stats))
      end
  end.

End Strategy.

End Hybrid.

(** ** The facade: [munajjam/core/aligner.py] *)

Module Aligner.
Import Py Hybrid.

Inductive AlignmentStrategy := GREEDY | DP | HYBRID.

(** The fields of an [Aligner] object. *)
Record t := mk {
  strategy : AlignmentStrategy;
  quality_threshold : Q;
  fix_drift : bool;
  fix_overlaps : bool;
  _last_stats : option HybridStats;
}.

Definition set_last_stats (self : t) (stats : option HybridStats) : t :=
  mk (strategy self) (quality_threshold self) (fix_drift self)
    (fix_overlaps self) stats.

(** [Aligner()] with the default arguments. *)
Definition default : t := mk HYBRID 0.85 true true None.

Section Facade.
Variable similarity : str → str → Q.
Variable callback : Type.
Variable align_segments_greedy :
  list Segment.t → list Ayah.t → option (list (Z * Z))
  → outcome (list AlignmentResult.t).
Variable align_segments_dp_with_constraints :
  list Segment.t → list Ayah.t → option (list (Z * Z)) → option callback
  → outcome (list AlignmentResult.t).

(** The functions of [zone_realigner], not among the sources either:
    [realign_problem_zones(results, segments, ayahs, min_consecutive,
    quality_threshold, buffer_seconds)], [realign_from_anchors(results,
    segments, ayahs, min_gap_size, buffer_seconds)], each returning the
    results and a second value that the facade drops, and
    [fix_overlaps(results)], which changes the list in place and returns a
    count. *)
Variable zone_report : Type.
Variable realign_problem_zones :
  list AlignmentResult.t → list Segment.t → list Ayah.t → Z → Q → Q
  → outcome (list AlignmentResult.t * zone_report).
Variable realign_from_anchors :
  list AlignmentResult.t → list Segment.t → list Ayah.t → Z → Q
  → outcome (list AlignmentResult.t * zone_report).
Variable zone_fix_overlaps :
  list AlignmentResult.t → outcome (list AlignmentResult.t * Z).

Definition _align_greedy (self : t) (segments : list Segment.t)
    (ayahs : list Ayah.t) (silences_ms : option (list (Z * Z)))
    : outcome (list AlignmentResult.t) :=
  align_segments_greedy segments ayahs silences_ms.

Definition _align_dp (self : t) (segments : list Segment.t)
    (ayahs : list Ayah.t) (silences_ms : option (list (Z * Z)))
    (on_progress : option callback) : outcome (list AlignmentResult.t) :=
  align_segments_dp_with_constraints segments ayahs silences_ms on_progress.

(** Returns the results and the object, whose [_last_stats] it sets. *)
Definition _align_hybrid (self : t) (segments : list Segment.t)
    (ayahs : list Ayah.t) (silences_ms : option (list (Z * Z)))
    (on_progress : option callback)
    : outcome (list AlignmentResult.t) * t :=
  match align_segments_hybrid similarity callback align_segments_greedy
          align_segments_dp_with_constraints segments ayahs silences_ms
          (quality_threshold self) 30 30.0 on_progress with
  | Returned (results, stats) =>
      (Returned results, set_last_stats self (Some stats))
  | Raised e => (Raised e, self)
  end.

Definition _apply_drift_fix (self : t) (results : list AlignmentResult.t)
    (segments : list Segment.t) (ayahs : list Ayah.t)
    : outcome (list AlignmentResult.t) :=
  '(results, _) ←
    realign_problem_zones results segments ayahs 3 (quality_threshold self)
      10.0;
  '(results, _) ← realign_from_anchors results segments ayahs 3 5.0;
  Returned results.

(** The results after the in-place fix, and its count. *)
Definition _apply_overlap_fix (self : t) (results : list AlignmentResult.t)
    : outcome (list AlignmentResult.t * Z) :=
  zone_fix_overlaps results.

(** [Aligner.align]: what the call ends in, and the object after it. *)
Definition align (self : t) (segments : list Segment.t)
    (ayahs : list Ayah.t) (silences_ms : option (list (Z * Z)))
    (on_progress : option callback)
    : outcome (list AlignmentResult.t) * t :=
  match segments, ayahs with
  | [], _ | _, [] => (Returned [], self)
  | _, _ =>
      let self := set_last_stats self None in
      let '(results, self) :=
        match strategy self with
        | GREEDY => (_align_greedy self segments ayahs silences_ms, self)
        | DP =>
            (_align_dp self segments ayahs silences_ms on_progress, self)
        | HYBRID =>
            _align_hybrid self segments ayahs silences_ms on_progress
        end in
      (results ← results;
       results ←
         (match fix_drift self, results with
          | true, _ :: _ => _apply_drift_fix self results segments ayahs
          | _, _ => Returned results
          end);
       match fix_overlaps self, results with
       | true, _ :: _ =>
           '(results, _) ← _apply_overlap_fix self results;
           Returned results
       | _, _ => Returned results
       end, self)
  end.

End Facade.

End Aligner.

(** ** Cascade recovery: [munajjam/core/cascade_recovery.py] *)

Module CascadeRecovery.
Import PyStr Py.

(** The inner [while] of [find_cascade_sequences]: from [i], the index
    after the run of low results. The counter is [len(results) - i]. *)
Fixpoint low_run_end (results : list AlignmentResult.t) (threshold : Q)
    (room i : nat) : nat :=
  match room with
  | 0 => i
  | S room' =>
      match results !! i with
      | Some r =>
          if Qlt_bool (AlignmentResult.similarity_score r) threshold
          then low_run_end results threshold room' (S i)
          else i
      | None => i
      end
  end.

(** The outer [while] of [find_cascade_sequences]. Every turn moves [i]
    forward, so [len(results)] turns are enough. *)
Fixpoint cascades_from (results : list AlignmentResult.t) (threshold : Q)
    (min_cascade_length : Z) (fuel i : nat) (cascades : list (nat * nat))
    : list (nat * nat) :=
  match fuel with
  | 0 => cascades
  | S fuel' =>
      match results !! i with
      | None => cascades
      | Some r =>
          if Qlt_bool (AlignmentResult.similarity_score r) threshold
          then
            let start := i in
            let end_ :=
              low_run_end results threshold (length results - i) i in
            let cascades :=
              if (min_cascade_length <=? Z.of_nat end_ - Z.of_nat start)%Z
              then cascades ++ [(start, end_)]
              else cascades in
            cascades_from results threshold min_cascade_length fuel' end_
              cascades
          else
            cascades_from results threshold min_cascade_length fuel' (S i)
              cascades
      end
  end.

Definition find_cascade_sequences (results : list AlignmentResult.t)
    (threshold : Q) (min_cascade_length : Z) : list (nat * nat) :=
  cascades_from results threshold min_cascade_length (length results) 0 [].

(** A cell of the table [dp]:
    [(total_cost, merged_text, seg_start, parent)]. *)
Abbreviation dp_entry := (Q * str * nat * option (nat * nat))%type.

Definition entry_cost (e : dp_entry) : Q := e.1.1.1.
Definition entry_parent (e : dp_entry) : option (nat * nat) := e.2.

(** [total_cost < best_cost], where [best_cost] starts at [INF], here
    [None]. *)
Definition below (total_cost : Q) (best_cost : option Q) : bool :=
  match best_cost with
  | None => true
  | Some c => Qlt_bool total_cost c
  end.

(** The comparison of an old result with its replacement in the loop of
    the acceptance gate: [true] where the loop returns [None]. *)
Definition degrades (old new : AlignmentResult.t) : bool :=
  let drop :=
    (AlignmentResult.similarity_score old
     - AlignmentResult.similarity_score new)%Q in
  (Qle_bool 0.75 (AlignmentResult.similarity_score old)
   && Qlt_bool 0.08 drop)
  || (Qle_bool 0.5 (AlignmentResult.similarity_score old)
      && Qlt_bool 0.12 drop)
  || (Qle_bool 0.75 (AlignmentResult.similarity_score old)
      && Qlt_bool (AlignmentResult.similarity_score new) 0.70).

(** The bounds [cascade_old_start] and [cascade_old_end] of the slice
    whose average the gate compares, for a window of [len] results. *)
Definition cascade_old_start : nat := Nat.max 0 1.

Definition cascade_old_end (len : nat) : nat :=
  if 2 <? len then Nat.min len (len - 1) else len.

(** The last part of [_recover_cascade_with_resync], from the comment
    "Conservative check" on: the new results, or [None]. *)
Definition accept (old_results_range new_results : list AlignmentResult.t)
    : option (list AlignmentResult.t) :=
  if existsb (λ '(old, new), degrades old new)
       (zip old_results_range new_results)
  then None
  else
    let cascade_old_end := cascade_old_end (length old_results_range) in
    let cascade_new_start := cascade_old_start in
    let cascade_new_end := cascade_old_end in
    let old_cascade_sim :=
      Qsum (AlignmentResult.similarity_score
              <$> slice old_results_range cascade_old_start
                    cascade_old_end) in
    let new_cascade_sim :=
      Qsum (AlignmentResult.similarity_score
              <$> slice new_results cascade_new_start cascade_new_end) in
    let cascade_len :=
      (Z.of_nat cascade_old_end - Z.of_nat cascade_old_start)%Z in
    if (cascade_len =? 0)%Z then None
    else
      let old_avg := (old_cascade_sim / inject_Z cascade_len)%Q in
      let new_avg := (new_cascade_sim / inject_Z cascade_len)%Q in
      if Qlt_bool (old_avg + 0.08) new_avg then Some new_results else None.

Section Recovery.
(** [matcher.similarity] and [dp_core.compute_alignment_cost]. *)
Variable similarity : str → str → Q.
Variable compute_alignment_cost : str → str → Q.

(** One turn of the loop over [k] for the cell [(i, j)]; the state is
    [(best, best_cost)]. *)
Definition cell_step (sub_segments : list Segment.t) (ayah_text : str)
    (silence_aligned_ends : gset nat) (dp : gmap (nat * nat) dp_entry)
    (i j : nat) (st : option dp_entry * option Q) (k : nat)
    : option dp_entry * option Q :=
  let '(best, best_cost) := st in
  let prev_i := i - k in
  let prev_j := j - 1 in
  match dp !! (prev_i, prev_j) with
  | None => (best, best_cost)
  | Some prev =>
      let prev_cost := entry_cost prev in
      let merged_text :=
        join [SPACE] (Segment.text <$> slice sub_segments prev_i i) in
      let cost := compute_alignment_cost merged_text ayah_text in
      let cost :=
        if decide (i ∈ silence_aligned_ends) then (cost - 0.15)%Q
        else cost in
      let total_cost := (prev_cost + cost)%Q in
      if below total_cost best_cost
      then (Some (total_cost, merged_text, prev_i, Some (prev_i, prev_j)),
            Some total_cost)
      else (best, best_cost)
  end.

(** The loop over [k] for one cell [(i, j)]: the best entry, if any. *)
Definition dp_cell (sub_segments : list Segment.t) (ayah_text : str)
    (silence_aligned_ends : gset nat) (max_segs : nat)
    (dp : gmap (nat * nat) dp_entry) (i j : nat) : option dp_entry :=
  (fold_left
     (cell_step sub_segments ayah_text silence_aligned_ends dp i j)
     (seq 1 (Nat.min max_segs i)) (None, None)).1.

(** The loop over [i] for one āya [j], whose text is [sub_ayahs[j - 1]]. *)
Definition dp_row (sub_segments : list Segment.t) (ayah_text : str)
    (silence_aligned_ends : gset nat) (max_segs : nat) (j : nat)
    (dp : gmap (nat * nat) dp_entry) : gmap (nat * nat) dp_entry :=
  fold_left
    (λ (dp : gmap (nat * nat) dp_entry) i,
       match dp_cell sub_segments ayah_text silence_aligned_ends max_segs
               dp i j with
       | Some best => <[(i, j) := best]> dp
       | None => dp
       end)
    (seq j (length sub_segments + 1 - j)) dp.

(** The loop over [j]: [j] runs from 1 with the āyāt in step. *)
Definition dp_fill (sub_segments : list Segment.t)
    (sub_ayahs : list Ayah.t) (silence_aligned_ends : gset nat)
    (max_segs : nat) : gmap (nat * nat) dp_entry :=
  fold_left
    (λ (dp : gmap (nat * nat) dp_entry) '(j0, ayah),
       dp_row sub_segments (Ayah.text ayah) silence_aligned_ends max_segs
         (S j0) dp)
    (imap pair sub_ayahs) {[ (0, 0) := (0%Q, [], 0, None) ]}.

(** One turn of the loop of "Find best ending"; the state is
    [(best_end, best_end_cost)]. *)
Definition best_end_step (dp : gmap (nat * nat) dp_entry)
    (n_sub_ayah : nat) (st : option (nat * nat) * option Q) (i : nat)
    : option (nat * nat) * option Q :=
  let '(best_end, best_end_cost) := st in
  match dp !! (i, n_sub_ayah) with
  | Some e =>
      if below (entry_cost e) best_end_cost
      then (Some (i, n_sub_ayah), Some (entry_cost e))
      else (best_end, best_end_cost)
  | None => (best_end, best_end_cost)
  end.

(** "Find best ending". *)
Definition find_best_end (dp : gmap (nat * nat) dp_entry)
    (n_sub_seg n_sub_ayah : nat) : option (nat * nat) :=
  (fold_left (best_end_step dp n_sub_ayah)
     (seq n_sub_ayah (n_sub_seg + 1 - n_sub_ayah)) (None, None)).1.

(** The [while] loop of the backtracking; [None] if the counter runs out
    while the loop would go on. *)
Fixpoint backtrack (fuel : nat) (dp : gmap (nat * nat) dp_entry)
    (current : option (nat * nat)) (path : list (nat * nat * nat * str))
    : option (list (nat * nat * nat * str)) :=
  match current with
  | None => Some path
  | Some (i, j) =>
      match dp !! (i, j) with
      | None => Some path
      | Some (cost, merged_text, seg_start, parent) =>
          match fuel with
          | 0 => None
          | S fuel' =>
              backtrack fuel' dp parent
                (match parent with
                 | Some _ => path ++ [(seg_start, i, j, merged_text)]
                 | None => path
                 end)
          end
      end
  end.

(** "Convert to results". *)
Fixpoint convert (sub_segments : list Segment.t) (sub_ayahs : list Ayah.t)
    (path : list (nat * nat * nat * str))
    : outcome (list AlignmentResult.t) :=
  match path with
  | [] => Returned []
  | (seg_start_idx, seg_end_idx, ayah_idx, merged_text) :: path' =>
      if (length sub_segments <=? seg_start_idx)
         || (length sub_segments <? seg_end_idx)
      then convert sub_segments sub_ayahs path'
      else
        ayah ← py_getitem sub_ayahs (Z.of_nat ayah_idx - 1);
        first ← py_getitem sub_segments (Z.of_nat seg_start_idx);
        last ← py_getitem sub_segments (Z.of_nat seg_end_idx - 1);
        let sim_score := similarity merged_text (Ayah.text ayah) in
        let result :=
          AlignmentResult.mk ayah (Segment.start first) (Segment.end_ last)
            merged_text sim_score false in
        rest ← convert sub_segments sub_ayahs path';
        Returned (result :: rest)
  end.

Definition _recover_cascade_with_resync (segments : list Segment.t)
    (ayahs : list Ayah.t) (results : list AlignmentResult.t)
    (cascade_start cascade_end : nat) (silences_sec : list (Q * Q))
    (context_ayahs : nat) : outcome (option (list AlignmentResult.t)) :=
  let extended_start := Nat.max 0 (cascade_start - context_ayahs) in
  let extended_end :=
    Nat.min (length results) (cascade_end + context_ayahs) in
  first ← py_getitem results (Z.of_nat extended_start);
  let seg_start_time := AlignmentResult.start_time first in
  last ← py_getitem results (Z.of_nat extended_end - 1);
  let seg_end_time := AlignmentResult.end_time last in
  let seg_indices :=
    (filter
       (λ '(idx, seg),
          Qle_bool (seg_start_time - 0.5) (Segment.start seg)
          && Qle_bool (Segment.end_ seg) (seg_end_time + 0.5))
       (imap pair segments)).*1 in
  match seg_indices with
  | [] => Returned None
  | idx0 :: seg_indices' =>
      let seg_range_start := foldr Nat.min idx0 seg_indices' in
      let seg_range_end := foldr Nat.max idx0 seg_indices' + 1 in
      let sub_segments := slice segments seg_range_start seg_range_end in
      let sub_ayahs :=
        AlignmentResult.ayah <$> slice results extended_start extended_end in
      if length sub_segments <? length sub_ayahs then Returned None
      else
        let relevant_silences :=
          filter
            (λ '(sil_start, sil_end),
               Qle_bool seg_start_time sil_start
               && Qle_bool sil_start seg_end_time)
            silences_sec in
        let n_sub_seg := length sub_segments in
        let n_sub_ayah := length sub_ayahs in
        let silence_aligned_ends : gset nat :=
          list_to_set
            (S <$> (filter
                      (λ '(idx, seg),
                         existsb
                           (λ '(sil_start, sil_end),
                              Qlt_bool
                                (Qabs (Segment.end_ seg - sil_start)) 0.3)
                           relevant_silences)
                      (imap pair sub_segments)).*1) in
        let max_segs := Nat.min 6 n_sub_seg in
        let dp :=
          dp_fill sub_segments sub_ayahs silence_aligned_ends max_segs in
        match find_best_end dp n_sub_seg n_sub_ayah with
        | None => Returned None
        | Some best_end =>
            match backtrack (S n_sub_ayah) dp (Some best_end) [] with
            | None => Raised Unfinished
            | Some path =>
                let path := rev path in
                new_results ← convert sub_segments sub_ayahs path;
                if negb (Z.of_nat (length new_results)
                         =? Z.of_nat extended_end - Z.of_nat extended_start)%Z
                then Returned None
                else
                  let old_results_range :=
                    slice results extended_start extended_end in
                  Returned (accept old_results_range new_results)
            end
        end
  end.

(** One turn of the loop of [apply_cascade_recovery]. *)
Definition recovery_step (segments : list Segment.t) (ayahs : list Ayah.t)
    (silences_sec : list (Q * Q))
    (improved_results : list AlignmentResult.t) (cascade : nat * nat)
    : outcome (list AlignmentResult.t) :=
  let '(cascade_start, cascade_end) := cascade in
  recovery ←
    _recover_cascade_with_resync segments ayahs improved_results
      cascade_start cascade_end silences_sec 1;
  match recovery with
  | Some (r :: recovery') =>
      let context := 1 in
      let ext_start := Nat.max 0 (cascade_start - context) in
      let ext_end :=
        Nat.min (length improved_results) (cascade_end + context) in
      Returned
        (take ext_start improved_results
         ++ (r :: recovery') ++ drop ext_end improved_results)
  | _ => Returned improved_results
  end.

Definition apply_cascade_recovery (segments : list Segment.t)
    (ayahs : list Ayah.t) (results : list AlignmentResult.t)
    (silences_ms : option (list (Z * Z))) (cascade_threshold : Q)
    (min_cascade_length : Z) : outcome (list AlignmentResult.t) :=
  match results with
  | [] => Returned results
  | _ =>
      let silences_sec :=
        match silences_ms with
        | Some silences_ms => ms_to_sec <$> silences_ms
        | None => []
        end in
      let cascades :=
        find_cascade_sequences results cascade_threshold
          min_cascade_length in
      match cascades with
      | [] => Returned results
      | _ =>
          let improved_results := results in
          fold_left
            (λ improved_results cascade,
               improved_results ← improved_results;
               recovery_step segments ayahs silences_sec improved_results
                 cascade)
            (rev cascades) (Returned improved_results)
      end
  end.

End Recovery.

End CascadeRecovery.

(** ** Inputs for the examples *)

Module Examples.
Import PyStr Py.

(** The scorer and the cost of the library, over the table of the
    examples. *)
Definition sim : str → str → Q := Matcher.similarity isword_table.
Definition cost : str → str → Q :=
  Matcher.compute_alignment_cost isword_table.

Definition ayah_of (n : Z) (text : string) : Ayah.t :=
  Ayah.mk n 1 (of_ascii text).

Definition segment_of (n : Z) (start end_ : Q) (text : string)
    : Segment.t :=
  Segment.mk n start end_ (of_ascii text).

Definition result_of (ayah : Ayah.t) (start end_ : Q) (text : string)
    (score : Q) : AlignmentResult.t :=
  AlignmentResult.mk ayah start end_ (of_ascii text) score false.

(** Aligners that return a given list, whatever they are called with. *)
Definition greedy_returning (out : list AlignmentResult.t)
    : list Segment.t → list Ayah.t → option (list (Z * Z))
      → outcome (list AlignmentResult.t) :=
  λ _ _ _, Returned out.

Definition dp_returning (out : list AlignmentResult.t)
    : list Segment.t → list Ayah.t → option (list (Z * Z)) → option unit
      → outcome (list AlignmentResult.t) :=
  λ _ _ _ _, Returned out.

(** Zone passes that change nothing. *)
Definition zones_unchanged
    : list AlignmentResult.t → list Segment.t → list Ayah.t → Z → Q → Q
      → outcome (list AlignmentResult.t * unit) :=
  λ results _ _ _ _ _, Returned (results, ()).

Definition anchors_unchanged
    : list AlignmentResult.t → list Segment.t → list Ayah.t → Z → Q
      → outcome (list AlignmentResult.t * unit) :=
  λ results _ _ _ _, Returned (results, ()).

Definition overlaps_unchanged
    : list AlignmentResult.t → outcome (list AlignmentResult.t * Z) :=
  λ results, Returned (results, 0%Z).

(** *** Two segments that share a word

    "الحمد لله رب العالمين" and "العالمين الرحمن الرحيم", as code
    points. *)

Definition ends_with_alamin : str :=
  [1575; 1604; 1581; 1605; 1583; 32; 1604; 1604; 1607; 32; 1585; 1576; 32;
   1575; 1604; 1593; 1575; 1604; 1605; 1610; 1606]%N.

Definition starts_with_alamin : str :=
  [1575; 1604; 1593; 1575; 1604; 1605; 1610; 1606; 32; 1575; 1604; 1585;
   1581; 1605; 1606; 32; 1575; 1604; 1585; 1581; 1610; 1605]%N.

(** "الرحمن الرحيم" *)
Definition rahman_rahim : str :=
  [1575; 1604; 1585; 1581; 1605; 1606; 32; 1575; 1604; 1585; 1581; 1610;
   1605]%N.

(** *** A long āya recited in two segments around a silence *)

Definition long_ayah : Ayah.t := ayah_of 1 "ab cd".
Definition short_ayah : Ayah.t := ayah_of 3 "ef".

Definition two_segments : list Segment.t :=
  [segment_of 1 0 10 "ab"; segment_of 2 40 50 "cd"].

Definition one_silence : option (list (Z * Z)) :=
  Some [(10000, 40000)%Z].

(** A weak result of the DP aligner for the long āya. *)
Definition weak_result : AlignmentResult.t :=
  result_of long_ayah 0 50 "ab" 0.5.

Definition three_ayahs : list Ayah.t :=
  [ayah_of 7 "gh"; long_ayah; short_ayah].

(** Results of the DP aligner: a good one, the weak one, and one for which
    the greedy aligner did better. *)
Definition dp_results : list AlignmentResult.t :=
  [result_of (ayah_of 7 "gh") 50 51 "gh" 0.9;
   weak_result;
   result_of short_ayah 51 52 "xf" 0.5].

Definition greedy_results : list AlignmentResult.t :=
  [result_of long_ayah 0 50 "ab c" 0.6;
   result_of short_ayah 51 52 "ef" 1].

(** *** Two low results that make up the whole list *)

Definition pair_ayahs : list Ayah.t :=
  [ayah_of 1 "abcdefghij"; ayah_of 2 "klmnopqrst"].

Definition pair_segments : list Segment.t :=
  [segment_of 1 0 1 "xyz"; segment_of 2 1 2 "klmnopqrst"].

Definition pair_results : list AlignmentResult.t :=
  [result_of (ayah_of 1 "abcdefghij") 0 1 "xyz" 0.45;
   result_of (ayah_of 2 "klmnopqrst") 1 2 "klmnopqrst" 0.60].

(** *** Two cascades with one good result between them *)

Definition five_ayahs : list Ayah.t :=
  [ayah_of 1 "aaaaaaa"; ayah_of 2 "bbb"; ayah_of 3 "abcdefg";
   ayah_of 4 "hhhhhhh"; ayah_of 5 "iiiiiii"].

Definition six_segments : list Segment.t :=
  [segment_of 1 0 10 "aaaaaaa"; segment_of 2 10 20 "bbb";
   segment_of 3 20 21 "q"; segment_of 4 21 30 "abcdexy";
   segment_of 5 30 40 "hhhhhhh"; segment_of 6 40 50 "iiiiiii"].

Definition five_results : list AlignmentResult.t :=
  [result_of (ayah_of 1 "aaaaaaa") 0 10 "zzz" 0;
   result_of (ayah_of 2 "bbb") 10 20 "zzz" 0;
   result_of (ayah_of 3 "abcdefg") 21 30 "abcdez" (10 # 13);
   result_of (ayah_of 4 "hhhhhhh") 30 40 "zzz" 0;
   result_of (ayah_of 5 "iiiiiii") 40 50 "zzz" 0].

End Examples.

(** ** The legacy aligner: [src/align_segments.py], word windows *)

Module LegacyWords.
Import PyStr AlignSegments.

(** The place that a slice bound [i] stands for in a sequence of [len]
    items: a negative bound counts from the end, and every bound is cut to
    the sequence. *)
Definition slice_bound (len : nat) (i : Z) : nat :=
  if (i <? 0)%Z then Z.to_nat (Z.max (i + Z.of_nat len) 0)
  else Nat.min (Z.to_nat i) len.

(** [l[:n]] and [l[n:]] *)
Definition slice_to {A} (l : list A) (n : Z) : list A :=
  take (slice_bound (length l) n) l.

Definition slice_from {A} (l : list A) (n : Z) : list A :=
  drop (slice_bound (length l) n) l.

Section Words.
Variable isword : N → bool.

Definition get_first_last_words (text : str) (n : Z) : str * str :=
  let words := split (normalize_arabic isword text) in
  let first :=
    if (n <=? Z.of_nat (length words))%Z
    then join [SPACE] (slice_to words n)
    else join [SPACE] words in
  let last :=
    if (n <=? Z.of_nat (length words))%Z
    then join [SPACE] (slice_from words (- n))
    else join [SPACE] words in
  (first, last).

End Words.

End LegacyWords.

(** ** The legacy aligner: [src/align_segments.py], the merging loop *)

Module LegacyAligner.
Import PyStr Py AlignSegments LegacyWords.

(** A transcribed segment as [json.load] gives it: a dict with the keys
    [id], [start], [end] and [text]. *)
Record segment := mk_segment {
  seg_id : Z;
  seg_start : Q;
  seg_end : Q;
  seg_text : str;
}.

(** An āya as the loop over the CSV rows builds it. *)
Record ayah := mk_ayah {
  ayah_id : Z;
  ayah_sura_id : Z;
  ayah_index_in_sura : Z;
  ayah_text : str;
}.

(** An item of [cleaned_segments]. *)
Record cleaned := mk_cleaned {
  id : nat;
  sura_id : Z;
  ayah_index : nat;
  start : Q;
  end_ : Q;
  transcribed_text : str;
  corrected_text : str;
  start_id : Z;
  end_id : Z;
  uuid : str;
}.

(** The tuple [ayah_data] that [db.insert_ayah_timestamp] inserts as a
    row: [(surah_uuid, sura_id, index, start_time, end_time,
    reciter_name)]. *)
Definition row : Type := str * Z * Z * Q * Q * str.

(** [l[i]] for an index that is not negative. *)
Definition item {A} (l : list A) (i : nat) : outcome A :=
  match l !! i with
  | Some x => Returned x
  | None => Raised IndexError
  end.

(** [similarity(a, b)] as a call that ends. *)
Definition similarity_of (a b : str) : outcome Q :=
  match similarity a b with
  | Some q => Returned q
  | None => Raised Unfinished
  end.

Section Loop.
Variable isword : N → bool.

(** [N_CHECK] for an āya text: 3, 2 or 1 words. *)
Definition n_check (text : str) : Z :=
  let words := split (strip text) in
  if 3 <=? length words then 3%Z
  else if length words =? 2 then 2%Z
  else 1%Z.

(** [last_words_sim >= 0.6] *)
Definition reached_end (merged_text text : str) : outcome bool :=
  let N_CHECK := n_check text in
  let seg_last2 := (get_first_last_words isword merged_text N_CHECK).2 in
  let ayah_last2 := (get_first_last_words isword text N_CHECK).2 in
  last_words_sim ← similarity_of seg_last2 ayah_last2;
  Returned (Qle_bool 0.6 last_words_sim).

(** [sim > 0.6] for the next segment and the next āya. *)
Definition next_starts (next_segment_text next_text : str) : outcome bool :=
  let N_CHECK := n_check next_text in
  let next_first_seg :=
    (get_first_last_words isword next_segment_text N_CHECK).1 in
  let next_first_ayah :=
    (get_first_last_words isword next_text N_CHECK).1 in
  sim ← similarity_of next_first_seg next_first_ayah;
  Returned (Qlt_bool 0.6 sim).

(** The loop [while True]: it ends with [break] in one of three places,
    each of which saves the same item; the result is the state at the
    [break], [(i, merged_text, end_time)]. Every turn that does not end the
    loop moves [i] forward, so [len(segments) - i] turns are enough. *)
Fixpoint merge_loop (fuel : nat) (segments : list segment)
    (ayahs : list ayah) (ayah_index i : nat) (merged_text : str)
    (end_time : Q) (overlap_flag : bool) : outcome (nat * str * Q) :=
  match fuel with
  | 0 => Raised Unfinished
  | S fuel' =>
      ayah ← item ayahs ayah_index;
      full_sim ←
        similarity_of (normalize_arabic isword merged_text)
          (normalize_arabic isword (ayah_text ayah));
      ended ← reached_end merged_text (ayah_text ayah);
      if ended : bool then Returned (i, merged_text, end_time)
      else if i + 1 <? length segments
      then
        found ←
          (if ayah_index + 1 <? length ayahs
           then
             next_ayah ← item ayahs (ayah_index + 1);
             next_segment ← item segments (i + 1);
             starts ←
               next_starts (seg_text next_segment) (ayah_text next_ayah);
             Returned ((ayah_index + 1 <? length ayahs) && starts)
           else Returned false);
        if found : bool then Returned (i, merged_text, end_time)
        else
          next_segment ← item segments (i + 1);
          let '(merged_text, overlap_found) :=
            remove_overlap isword merged_text (seg_text next_segment) in
          let overlap_flag :=
            if overlap_found : bool then true else overlap_flag in
          merge_loop fuel' segments ayahs ayah_index (i + 1) merged_text
            (seg_end next_segment) overlap_flag
      else Returned (i, merged_text, end_time)
  end.

(** The outer loop, from [cleaned_segments = []] on; the state is
    [(i, ayah_index, cleaned_segments)] and the rows inserted so far. Every
    turn moves [i] forward, so [len(segments)] turns are enough. *)
Fixpoint align_loop (fuel : nat) (surah_uuid reciter_name : str)
    (segments : list segment) (ayahs : list ayah) (i ayah_index : nat)
    (cleaned_segments : list cleaned) (rows : list row)
    : outcome (list cleaned * list row) :=
  if (i <? length segments) && (ayah_index <? length ayahs)
  then
    match fuel with
    | 0 => Raised Unfinished
    | S fuel' =>
        first ← item segments i;
        let start_time := seg_start first in
        '(i, merged_text, end_time) ←
          merge_loop (length segments - i) segments ayahs ayah_index i
            (seg_text first) (seg_end first) false;
        ayah ← item ayahs ayah_index;
        last ← item segments i;
        let ayah_data :=
          (surah_uuid, ayah_sura_id ayah, ayah_index_in_sura ayah,
           start_time, end_time, reciter_name) in
        let saved :=
          mk_cleaned (length cleaned_segments + 1) (ayah_sura_id ayah)
            ayah_index start_time end_time merged_text (ayah_text ayah)
            (seg_id last) (seg_id last) surah_uuid in
        align_loop fuel' surah_uuid reciter_name segments ayahs (i + 1)
          (ayah_index + 1) (cleaned_segments ++ [saved])
          (rows ++ [ayah_data])
    end
  else Returned (cleaned_segments, rows).

(** [clean_and_merge_segments] from the line [cleaned_segments = []] on,
    for the configuration, the segments and the āyāt that the lines before
    have loaded: the list that is written to the JSON file and the rows
    that are inserted into the table. Printing is left out. *)
Definition clean_and_merge_segments (surah_uuid reciter_name : str)
    (segments : list segment) (ayahs : list ayah)
    : outcome (list cleaned * list row) :=
  align_loop (length segments) surah_uuid reciter_name segments ayahs 0 0
    [] [].

End Loop.

End LegacyAligner.

(** ** The comparison script: [reprocess_from_cache.py] *)

Module ReprocessFromCache.
Import Py.

(** An item of the list ["ayahs"] of a saved output, as [save_output]
    writes it. *)
Record saved_ayah := mk_saved_ayah {
  ayah_number : Z;
  start : Q;
  end_ : Q;
  text : str;
  similarity : Q;
}.

(** [compare_results], the inner [while] of "Count cascades": from [i],
    the index after the run of āyāt below 0.7. The counter is
    [len(orig_ayahs) - i]. *)
Fixpoint orig_run_end (orig_ayahs : list saved_ayah) (room i : nat) : nat :=
  match room with
  | 0 => i
  | S room' =>
      match orig_ayahs !! i with
      | Some a =>
          if Qlt_bool (similarity a) 0.7
          then orig_run_end orig_ayahs room' (S i)
          else i
      | None => i
      end
  end.

(** The outer [while]; every turn moves [i] forward. *)
Fixpoint orig_cascades_from (orig_ayahs : list saved_ayah) (fuel i : nat)
    (orig_cascades : list (nat * nat)) : list (nat * nat) :=
  match fuel with
  | 0 => orig_cascades
  | S fuel' =>
      match orig_ayahs !! i with
      | None => orig_cascades
      | Some a =>
          if Qlt_bool (similarity a) 0.7
          then
            let start := i in
            let i := orig_run_end orig_ayahs (length orig_ayahs - i) i in
            let orig_cascades :=
              if (2 <=? Z.of_nat i - Z.of_nat start)%Z
              then orig_cascades ++ [(start, i)]
              else orig_cascades in
            orig_cascades_from orig_ayahs fuel' i orig_cascades
          else orig_cascades_from orig_ayahs fuel' (S i) orig_cascades
      end
  end.

(** [orig_cascades], as [compare_results] has it when it prints the
    comparison. *)
Definition orig_cascades (orig_ayahs : list saved_ayah)
    : list (nat * nat) :=
  orig_cascades_from orig_ayahs (length orig_ayahs) 0 [].

End ReprocessFromCache.

(** ** The investigation script: [investigate_surah.py] *)

Module InvestigateSurah.
Import PyStr Py.

Record AyahAnalysis := mk_analysis {
  ayah_number : Z;
  similarity : Q;
  start : Q;
  end_ : Q;
  duration : Q;
  text : str;
  word_count : Z;
  words_per_second : Q;
  gap_before : Q;
  gap_after : Q;
  prev_similarity : option Q;
  next_similarity : option Q;
  issues : list str;
}.

(** The dict [patterns], which has these five keys throughout. *)
Record patterns := mk_patterns {
  cascade_sequences : list Z;
  isolated_failures : list Z;
  gap_issues : list Z;
  duration_mismatch : list Z;
  critical_failures : list Z;
}.

Fixpoint startswith (s prefix : str) : bool :=
  match prefix, s with
  | [], _ => true
  | p :: prefix', c :: s' => (p =? c)%N && startswith s' prefix'
  | _ :: _, [] => false
  end.

(** [needle in s] for two strings. *)
Fixpoint contains (s needle : str) : bool :=
  startswith s needle
  || match s with
     | [] => false
     | _ :: s' => contains s' needle
     end.

(** The inner [while] of "Find cascade sequences": from [j], the index
    after the run of analyses below 0.8. The counter is
    [len(analyses) - j]. *)
Fixpoint sequence_end (analyses : list AyahAnalysis) (room j : nat) : nat :=
  match room with
  | 0 => j
  | S room' =>
      match analyses !! j with
      | Some a =>
          if Qlt_bool (similarity a) 0.8
          then sequence_end analyses room' (S j)
          else j
      | None => j
      end
  end.

(** The outer [while]; the state is [i] and the two lists
    [patterns["cascade_sequences"]] and [patterns["isolated_failures"]].
    Every turn moves [i] forward. *)
Fixpoint sequences_from (analyses : list AyahAnalysis) (fuel i : nat)
    (cascade isolated : list Z) : list Z * list Z :=
  match fuel with
  | 0 => (cascade, isolated)
  | S fuel' =>
      match analyses !! i with
      | None => (cascade, isolated)
      | Some a =>
          if Qlt_bool (similarity a) 0.8
          then
            let j := sequence_end analyses (length analyses - i) i in
            let seq_len := (Z.of_nat j - Z.of_nat i)%Z in
            let '(cascade, isolated) :=
              if (2 <=? seq_len)%Z
              then (cascade ++ (ayah_number <$> slice analyses i j),
                    isolated)
              else if (seq_len =? 1)%Z
              then (cascade, isolated ++ [ayah_number a])
              else (cascade, isolated) in
            sequences_from analyses fuel' j cascade isolated
          else sequences_from analyses fuel' (S i) cascade isolated
      end
  end.

Definition SHORT_DURATION : str := of_ascii "SHORT_DURATION".
Definition LONG_DURATION : str := of_ascii "LONG_DURATION".

(** One turn of the loop of "Other patterns"; the state is
    [(critical_failures, gap_issues, duration_mismatch)]. *)
Definition other_step (st : list Z * list Z * list Z) (a : AyahAnalysis)
    : list Z * list Z * list Z :=
  let '(critical, gaps, mismatch) := st in
  let critical :=
    if Qlt_bool (similarity a) 0.5 then critical ++ [ayah_number a]
    else critical in
  let gaps :=
    if Qlt_bool 3.0 (gap_before a) && Qlt_bool (similarity a) 0.8
    then gaps ++ [ayah_number a]
    else gaps in
  let mismatch :=
    if contains (join [SPACE] (issues a)) SHORT_DURATION
       || contains (join [SPACE] (issues a)) LONG_DURATION
    then mismatch ++ [ayah_number a]
    else mismatch in
  (critical, gaps, mismatch).

Definition identify_patterns (analyses : list AyahAnalysis) : patterns :=
  let '(cascade, isolated) :=
    sequences_from analyses (length analyses) 0 [] [] in
  let '(critical, gaps, mismatch) :=
    fold_left other_step analyses ([], [], []) in
  mk_patterns cascade isolated gaps mismatch critical.

End InvestigateSurah.

(** ** More inputs for the examples *)

Module CascadeExamples.
Import Examples.

(** A low result between two good ones. *)
Definition isolated_results : list AlignmentResult.t :=
  [result_of (ayah_of 7 "gh") 50 51 "gh" 0.9;
   weak_result;
   result_of short_ayah 51 52 "ef" 1].

End CascadeExamples.

(** * Verification *)

(** ** White space and normalisation *)

Module PyStrFacts.
Import PyStr.

(** A text in which white space occurs only as single spaces; with
    [prev_space] the text may not start with one. *)
Fixpoint ws_norm (prev_space : bool) (s : str) : bool :=
  match s with
  | [] => true
  | c :: s' =>
      if isspace c
      then negb prev_space && (c =? SPACE)%N && ws_norm true s'
      else ws_norm false s'
  end.

Lemma isspace_SPACE : isspace SPACE = true.
Proof. reflexivity. Qed.

Lemma ws_norm_weaken b s : ws_norm true s = true → ws_norm b s = true.
Proof.
  destruct s as [|c s]; simpl; [done|].
  destruct (isspace c); [|done]. simpl. discriminate.
Qed.

Lemma re_sub_ws_runs_norm b s : ws_norm b (re_sub_ws_runs b s) = true.
Proof.
  revert b. induction s as [|c s IH]; intros b; simpl; [done|].
  destruct (isspace c) eqn:Hc.
  - destruct b; [apply IH|]. simpl. rewrite ?isspace_SPACE. simpl. apply IH.
  - simpl. rewrite Hc. apply IH.
Qed.

Lemma re_sub_ws_runs_id b s : ws_norm b s = true → re_sub_ws_runs b s = s.
Proof.
  revert b. induction s as [|c s IH]; intros b; simpl; [done|].
  destruct (isspace c) eqn:Hc.
  - destruct b; simpl; [discriminate|].
    intros [Hsp Hs]%andb_prop. apply N.eqb_eq in Hsp. subst c.
    f_equal. by apply IH.
  - intros Hs. f_equal. by apply IH.
Qed.

Lemma lstrip_norm b s : ws_norm b s = true → ws_norm b (lstrip s) = true.
Proof.
  revert b. induction s as [|c s IH]; intros b; simpl; [done|].
  destruct (isspace c) eqn:Hc.
  - intros [_ Hs]%andb_prop. apply ws_norm_weaken. by apply IH.
  - simpl. by rewrite Hc.
Qed.

Lemma rstrip_norm b s : ws_norm b s = true → ws_norm b (rstrip s) = true.
Proof.
  revert b. induction s as [|c s IH]; intros b; simpl; [done|].
  destruct (isspace c) eqn:Hc.
  - intros [Hb Hs]%andb_prop. specialize (IH true Hs).
    destruct (rstrip s) as [|d r]; [done|].
    simpl in *. rewrite Hc, Hb. exact IH.
  - intros Hs. specialize (IH false Hs).
    destruct (rstrip s) as [|d r]; simpl; rewrite Hc; [done|exact IH].
Qed.

(** The first character of a text, if it has one, is not white. *)
Definition head_black (s : str) : bool :=
  match s with [] => true | c :: _ => negb (isspace c) end.

Lemma lstrip_head s : head_black (lstrip s) = true.
Proof.
  induction s as [|c s IH]; simpl; [done|].
  destruct (isspace c) eqn:Hc; [done|]. simpl. by rewrite Hc.
Qed.

Lemma lstrip_id s : head_black s = true → lstrip s = s.
Proof. destruct s as [|c s]; simpl; [done|]. by destruct (isspace c). Qed.

Lemma rstrip_head s : head_black s = true → head_black (rstrip s) = true.
Proof.
  destruct s as [|c s]; simpl; [done|]. intros Hc.
  destruct (rstrip s); simpl; [|exact Hc].
  destruct (isspace c) eqn:E; simpl; rewrite ?E; done.
Qed.

Lemma rstrip_idemp s : rstrip (rstrip s) = rstrip s.
Proof.
  induction s as [|c s IH]; simpl; [done|].
  destruct (rstrip s) as [|d r] eqn:Hr.
  - destruct (isspace c) eqn:Hc; simpl; [done|]. by rewrite Hc.
  - change (rstrip (c :: d :: r) = c :: d :: r).
    change (rstrip (c :: d :: r))
      with (match rstrip (d :: r) with
            | [] => if isspace c then [] else [c]
            | r' => c :: r'
            end).
    by rewrite IH.
Qed.

Lemma strip_idemp s : strip (strip s) = strip s.
Proof.
  unfold strip.
  rewrite (lstrip_id (rstrip (lstrip s))).
  - apply rstrip_idemp.
  - apply rstrip_head, lstrip_head.
Qed.

Lemma strip_norm b s : ws_norm b s = true → ws_norm b (strip s) = true.
Proof. intros. by apply rstrip_norm, lstrip_norm. Qed.

Lemma lstrip_Forall (P : N → Prop) s : Forall P s → Forall P (lstrip s).
Proof.
  induction 1 as [|c s Hc Hs IH]; simpl; [done|].
  destruct (isspace c); [done|]. by constructor.
Qed.

Lemma rstrip_Forall (P : N → Prop) s : Forall P s → Forall P (rstrip s).
Proof.
  induction 1 as [|c s Hc Hs IH]; simpl; [done|].
  destruct (rstrip s).
  - destruct (isspace c); [done|]. by constructor.
  - by constructor.
Qed.

Lemma strip_Forall (P : N → Prop) s : Forall P s → Forall P (strip s).
Proof. intros. by apply rstrip_Forall, lstrip_Forall. Qed.

Lemma re_sub_ws_runs_Forall (P : N → Prop) b s :
  P SPACE → Forall P s → Forall P (re_sub_ws_runs b s).
Proof.
  intros Hsp Hs. revert b.
  induction Hs as [|c s Hc Hs IH]; intros b; simpl; [done|].
  destruct (isspace c); [destruct b|]; try constructor; auto.
Qed.

Lemma re_sub_class_id cls repl s :
  Forall (λ c, c ∈ cls → c = repl) s → re_sub_class cls repl s = s.
Proof.
  unfold re_sub_class. induction 1 as [|c s Hc Hs IH]; [done|].
  rewrite fmap_cons. fold (re_sub_class cls repl s).
  unfold re_sub_class at 1. rewrite IH.
  case_bool_decide; [|done]. by rewrite Hc.
Qed.

Lemma filter_id (P : N → bool) s :
  Forall (λ c, P c = true) s → filter (λ c, P c) s = s.
Proof.
  induction 1 as [|c s Hc Hs IH]; [done|].
  rewrite filter_cons_True by (by rewrite Hc). by f_equal.
Qed.

End PyStrFacts.

Module DifflibFacts.
Import PyStr Difflib.

(** ** The sequence matcher *)

(** The places of [x] in [b], counted from [lo], in increasing order. *)
Fixpoint places_from (x : N) (lo : nat) (b : str) : list nat :=
  match b with
  | [] => []
  | y :: b' =>
      (if decide (y = x) then [lo] else []) ++ places_from x (S lo) b'
  end.

Lemma places_from_app x lo b1 b2 :
  places_from x lo (b1 ++ b2)
  = places_from x lo b1 ++ places_from x (lo + length b1) b2.
Proof.
  revert lo. induction b1 as [|y b1 IH]; intros lo; simpl.
  { by rewrite Nat.add_0_r. }
  rewrite IH, <- app_assoc. do 3 f_equal. lia.
Qed.

Lemma elem_of_places_from x lo b j :
  j ∈ places_from x lo b ↔ lo ≤ j ∧ b !! (j - lo) = Some x.
Proof.
  revert lo. induction b as [|y b IH]; intros lo; simpl.
  { rewrite elem_of_nil. split; [done|]. intros [_ Hj].
    by rewrite lookup_nil in Hj. }
  rewrite elem_of_app, IH. split.
  - intros [Hj|[Hle Hj]].
    + case_decide as Hy; [|by apply elem_of_nil in Hj].
      apply list_elem_of_singleton in Hj. subst.
      rewrite Nat.sub_diag. by split.
    + split; [lia|]. by replace (j - lo) with (S (j - S lo)) by lia.
  - intros [Hle Hj]. destruct (decide (j = lo)) as [->|Hne].
    + rewrite Nat.sub_diag in Hj. simplify_eq/=. left.
      rewrite decide_True by done. by apply list_elem_of_singleton.
    + right. split; [lia|].
      by replace (j - lo) with (S (j - S lo)) in Hj by lia.
Qed.

Lemma chain_b_lookup b x :
  chain_b b !! x
  = if decide (x ∈ b) then Some (places_from x 0 b) else None.
Proof.
  unfold chain_b. induction b as [|y b IH] using rev_ind.
  { simpl. by rewrite lookup_empty. }
  rewrite imap_app, fold_left_app, places_from_app. simpl.
  rewrite Nat.add_0_r.
  destruct (decide (y = x)) as [->|Hne].
  - rewrite lookup_insert_eq, IH.
    rewrite (decide_True (P := x ∈ b ++ [x])) by set_solver.
    rewrite app_nil_r.
    case_decide as Hin; simpl; [done|].
    f_equal. f_equal.
    assert (Hnil : ∀ lo, places_from x lo b = []).
    { clear -Hin. induction b as [|z b IH]; intros lo; simpl; [done|].
      rewrite decide_False by set_solver. apply IH. set_solver. }
    by rewrite Hnil.
  - rewrite lookup_insert_ne by done. rewrite IH, app_nil_r.
    destruct (decide (x ∈ b)) as [Hin|Hin].
    + rewrite decide_True; [done|]. apply elem_of_app. by left.
    + rewrite decide_False; [done|].
      rewrite elem_of_app, list_elem_of_singleton.
      intros [?|?]; [done|congruence].
Qed.

Lemma b2j_lookup_Some b x js :
  b2j b !! x = Some js → x ∈ b ∧ js = places_from x 0 b.
Proof.
  unfold b2j. intros Hjs.
  assert (chain_b b !! x = Some js) as Hc.
  { destruct (200 <=? length b); [|done].
    by apply map_lookup_filter_Some in Hjs as [? _]. }
  rewrite chain_b_lookup in Hc. case_decide; by simplify_eq.
Qed.

(** *** A text against itself *)

Section SelfMatch.
Variable a : str.

(** [x] is a key of [b2j]: it occurs in the text and is not popular. *)
Definition tracked (x : N) : bool := bool_decide (is_Some (b2j a !! x)).

(** The length of the longest run of equal tracked elements that ends at
    [a[i]] and [a[j]]: what [j2len] holds for [j] after row [i]. *)
Fixpoint run (i j : nat) : nat :=
  match a !! i, a !! j with
  | Some x, Some y =>
      if bool_decide (x = y) && tracked x
      then S (match i, j with S i', S j' => run i' j' | _, _ => 0 end)
      else 0
  | _, _ => 0
  end.

Definition run_before (i j : nat) : nat :=
  match i, j with S i', S j' => run i' j' | _, _ => 0 end.

Lemma run_eq i j :
  run i j
  = match a !! i, a !! j with
    | Some x, Some y =>
        if bool_decide (x = y) && tracked x then S (run_before i j) else 0
    | _, _ => 0
    end.
Proof. by destruct i. Qed.

Lemma run_le i j : run i j ≤ S i.
Proof.
  revert j. induction i as [|i IH]; intros j; rewrite run_eq.
  - destruct (a !! 0), (a !! j); try lia.
    destruct (_ && _); simpl; lia.
  - destruct (a !! S i), (a !! j); try lia.
    destruct (_ && _); [|lia].
    destruct j as [|j]; simpl; [lia|]. specialize (IH j). lia.
Qed.

Lemma run_diag_max i j : run i j ≤ run i i.
Proof.
  revert j. induction i as [|i IH]; intros j; rewrite !run_eq.
  - destruct (a !! 0) as [x|] eqn:Hx; [|done].
    destruct (a !! j) as [y|]; [|lia].
    destruct (bool_decide (x = y)) eqn:Hxy; simpl; [|lia].
    rewrite bool_decide_eq_true_2 by done. simpl.
    destruct (tracked x); simpl; lia.
  - destruct (a !! S i) as [x|] eqn:Hx; [|done].
    destruct (a !! j) as [y|]; [|lia].
    destruct (bool_decide (x = y)) eqn:Hxy; simpl; [|lia].
    rewrite bool_decide_eq_true_2 by done. simpl.
    destruct (tracked x); simpl; [|lia].
    destruct j as [|j]; [lia|]. specialize (IH j). lia.
Qed.

Lemma run_earlier i j : j ≤ i → run i j ≤ run j j.
Proof.
  revert j. induction i as [|i IH]; intros j Hji.
  { by replace j with 0 by lia. }
  rewrite (run_eq (S i) j), (run_eq j j).
  destruct (a !! S i) as [x|] eqn:Hx; [|lia].
  destruct (a !! j) as [y|] eqn:Hy; [|lia].
  destruct (bool_decide (x = y)) eqn:Hxy; simpl; [|lia].
  apply bool_decide_eq_true_1 in Hxy. subst y.
  rewrite bool_decide_eq_true_2 by done. simpl.
  destruct (tracked x); simpl; [|lia].
  destruct j as [|j]; simpl; [lia|].
  specialize (IH j). lia.
Qed.

(** [j2len] when row [i] starts: the runs that end in row [i - 1]. *)
Definition row_ok (i : nat) (j2len : gmap nat nat) : Prop :=
  ∀ j, default 0 (j2len !! j) = match i with 0 => 0 | S i' => run i' j end.

Lemma scan_row_step i x j2len j js newj2len best :
  a !! i = Some x → tracked x = true → row_ok i j2len →
  a !! j = Some x →
  scan_row 0 (length a) i j2len (j :: js) newj2len best
  = scan_row 0 (length a) i j2len js (<[j := run i j]> newj2len)
      (if size_of best <? run i j
       then (i + 1 - run i j, j + 1 - run i j, run i j) else best).
Proof.
  intros Hi Hx Hrow Hj. cbn [scan_row].
  assert (j < length a) as Hlt by (by eapply lookup_lt_Some).
  replace (j <? 0) with false by done.
  replace (length a <=? j) with false by (symmetry; apply Nat.leb_gt; lia).
  assert (match j with 0 => 0 | S j' => default 0 (j2len !! j') end + 1
          = run i j) as ->; [|done].
  rewrite run_eq, Hi, Hj, bool_decide_eq_true_2, Hx by done. simpl.
  destruct j as [|j']; [destruct i; simpl; lia|].
  rewrite Hrow. destruct i; simpl; lia.
Qed.

Lemma scan_row_self i x j2len js newj2len best :
  a !! i = Some x → tracked x = true → row_ok i j2len →
  Forall (λ j, a !! j = Some x ∧ run i j ≤ size_of best) js →
  ∃ new', scan_row 0 (length a) i j2len js newj2len best = (new', best)
    ∧ ∀ j, new' !! j
           = if decide (j ∈ js) then Some (run i j) else newj2len !! j.
Proof.
  intros Hi Hx Hrow Hjs. revert newj2len.
  induction Hjs as [|j js [Hj Hle] Hjs IH]; intros newj2len.
  { exists newj2len. split; [done|]. intros j.
    by rewrite decide_False by apply not_elem_of_nil. }
  rewrite (scan_row_step i x) by done.
  replace (size_of best <? run i j) with false
    by (symmetry; apply Nat.ltb_ge; lia).
  destruct (IH (<[j := run i j]> newj2len)) as (new' & -> & Hnew).
  exists new'. split; [done|]. intros j0. rewrite Hnew.
  destruct (decide (j0 = j)) as [->|Hne].
  - rewrite lookup_insert_eq.
    rewrite (decide_True (P := j ∈ j :: js)) by set_solver.
    by case_decide.
  - rewrite lookup_insert_ne by done.
    destruct (decide (j0 ∈ js)) as [Hin|Hin].
    + rewrite decide_True; [done|]. by apply elem_of_cons; right.
    + rewrite decide_False; [done|].
      rewrite elem_of_cons. intros [?|?]; done.
Qed.

(** The state of the outer loop when row [i] starts. *)
Definition rows_ok (i : nat) (st : gmap nat nat * Match) : Prop :=
  row_ok i st.1
  ∧ ∃ d s, st.2 = (d, d, s) ∧ d + s ≤ i ∧ ∀ i', i' < i → run i' i' ≤ s.

Lemma rows_ok_step i st :
  i < length a → rows_ok i st →
  rows_ok (S i)
    (scan_row 0 (length a) i st.1 (b2j_at a a i) ∅ st.2).
Proof.
  intros Hi [Hrow (d & s & Hbest & Hds & Hmax)].
  destruct st as [j2len best]. simpl in *. subst best.
  destruct (lookup_lt_is_Some_2 a i Hi) as [x Hx].
  unfold b2j_at. rewrite Hx.
  destruct (b2j a !! x) as [js|] eqn:Hjs; simpl.
  2:{ assert (tracked x = false) as Hnot.
      { unfold tracked. apply bool_decide_eq_false_2.
        rewrite Hjs. by intros [? ?]. }
      assert (∀ j, run i j = 0) as Hzero.
      { intros j. rewrite run_eq, Hx. destruct (a !! j); [|done].
        by rewrite Hnot, andb_false_r. }
      split; simpl.
      - intros j. by rewrite lookup_empty, Hzero.
      - exists d, s. split_and!; [done|lia|].
        intros i' Hi'. destruct (decide (i' = i)) as [->|].
        + rewrite Hzero. lia.
        + apply Hmax. lia. }
  assert (tracked x = true) as Htr.
  { unfold tracked. apply bool_decide_eq_true_2. by rewrite Hjs. }
  apply b2j_lookup_Some in Hjs as [_ ->].
  rewrite <- (take_drop_middle a i x Hx) at 2.
  rewrite places_from_app. cbn [places_from].
  rewrite decide_True by done.
  rewrite length_take_le by lia. simpl.
  set (before := places_from x 0 (take i a)).
  set (after := places_from x (S i) (drop (S i) a)).
  assert (Forall (λ j, a !! j = Some x ∧ j < i) before) as Hbefore.
  { apply Forall_forall. intros j [_ Hj]%elem_of_places_from.
    rewrite Nat.sub_0_r in Hj.
    pose proof (lookup_lt_Some _ _ _ Hj) as Hlt.
    rewrite length_take in Hlt.
    rewrite lookup_take_lt in Hj by lia. split; [done|lia]. }
  assert (Forall (λ j, a !! j = Some x ∧ i < j) after) as Hafter.
  { apply Forall_forall. intros j [Hle Hj]%elem_of_places_from.
    rewrite lookup_drop in Hj.
    replace (S i + (j - S i)) with j in Hj by lia. split; [done|lia]. }
  (* the places before [i] *)
  destruct (scan_row_self i x j2len before ∅ (d, d, s))
    as (new1 & Hscan1 & Hnew1); [done..| |].
  { eapply Forall_impl; [exact Hbefore|]. intros j [Hj Hlt].
    split; [done|]. simpl.
    pose proof (run_earlier i j). pose proof (Hmax j). lia. }
  (* the places after it *)
  set (best2 := if s <? run i i
                then (i + 1 - run i i, i + 1 - run i i, run i i)
                else (d, d, s)).
  destruct (scan_row_self i x j2len after (<[i := run i i]> new1) best2)
    as (new2 & Hscan2 & Hnew2); [done..| |].
  { eapply Forall_impl; [exact Hafter|]. intros j [Hj Hlt].
    split; [done|]. pose proof (run_diag_max i j).
    unfold best2. destruct (s <? run i i) eqn:Hs; simpl; [lia|].
    apply Nat.ltb_ge in Hs. lia. }
  assert (scan_row 0 (length a) i j2len (before ++ i :: after) ∅ (d, d, s)
          = (new2, best2)) as ->.
  { clear Hnew1 Hnew2. revert Hscan1. generalize (∅ : gmap nat nat).
    induction Hbefore as [|j js [Hj Hlt] Hjs IH]; intros new0 Hscan1.
    - simpl in Hscan1. injection Hscan1 as ->.
      simpl app. rewrite (scan_row_step i x) by done. exact Hscan2.
    - simpl app. rewrite (scan_row_step i x) by done.
      rewrite (scan_row_step i x) in Hscan1 by done.
      assert ((s <? run i j) = false) as Hno.
      { apply Nat.ltb_ge. pose proof (run_earlier i j).
        pose proof (Hmax j). lia. }
      simpl in Hscan1 |- *. rewrite Hno in Hscan1 |- *.
      by apply IH. }
  split; simpl.
  - intros j. rewrite Hnew2.
    case_decide as Hin; [done|].
    destruct (decide (j = i)) as [->|Hne]; [by rewrite lookup_insert_eq|].
    rewrite lookup_insert_ne by done. rewrite Hnew1.
    case_decide as Hin1; [done|]. rewrite lookup_empty. simpl.
    rewrite run_eq, Hx. destruct (a !! j) as [y|] eqn:Hy; [|done].
    destruct (decide (x = y)) as [<-|Hxy].
    2:{ by rewrite bool_decide_eq_false_2. }
    exfalso. destruct (decide (j < i)).
    + apply Hin1. apply elem_of_places_from. split; [lia|].
      rewrite Nat.sub_0_r, lookup_take_lt by lia. done.
    + apply Hin. apply elem_of_places_from. split; [lia|].
      rewrite lookup_drop. by replace (S i + (j - S i)) with j by lia.
  - pose proof (run_le i i) as Hrun.
    unfold best2. destruct (s <? run i i) eqn:Hs.
    + apply Nat.ltb_lt in Hs.
      exists (i + 1 - run i i), (run i i). split_and!; [done|lia|].
      intros i' Hi'. destruct (decide (i' = i)) as [->|]; [lia|].
      pose proof (Hmax i'). lia.
    + apply Nat.ltb_ge in Hs.
      exists d, s. split_and!; [done|lia|].
      intros i' Hi'. destruct (decide (i' = i)) as [->|]; [lia|].
      apply Hmax. lia.
Qed.

Lemma rows_ok_fold len :
  ∀ start st,
    start + len ≤ length a → rows_ok start st →
    rows_ok (start + len)
      (fold_left
         (λ '(j2len, best) i,
            scan_row 0 (length a) i j2len (b2j_at a a i) ∅ best)
         (seq start len) st).
Proof.
  induction len as [|len IH]; intros start st Hlen Hst; simpl.
  { by rewrite Nat.add_0_r. }
  replace (start + S len) with (S start + len) by lia.
  apply IH; [lia|]. destruct st as [j2len best].
  apply (rows_ok_step start (j2len, best)); [lia|done].
Qed.

Lemma scan_rows_self :
  ∃ d s, scan_rows a a 0 (length a) 0 (length a) = (d, d, s)
         ∧ d + s ≤ length a.
Proof.
  unfold scan_rows. rewrite Nat.sub_0_r.
  destruct (rows_ok_fold (length a) 0 (∅, (0, 0, 0)))
    as [_ (d & s & Hbest & Hds & _)]; [lia| |].
  { split; simpl; [by intros j; rewrite lookup_empty|].
    exists 0, 0. split_and!; [done|lia|lia]. }
  exists d, s. split; [exact Hbest|]. simpl in Hds. lia.
Qed.

Lemma same_at_self i : i < length a → same_at a a false i i = true.
Proof.
  intros Hi. unfold same_at.
  destruct (lookup_lt_is_Some_2 a i Hi) as [x ->]. simpl.
  apply N.eqb_refl.
Qed.

Lemma same_at_junk i j : same_at a a true i j = false.
Proof. unfold same_at. by destruct (a !! i), (a !! j). Qed.

Lemma extend_left_self d s :
  d ≤ length a → extend_left a a false 0 0 d d s = (0, 0, d + s).
Proof.
  revert s. induction d as [|d IH]; intros s Hd; simpl; [done|].
  rewrite same_at_self by lia. simpl.
  rewrite IH by lia. do 2 f_equal. lia.
Qed.

Lemma extend_left_junk besti bestj bestsize alo blo :
  extend_left a a true alo blo besti bestj bestsize
  = (besti, bestj, bestsize).
Proof.
  destruct besti, bestj; simpl; try done.
  by rewrite same_at_junk, andb_false_r.
Qed.

Lemma extend_right_self room :
  ∀ s, s + room = length a →
       extend_right a a false (length a) (length a) 0 0 room s
       = length a.
Proof.
  induction room as [|room IH]; intros s Hs; simpl; [lia|].
  replace (s <? length a) with true by (symmetry; apply Nat.ltb_lt; lia).
  rewrite same_at_self by lia. simpl. apply IH. lia.
Qed.

Lemma extend_right_junk ahi bhi besti bestj room s :
  extend_right a a true ahi bhi besti bestj room s = s.
Proof.
  destruct room; simpl; [done|]. by rewrite same_at_junk, andb_false_r.
Qed.

(** The longest match of a text with itself is the whole text. *)
Lemma find_longest_match_self :
  find_longest_match a a 0 (length a) 0 (length a) = (0, 0, length a).
Proof.
  unfold find_longest_match.
  destruct scan_rows_self as (d & s & -> & Hds).
  rewrite extend_left_self by lia.
  rewrite extend_right_self by lia.
  rewrite extend_left_junk. by rewrite extend_right_junk.
Qed.

Lemma get_matching_blocks_self :
  get_matching_blocks a a
  = Some (match length a with
          | 0 => [(0, 0, 0)]
          | S _ => [(0, 0, length a); (length a, length a, 0)]
          end).
Proof.
  unfold get_matching_blocks.
  replace (2 * length a + 1) with (S (2 * length a)) by lia.
  cbn [matching_loop]. rewrite find_longest_match_self.
  destruct (length a) as [|n]; [done|].
  cbn [Nat.eqb].
  replace (0 <? 0) with false by done.
  replace (0 + S n <? S n) with false by (symmetry; apply Nat.ltb_ge; lia).
  cbn [andb]. by destruct (2 * S n).
Qed.

(** A text is wholly similar to itself. *)
Lemma ratio_self : ∃ q, ratio a a = Some q ∧ (q == 1)%Q.
Proof.
  unfold ratio. rewrite get_matching_blocks_self. simpl.
  destruct (length a) as [|n] eqn:Hn; simpl;
    (eexists; split; [done|]); unfold calculate_ratio; [done|].
  replace (S n + S n =? 0) with false by done.
  rewrite Nat.add_0_r.
  unfold Qeq, Qdiv, Qmult, Qinv, inject_Z. simpl Qnum. simpl Qden.
  destruct (Z.of_nat (S n + S n)) eqn:Hz; simpl; lia.
Qed.

End SelfMatch.

(** *** An empty text on one side *)

Lemma scan_rows_nil_r a alo ahi :
  scan_rows a [] alo ahi 0 0 = (alo, 0, 0).
Proof.
  unfold scan_rows.
  assert (∀ l (m : gmap nat nat),
            (fold_left
               (λ '(j2len, best) i,
                  scan_row 0 0 i j2len (b2j_at a [] i) ∅ best)
               l (m, (alo, 0, 0))).2 = (alo, 0, 0)) as Hfold; [|apply Hfold].
  induction l as [|i l IH]; intros m; simpl; [done|].
  replace (b2j_at a [] i) with (@nil nat); [apply IH|].
  unfold b2j_at. by destruct (a !! i).
Qed.

Lemma extend_right_nil_r a junk ahi besti room :
  extend_right a [] junk ahi 0 besti 0 room 0 = 0.
Proof. destruct room; simpl; [done|]. by rewrite andb_false_r. Qed.

Lemma matching_loop_nil a b fuel blocks :
  matching_loop a b fuel [] blocks = Some blocks.
Proof. by destruct fuel. Qed.

Lemma ratio_nil_r a : a ≠ [] → ∃ q, ratio a [] = Some q ∧ (q == 0)%Q.
Proof.
  intros Ha. unfold ratio, get_matching_blocks.
  replace (2 * length a + 1) with (S (2 * length a)) by lia.
  cbn [matching_loop]. unfold find_longest_match.
  rewrite scan_rows_nil_r. cbn [extend_left].
  rewrite extend_right_nil_r. cbn [extend_left].
  rewrite extend_right_nil_r. cbn [Nat.eqb]. rewrite matching_loop_nil.
  simpl. eexists. split; [done|]. unfold calculate_ratio.
  destruct a as [|c a]; [done|]. simpl. rewrite Nat.add_0_r. simpl.
  done.
Qed.

Lemma ratio_nil_l b : b ≠ [] → ∃ q, ratio [] b = Some q ∧ (q == 0)%Q.
Proof.
  intros Hb. unfold ratio, get_matching_blocks. simpl.
  eexists. split; [done|]. unfold calculate_ratio.
  destruct b as [|c b]; [done|]. simpl. done.
Qed.

(** *** The matcher always finishes *)

Section Bounds.
Variables a b : str.

(** A match that lies in the ranges [alo..ahi) of [a] and [blo..bhi) of
    [b]. *)
Definition match_in (alo ahi blo bhi : nat) (m : Match) : Prop :=
  let '(i, j, k) := m in alo ≤ i ∧ i + k ≤ ahi ∧ blo ≤ j ∧ j + k ≤ bhi.

(** The lengths in [j2len] when row [i] starts: a run that ends at [j]
    cannot reach back before [alo] or [blo]. *)
Definition j2len_in (alo blo i : nat) (j2len : gmap nat nat) : Prop :=
  ∀ j v, j2len !! j = Some v → v + alo ≤ i ∧ v + blo ≤ S j.

Lemma scan_row_in alo blo bhi i j2len js :
  alo ≤ i → j2len_in alo blo i j2len →
  ∀ newj2len best,
    j2len_in alo blo (S i) newj2len → match_in alo (S i) blo bhi best →
    let out := scan_row blo bhi i j2len js newj2len best in
    j2len_in alo blo (S i) out.1 ∧ match_in alo (S i) blo bhi out.2.
Proof.
  intros Hi Hold. induction js as [|j js IH]; intros newj2len best Hnew Hbest.
  { done. }
  cbn [scan_row]. destruct (j <? blo) eqn:Hjlo; [by apply IH|].
  destruct (bhi <=? j) eqn:Hjhi; [done|].
  apply Nat.ltb_ge in Hjlo. apply Nat.leb_gt in Hjhi.
  set (k := match j with 0 => 0 | S j' => default 0 (j2len !! j') end + 1).
  assert (k + alo ≤ S i ∧ k + blo ≤ S j ∧ 1 ≤ k) as (Hk1 & Hk2 & Hk3).
  { unfold k. destruct j as [|j']; [lia|].
    destruct (j2len !! j') as [v|] eqn:Hv; simpl; [|lia].
    destruct (Hold _ _ Hv). lia. }
  apply IH.
  - intros j0 v Hv. destruct (decide (j0 = j)) as [->|Hne].
    + rewrite lookup_insert_eq in Hv. simplify_eq. lia.
    + rewrite lookup_insert_ne in Hv by done. by apply Hnew.
  - destruct (size_of best <? k); [|done]. simpl. lia.
Qed.

Lemma scan_rows_in alo ahi blo bhi :
  alo ≤ ahi → blo ≤ bhi →
  match_in alo ahi blo bhi (scan_rows a b alo ahi blo bhi).
Proof.
  intros Ha Hb. unfold scan_rows.
  assert (∀ len start (st : gmap nat nat * Match),
            alo ≤ start →
            j2len_in alo blo start st.1 → match_in alo start blo bhi st.2 →
            match_in alo (start + len) blo bhi
              (fold_left
                 (λ '(j2len, best) i,
                    scan_row blo bhi i j2len (b2j_at a b i) ∅ best)
                 (seq start len) st).2) as Hfold.
  { induction len as [|len IH]; intros start [j2len best] Hs Hj Hm.
    { simpl. by rewrite Nat.add_0_r. }
    simpl in Hj, Hm. cbn [seq fold_left].
    replace (start + S len) with (S start + len) by lia.
    destruct (scan_row_in alo blo bhi start j2len (b2j_at a b start) Hs Hj
                ∅ best) as [Hj' Hm'].
    { intros j v Hv. by rewrite lookup_empty in Hv. }
    { destruct best as [[bi bj] bs]. simpl in *. lia. }
    destruct (scan_row _ _ _ _ _ _ _) as [j2len' best'].
    apply IH; [lia|done..]. }
  replace ahi with (alo + (ahi - alo)) at 1 by lia.
  apply Hfold; [done| |simpl; lia].
  intros j v Hv. simpl in Hv. by rewrite lookup_empty in Hv.
Qed.

Lemma extend_left_in junk alo ahi blo bhi besti :
  ∀ bestj bestsize,
    match_in alo ahi blo bhi (besti, bestj, bestsize) →
    match_in alo ahi blo bhi
      (extend_left a b junk alo blo besti bestj bestsize).
Proof.
  induction besti as [|i' IH]; intros bestj bestsize Hm; [done|].
  destruct bestj as [|j']; [done|]. cbn [extend_left].
  destruct (_ && _) eqn:Hc; [|done].
  apply andb_prop in Hc as [Hc _]. apply andb_prop in Hc as [Hi Hj].
  apply Nat.ltb_lt in Hi, Hj. apply IH. simpl in *. lia.
Qed.

Lemma extend_right_in junk alo ahi blo bhi besti bestj room :
  ∀ bestsize,
    match_in alo ahi blo bhi (besti, bestj, bestsize) →
    match_in alo ahi blo bhi
      (besti, bestj,
       extend_right a b junk ahi bhi besti bestj room bestsize).
Proof.
  induction room as [|room IH]; intros bestsize Hm; [done|].
  cbn [extend_right]. destruct (_ && _) eqn:Hc; [|done].
  apply andb_prop in Hc as [Hc _]. apply andb_prop in Hc as [Hi Hj].
  apply Nat.ltb_lt in Hi, Hj. apply IH. simpl in *. lia.
Qed.

Lemma find_longest_match_in alo ahi blo bhi :
  alo ≤ ahi → blo ≤ bhi →
  match_in alo ahi blo bhi (find_longest_match a b alo ahi blo bhi).
Proof.
  intros Ha Hb. unfold find_longest_match.
  pose proof (scan_rows_in alo ahi blo bhi Ha Hb) as H0.
  destruct (scan_rows a b alo ahi blo bhi) as [[i0 j0] k0].
  pose proof (extend_left_in false alo ahi blo bhi i0 j0 k0 H0) as H1.
  destruct (extend_left a b false alo blo i0 j0 k0) as [[i1 j1] k1].
  pose proof (extend_right_in false alo ahi blo bhi i1 j1
                (ahi - (i1 + k1)) k1 H1) as H2.
  set (k2 := extend_right a b false ahi bhi i1 j1 _ k1) in *.
  pose proof (extend_left_in true alo ahi blo bhi i1 j1 k2 H2) as H3.
  destruct (extend_left a b true alo blo i1 j1 k2) as [[i3 j3] k3].
  apply (extend_right_in true alo ahi blo bhi i3 j3). exact H3.
Qed.

(** The work left in the queue: each range counts twice its length in [a],
    plus one. *)
Definition queue_weight (queue : list (nat * nat * nat * nat)) : nat :=
  sum_list ((λ '(alo, ahi, _, _), 2 * (ahi - alo) + 1) <$> queue).

Definition range_ok (r : nat * nat * nat * nat) : Prop :=
  let '(alo, ahi, blo, bhi) := r in alo ≤ ahi ∧ blo ≤ bhi.

Lemma queue_weight_cons alo ahi blo bhi queue :
  queue_weight ((alo, ahi, blo, bhi) :: queue)
  = 2 * (ahi - alo) + 1 + queue_weight queue.
Proof. done. Qed.

Lemma matching_loop_finishes fuel :
  ∀ queue blocks,
    Forall range_ok queue → queue_weight queue ≤ fuel →
    is_Some (matching_loop a b fuel queue blocks).
Proof.
  induction fuel as [|fuel IH]; intros queue blocks Hq Hw.
  { destruct queue as [|[[[alo ahi] blo] bhi] queue]; [done|].
    rewrite queue_weight_cons in Hw. lia. }
  destruct queue as [|[[[alo ahi] blo] bhi] queue]; [done|].
  apply Forall_cons in Hq as [[Ha Hb] Hq].
  rewrite queue_weight_cons in Hw.
  cbn [matching_loop].
  pose proof (find_longest_match_in alo ahi blo bhi Ha Hb) as Hm.
  destruct (find_longest_match a b alo ahi blo bhi) as [[i j] k].
  simpl in Hm.
  destruct (k =? 0) eqn:Hk.
  { apply IH; [done|lia]. }
  apply Nat.eqb_neq in Hk.
  apply IH.
  - destruct (_ && _); destruct (_ && _);
      repeat (apply Forall_cons; split); try done; simpl; lia.
  - destruct ((alo <? i) && (blo <? j)); destruct (_ && _);
      rewrite ?queue_weight_cons; lia.
Qed.

(** [ratio] has a value: the bound on the loop over the queue is never
    reached. *)
Lemma ratio_total : is_Some (ratio a b).
Proof.
  unfold ratio, get_matching_blocks.
  destruct (matching_loop_finishes (2 * length a + 1)
              [(0, length a, 0, length b)] [])
    as [blocks ->].
  { repeat constructor; lia. }
  { unfold queue_weight. simpl. lia. }
  simpl. by destruct (join_adjacent _ _ _) as [[[i1 j1] k1] non_adjacent].
Qed.

End Bounds.

End DifflibFacts.

Module AlignSegmentsFacts.
Import PyStr PyStrFacts DifflibFacts AlignSegments.

Section Normalizer.
Variable isword : N → bool.

(** What every character of a normalised text satisfies: it is none of
    the letters the normaliser rewrites, and the filter keeps it. *)
Definition normal_char (c : N) : Prop :=
  (c ∉ [0x623; 0x625; 0x622]%N) ∧ c ≠ 0x649%N ∧ c ≠ 0x629%N
  ∧ (isword c || isspace c) = true.

Lemma normalize_arabic_chars text :
  Forall normal_char (normalize_arabic isword text).
Proof.
  unfold normalize_arabic.
  apply strip_Forall, re_sub_ws_runs_Forall.
  { repeat split; try done.
    - rewrite !elem_of_cons, elem_of_nil. unfold SPACE. lia.
    - by rewrite isspace_SPACE, orb_true_r. }
  apply Forall_forall. intros c [Hkeep Hc]%list_elem_of_filter.
  unfold re_sub_class in Hc.
  apply list_elem_of_fmap in Hc as (c3 & -> & Hc).
  apply list_elem_of_fmap in Hc as (c2 & -> & Hc).
  apply list_elem_of_fmap in Hc as (c1 & -> & _).
  split; [|split; [|split]]; [| | |by destruct (isword _ || isspace _)].
  all: repeat case_bool_decide;
    repeat match goal with
      | H : _ ∈ _ |- _ => rewrite ?elem_of_cons, elem_of_nil in H
      | H : ¬ (_ ∈ _) |- _ => rewrite ?elem_of_cons, elem_of_nil in H
      end;
    rewrite ?elem_of_cons, ?elem_of_nil; lia.
Qed.

Lemma normalize_arabic_fixed text :
  Forall normal_char text → ws_norm false text = true →
  head_black text = true → rstrip text = text →
  normalize_arabic isword text = text.
Proof.
  intros Hch Hws Hhd Hr. unfold normalize_arabic.
  rewrite (re_sub_class_id _ _ text).
  2:{ eapply Forall_impl; [exact Hch|]. intros c (H1 & _).
      rewrite !elem_of_cons, elem_of_nil in *. lia. }
  rewrite (re_sub_class_id _ _ text).
  2:{ eapply Forall_impl; [exact Hch|]. intros c (_ & H1 & _).
      rewrite !elem_of_cons, elem_of_nil in *. lia. }
  rewrite (re_sub_class_id _ _ text).
  2:{ eapply Forall_impl; [exact Hch|]. intros c (_ & _ & H1 & _).
      rewrite !elem_of_cons, elem_of_nil in *. lia. }
  rewrite (filter_id (λ c, isword c || isspace c)).
  2:{ eapply Forall_impl; [exact Hch|]. by intros c (_ & _ & _ & H1). }
  rewrite re_sub_ws_runs_id by done.
  unfold strip. by rewrite lstrip_id.
Qed.

(** C7. Normalising an already normalised text changes nothing:
    [normalize_arabic (normalize_arabic x) = normalize_arabic x] for
    every text [x], whatever the table behind [\w] is. *)
Theorem normalize_arabic_idempotent (x : str) :
  normalize_arabic isword (normalize_arabic isword x)
  = normalize_arabic isword x.
Proof.
  apply normalize_arabic_fixed.
  - apply normalize_arabic_chars.
  - unfold normalize_arabic. apply strip_norm, re_sub_ws_runs_norm.
  - unfold normalize_arabic, strip. apply rstrip_head, lstrip_head.
  - unfold normalize_arabic, strip. apply rstrip_idemp.
Qed.

End Normalizer.

(** ** Overlap removal *)

(** How often [w] occurs in [l]. *)
Definition occurrences (w : str) (l : list str) : nat :=
  length (filter (λ x, x = w) l).

Lemma occurrences_cons w x l :
  occurrences w (x :: l)
  = (if decide (x = w) then 1 else 0) + occurrences w l.
Proof.
  unfold occurrences. destruct (decide (x = w)) as [->|Hne].
  - by rewrite filter_cons_True.
  - by rewrite filter_cons_False.
Qed.

Lemma occurrences_snoc w l x :
  occurrences w (l ++ [x])
  = occurrences w l + (if decide (x = w) then 1 else 0).
Proof.
  unfold occurrences. rewrite filter_app, length_app. f_equal.
  destruct (decide (x = w)) as [->|Hne].
  - by rewrite filter_cons_True.
  - by rewrite filter_cons_False.
Qed.

Lemma occurrences_app w l1 l2 :
  occurrences w (l1 ++ l2) = occurrences w l1 + occurrences w l2.
Proof. unfold occurrences. by rewrite filter_app, length_app. Qed.

Lemma Counter_lookup words w :
  default 0 (Counter words !! w) = occurrences w words.
Proof.
  unfold Counter. induction words as [|x words IH] using rev_ind; [done|].
  rewrite fold_left_app, occurrences_snoc. simpl.
  destruct (decide (x = w)) as [->|Hne].
  - rewrite lookup_insert_eq. simpl. lia.
  - rewrite lookup_insert_ne by done. lia.
Qed.

Section Overlap.
Variable isword : N → bool.

(** The tokens of [words2] that stay, read from left to right: a token
    stays when its normal form does not occur in [words1] more often than
    among the normal forms [seen] of the tokens before it. *)
Fixpoint kept_from (words1 seen words2 : list str) : list str :=
  match words2 with
  | [] => []
  | word :: rest =>
      let key := normalize_arabic isword word in
      (if decide (occurrences key words1 ≤ occurrences key seen)
       then [word] else [])
      ++ kept_from words1 (seen ++ [key]) rest
  end.

Lemma drop_counted_from words1 words2 :
  ∀ (count1 : gmap str nat) cleaned seen,
    (∀ key, default 0 (count1 !! key)
            = occurrences key words1 - occurrences key seen) →
    (fold_left
       (λ '(count1, cleaned_words2) word,
          let key := normalize_arabic isword word in
          if 0 <? default 0 (count1 !! key)
          then (<[key := default 0 (count1 !! key) - 1]> count1,
                cleaned_words2)
          else (count1, cleaned_words2 ++ [word]))
       words2 (count1, cleaned)).2
    = cleaned ++ kept_from words1 seen words2.
Proof.
  induction words2 as [|word rest IH]; intros count1 cleaned seen Hcnt.
  { simpl. by rewrite app_nil_r. }
  cbn [fold_left kept_from].
  set (key := normalize_arabic isword word).
  pose proof (Hcnt key) as Hkey.
  destruct (0 <? default 0 (count1 !! key)) eqn:Hpos.
  - apply Nat.ltb_lt in Hpos.
    rewrite (IH _ cleaned (seen ++ [key])).
    + rewrite decide_False by lia. done.
    + intros k. rewrite occurrences_snoc.
      destruct (decide (key = k)) as [<-|Hne].
      * rewrite lookup_insert_eq. simpl. lia.
      * rewrite lookup_insert_ne by done. rewrite Hcnt. lia.
  - apply Nat.ltb_ge in Hpos.
    rewrite (IH _ (cleaned ++ [word]) (seen ++ [key])).
    + rewrite decide_True by lia. by rewrite <- app_assoc.
    + intros k. rewrite occurrences_snoc, Hcnt.
      destruct (decide (key = k)) as [<-|Hne]; lia.
Qed.

Lemma drop_counted_kept words1 words2 :
  (drop_counted isword (Counter words1) words2).2
  = kept_from words1 [] words2.
Proof.
  unfold drop_counted.
  rewrite (drop_counted_from words1 words2 _ [] []); [done|].
  intros key. rewrite Counter_lookup. change (occurrences key []) with 0. lia.
Qed.

Lemma kept_from_sublist words1 seen words2 :
  kept_from words1 seen words2 `sublist_of` words2.
Proof.
  revert seen. induction words2 as [|word rest IH]; intros seen; simpl.
  { done. }
  case_decide; simpl.
  - by apply sublist_skip.
  - by apply sublist_cons.
Qed.

Lemma kept_from_count words1 words2 key :
  ∀ seen,
    occurrences key (normalize_arabic isword <$> words2)
    = occurrences key
        (normalize_arabic isword <$> kept_from words1 seen words2)
      + (occurrences key words1 - occurrences key seen)
          `min` occurrences key (normalize_arabic isword <$> words2).
Proof.
  induction words2 as [|word rest IH]; intros seen.
  { simpl. unfold occurrences. simpl. lia. }
  cbn [kept_from]. rewrite fmap_app, fmap_cons, occurrences_app.
  specialize (IH (seen ++ [normalize_arabic isword word])).
  rewrite occurrences_snoc in IH.
  rewrite occurrences_cons.
  destruct (decide (normalize_arabic isword word = key)) as [Heq|Hne];
    case_decide as Hle; simpl;
    rewrite ?occurrences_cons, ?Heq, ?decide_True, ?decide_False by done;
    change (occurrences key []) with 0; try rewrite Heq in Hle;
    try rewrite Heq in IH; lia.
Qed.

(** C5, as the code has it. [remove_overlap text1 text2] is [text1]
    stripped, followed by a space and the kept tokens of [text2] joined by
    spaces when there are any; the flag is always [True]. Reading the tokens
    of [text2] from left to right, a token is dropped exactly when its
    normal form occurs in the normalised [text1] more often than among the
    tokens before it, wherever in [text1] and [text2] that is. So the kept
    tokens keep their order, and each normal form is dropped as many times
    as it occurs in [text1], or in [text2] if that is fewer. *)
Theorem remove_overlap_drops_counted (text1 text2 : str) :
  let words1 := split (normalize_arabic isword text1) in
  let words2 := split text2 in
  let kept := kept_from words1 [] words2 in
  remove_overlap isword text1 text2
  = (strip text1
     ++ match kept with
        | [] => []
        | _ => [SPACE] ++ strip (join [SPACE] kept)
        end, true)
  ∧ kept `sublist_of` words2
  ∧ ∀ key,
      occurrences key (normalize_arabic isword <$> words2)
      = occurrences key (normalize_arabic isword <$> kept)
        + occurrences key words1
            `min` occurrences key (normalize_arabic isword <$> words2).
Proof.
  intros words1 words2 kept. split_and!.
  - unfold remove_overlap. fold words1 words2.
    rewrite drop_counted_kept. fold kept.
    destruct kept; [by rewrite app_nil_r|done].
  - apply kept_from_sublist.
  - intros key.
    pose proof (kept_from_count words1 words2 key []) as Hcount.
    change (occurrences key []) with 0 in Hcount.
    by rewrite Nat.sub_0_r in Hcount.
Qed.

End Overlap.

(** The claim C5 as it is stated: what is dropped is a prefix of the tokens
    of [text2], one that repeats the end of [text1], and every later token
    stays. *)
Definition drops_a_prefix (isword : N → bool) (text1 text2 : str) : Prop :=
  ∃ dropped kept,
    split text2 = dropped ++ kept
    ∧ (normalize_arabic isword <$> dropped)
        `suffix_of` split (normalize_arabic isword text1)
    ∧ (remove_overlap isword text1 text2).1
      = strip text1
        ++ match kept with
           | [] => []
           | _ => [SPACE] ++ strip (join [SPACE] kept)
           end.

(** C5, counterexample. Merging ["c a"] into ["a b"] gives ["a b c"]: the
    token dropped is the last of [text2], not a prefix of it, and the one
    kept comes before it. *)
Lemma remove_overlap_not_a_prefix :
  remove_overlap isword_table (of_ascii "a b") (of_ascii "c a")
  = (of_ascii "a b c", true)
  ∧ ¬ drops_a_prefix isword_table (of_ascii "a b") (of_ascii "c a").
Proof.
  split; [by vm_compute|].
  intros (dropped & kept & Hsplit & _ & Hres).
  vm_compute in Hres. vm_compute in Hsplit.
  destruct dropped as [|d1 [|d2 [|d3 dropped]]]; simplify_eq/=.
Qed.

(** The third scenario of the specification: the word that ends the first
    text and starts the second is dropped once. *)
Example remove_overlap_shared_word :
  remove_overlap isword_table Examples.ends_with_alamin
    Examples.starts_with_alamin
  = (Examples.ends_with_alamin ++ [SPACE] ++ Examples.rahman_rahim, true).
Proof. by vm_compute. Qed.

(** ** The similarity score of the legacy aligner *)

(** C6, counterexample. The score is not symmetric: ["tide"] against
    ["diet"] scores 1/4, ["diet"] against ["tide"] scores 1/2. *)
Lemma similarity_not_symmetric :
  ∃ p q,
    similarity (of_ascii "tide") (of_ascii "diet") = Some p
    ∧ similarity (of_ascii "diet") (of_ascii "tide") = Some q
    ∧ (p == 1 # 4)%Q ∧ (q == 1 # 2)%Q ∧ ¬ (p == q)%Q.
Proof. eexists _, _. split_and!; by vm_compute. Qed.

(** C6, as the code has it. For every text [x], [similarity(x, x) = 1];
    and when [x] is not empty, [similarity(x, "") = 0] and
    [similarity("", x) = 0]. Symmetry is not part of it. *)
Theorem similarity_identity_and_empty (x : str) :
  (∃ q, similarity x x = Some q ∧ (q == 1)%Q)
  ∧ (x ≠ [] →
     (∃ q, similarity x [] = Some q ∧ (q == 0)%Q)
     ∧ (∃ q, similarity [] x = Some q ∧ (q == 0)%Q)).
Proof.
  split; [apply ratio_self|].
  intros Hx. split; [by apply ratio_nil_r|by apply ratio_nil_l].
Qed.

Lemma similarity_identity_and_empty_witness :
  of_ascii "tide" ≠ []
  ∧ (∃ q, similarity (of_ascii "tide") [] = Some q ∧ (q == 0)%Q).
Proof.
  split; [done|].
  apply (similarity_identity_and_empty (of_ascii "tide")). done.
Defined.

End AlignSegmentsFacts.

(** ** Comparisons of floats *)

Module PyFacts.
Import Py.

Lemma Qlt_bool_true x y : Qlt_bool x y = true ↔ (x < y)%Q.
Proof.
  unfold Qlt_bool. rewrite negb_true_iff, <- not_true_iff_false.
  rewrite Qle_bool_iff. split; [apply Qnot_le_lt|apply Qlt_not_le].
Qed.

Lemma Qlt_bool_false x y : Qlt_bool x y = false ↔ (y <= x)%Q.
Proof.
  unfold Qlt_bool. rewrite negb_false_iff. apply Qle_bool_iff.
Qed.

Lemma Qle_bool_false x y : Qle_bool x y = false ↔ (y < x)%Q.
Proof.
  rewrite <- not_true_iff_false, Qle_bool_iff.
  split; [apply Qnot_le_lt|apply Qlt_not_le].
Qed.

End PyFacts.

(** ** The hybrid strategy *)

Module HybridFacts.
Import PyStr Py PyFacts Hybrid.

Section Strategy.
Variable similarity : str → str → Q.
Variable callback : Type.
Variable align_segments_greedy :
  list Segment.t → list Ayah.t → option (list (Z * Z))
  → outcome (list AlignmentResult.t).
Variable align_segments_dp_with_constraints :
  list Segment.t → list Ayah.t → option (list (Z * Z)) → option callback
  → outcome (list AlignmentResult.t).

(** What [_try_split_and_restitch] returns, when it returns a result: the
    result is built from the argument [ayah], the times and the overlap
    flag of the DP result, and a score that is above the score of the DP
    result by more than 0.05. *)
Lemma try_split_and_restitch_result (segments : list Segment.t)
    (ayah : Ayah.t) (dp_result r : AlignmentResult.t)
    (silences_ms : option (list (Z * Z))) :
  _try_split_and_restitch similarity segments ayah dp_result silences_ms
  = Some r →
  AlignmentResult.ayah r = ayah
  ∧ AlignmentResult.start_time r = AlignmentResult.start_time dp_result
  ∧ AlignmentResult.end_time r = AlignmentResult.end_time dp_result
  ∧ AlignmentResult.overlap_detected r
    = AlignmentResult.overlap_detected dp_result
  ∧ (AlignmentResult.similarity_score dp_result + 0.05
     < AlignmentResult.similarity_score r)%Q.
Proof.
  unfold _try_split_and_restitch. intros Hr.
  destruct silences_ms as [[|sil silences_ms]|]; try done.
  destruct (length _ <=? 1); [done|].
  destruct (filter _ _) as [|t all_texts]; [done|].
  destruct (Qlt_bool _ _) eqn:Hlt; [|done].
  apply Qlt_bool_true in Hlt. by simplify_eq/=.
Qed.

(** C10. [_try_split_and_restitch] is called at one place, in the loop of
    [align_segments_hybrid], with a DP result and the āya of that result
    ([improve]). Whenever it returns a result there, the result has the
    āya, the start time, the end time and the overlap flag of the DP result
    it was given, and its score is above the score of the DP result by more
    than 0.05: of the six fields, only the text and the score can differ. *)
Theorem try_split_and_restitch_frame (segments : list Segment.t)
    (dp_result r : AlignmentResult.t)
    (silences_ms : option (list (Z * Z))) :
  _try_split_and_restitch similarity segments
    (AlignmentResult.ayah dp_result) dp_result silences_ms
  = Some r →
  AlignmentResult.ayah r = AlignmentResult.ayah dp_result
  ∧ AlignmentResult.start_time r = AlignmentResult.start_time dp_result
  ∧ AlignmentResult.end_time r = AlignmentResult.end_time dp_result
  ∧ AlignmentResult.overlap_detected r
    = AlignmentResult.overlap_detected dp_result
  ∧ (AlignmentResult.similarity_score dp_result + 0.05
     < AlignmentResult.similarity_score r)%Q
  ∧ r
    = AlignmentResult.mk (AlignmentResult.ayah dp_result)
        (AlignmentResult.start_time dp_result)
        (AlignmentResult.end_time dp_result)
        (AlignmentResult.transcribed_text r)
        (AlignmentResult.similarity_score r)
        (AlignmentResult.overlap_detected dp_result).
Proof.
  intros Hr.
  destruct (try_split_and_restitch_result _ _ _ _ _ Hr)
    as (Hayah & Hstart & Hend & Hflag & Hscore).
  split_and!; [done..|].
  destruct r. simpl in *. by subst.
Qed.

(** The result that [old_by_ayah] holds for a number: the last greedy
    result with that number. *)
Definition stored_under (n : Z) (old_results : list AlignmentResult.t)
    : option AlignmentResult.t :=
  last (filter (λ r, Ayah.ayah_number (AlignmentResult.ayah r) = n)
          old_results).

Lemma build_old_by_ayah_lookup old_results n :
  build_old_by_ayah old_results !! n = stored_under n old_results.
Proof.
  unfold build_old_by_ayah, stored_under.
  induction old_results as [|r old_results IH] using rev_ind; [done|].
  rewrite fold_left_app, filter_app. simpl.
  destruct (decide (Ayah.ayah_number (AlignmentResult.ayah r) = n))
    as [Heq|Hne].
  - rewrite Heq, lookup_insert_eq.
    rewrite filter_cons_True by done. rewrite filter_nil.
    by rewrite last_snoc.
  - rewrite lookup_insert_ne by done.
    rewrite filter_cons_False by done. rewrite filter_nil.
    by rewrite app_nil_r.
Qed.

(** The candidates for one DP result: the result itself, the split
    candidate when the āya is long and the split returns one, and the
    greedy result stored under the number of the āya. *)
Definition candidates (segments : list Segment.t)
    (silences_ms : option (list (Z * Z)))
    (old_results : list AlignmentResult.t)
    (long_ayah_words : Z) (long_ayah_duration : Q)
    (dp_r : AlignmentResult.t) : list AlignmentResult.t :=
  dp_r
  :: (if is_long_ayah long_ayah_words long_ayah_duration dp_r
      then option_list
             (_try_split_and_restitch similarity segments
                (AlignmentResult.ayah dp_r) dp_r silences_ms)
      else [])
  ++ option_list
       (stored_under (Ayah.ayah_number (AlignmentResult.ayah dp_r))
          old_results).

(** [r] is a candidate, and no candidate has a higher score. *)
Definition best_of (cands : list AlignmentResult.t)
    (r : AlignmentResult.t) : Prop :=
  r ∈ cands
  ∧ ∀ c, c ∈ cands →
         (AlignmentResult.similarity_score c
          <= AlignmentResult.similarity_score r)%Q.

Lemma improve_best segments silences_ms old_results words dur dp_r :
  best_of (candidates segments silences_ms old_results words dur dp_r)
    (improve similarity segments silences_ms
       (build_old_by_ayah old_results) words dur dp_r).1.
Proof.
  unfold improve, candidates. rewrite build_old_by_ayah_lookup.
  set (old := stored_under _ _).
  set (split :=
         if is_long_ayah words dur dp_r
         then _try_split_and_restitch similarity segments
                (AlignmentResult.ayah dp_r) dp_r silences_ms
         else None).
  assert ((if is_long_ayah words dur dp_r
           then option_list
                  (_try_split_and_restitch similarity segments
                     (AlignmentResult.ayah dp_r) dp_r silences_ms)
           else []) = option_list split) as ->.
  { unfold split. by destruct (is_long_ayah _ _ _). }
  assert ((if is_long_ayah words dur dp_r
           then match _try_split_and_restitch similarity segments
                        (AlignmentResult.ayah dp_r) dp_r silences_ms with
                | Some split_result =>
                    if Qlt_bool (AlignmentResult.similarity_score dp_r)
                         (AlignmentResult.similarity_score split_result)
                    then (split_result, src_split)
                    else (dp_r, src_dp)
                | None => (dp_r, src_dp)
                end
           else (dp_r, src_dp))
          = match split with
            | Some split_result =>
                if Qlt_bool (AlignmentResult.similarity_score dp_r)
                     (AlignmentResult.similarity_score split_result)
                then (split_result, src_split)
                else (dp_r, src_dp)
            | None => (dp_r, src_dp)
            end) as ->.
  { unfold split. by destruct (is_long_ayah _ _ _). }
  clearbody old split. unfold best_of.
  destruct split as [s|], old as [o|]; simpl;
    repeat match goal with
      | |- context [Qlt_bool ?x ?y] =>
          let H := fresh "H" in
          destruct (Qlt_bool x y) eqn:H;
          [apply Qlt_bool_true in H|apply Qlt_bool_false in H]; simpl
      end;
    (split; [set_solver|]);
    intros c Hc; rewrite ?elem_of_cons, ?elem_of_nil in Hc;
    destruct_or!; subst; try done;
    try apply Qle_refl; try (by apply Qlt_le_weak);
    try (eapply Qle_trans; [eassumption|]; by apply Qlt_le_weak);
    try (eapply Qle_trans; [|eassumption]; by apply Qlt_le_weak);
    try (eapply Qle_trans; eassumption);
    try (apply Qlt_le_weak; eapply Qlt_trans; eassumption).
Qed.

(** What the strategy owes for one DP result: the result itself when its
    score reaches the threshold, the best of the candidates otherwise. *)
Definition emitted_for (segments : list Segment.t)
    (silences_ms : option (list (Z * Z)))
    (old_results : list AlignmentResult.t) (quality_threshold : Q)
    (long_ayah_words : Z) (long_ayah_duration : Q)
    (dp_r r : AlignmentResult.t) : Prop :=
  if Qle_bool quality_threshold (AlignmentResult.similarity_score dp_r)
  then r = dp_r
  else best_of
         (candidates segments silences_ms old_results long_ayah_words
            long_ayah_duration dp_r) r.

(** The sum of the four category counts. *)
Definition category_sum (stats : HybridStats) : nat :=
  dp_kept stats + old_fallback stats + split_improved stats
  + still_low stats.

Lemma hybrid_loop segments silences_ms old_results threshold words dur
    dp_results :
  ∀ final stats,
    ∃ emitted stats',
      fold_left
        (hybrid_step similarity segments silences_ms
           (build_old_by_ayah old_results) threshold words dur)
        dp_results (final, stats)
      = (final ++ emitted, stats')
      ∧ Forall2
          (emitted_for segments silences_ms old_results threshold words dur)
          dp_results emitted
      ∧ category_sum stats' = category_sum stats + length dp_results
      ∧ total_ayahs stats' = total_ayahs stats.
Proof.
  induction dp_results as [|dp_r dp_results IH]; intros final stats.
  { exists [], stats. rewrite app_nil_r. simpl.
    split_and!; [done|constructor|lia|done]. }
  cbn [fold_left].
  assert (∃ r stats1,
            hybrid_step similarity segments silences_ms
              (build_old_by_ayah old_results) threshold words dur
              (final, stats) dp_r = (final ++ [r], stats1)
            ∧ emitted_for segments silences_ms old_results threshold words
                dur dp_r r
            ∧ category_sum stats1 = category_sum stats + 1
            ∧ total_ayahs stats1 = total_ayahs stats)
    as (r & stats1 & -> & Hr & Hsum & Htot).
  { unfold hybrid_step, emitted_for.
    destruct (Qle_bool threshold _) eqn:Hq.
    - eexists _, _. split_and!; [done|done|..]; unfold category_sum; simpl;
        [lia|done].
    - pose proof (improve_best segments silences_ms old_results words dur dp_r)
        as Hbest.
      destruct (improve _ _ _ _ _ _ _) as [best src]. simpl in Hbest.
      eexists _, _. split_and!; [done|done|..].
      + unfold category_sum. destruct src; simpl; try lia.
        destruct (Qlt_bool _ _); simpl; lia.
      + destruct src; simpl; try done. by destruct (Qlt_bool _ _). }
  destruct (IH (final ++ [r]) stats1)
    as (emitted & stats' & -> & Hem & Hsum' & Htot').
  exists (r :: emitted), stats'. rewrite <- app_assoc. simpl.
  split_and!; [done|by constructor|lia|congruence].
Qed.

(** C3. When the DP aligner returns results, the strategy emits one result
    for each of them, in order: a DP result whose score reaches
    [quality_threshold] is emitted unchanged; for one below it the result
    emitted is one of the candidates that exist (the DP result, the
    split-and-restitch result, the greedy result stored under the same āya
    number) and its score is the highest among them. *)
Theorem hybrid_emits_best (segments : list Segment.t)
    (ayahs : list Ayah.t) (silences_ms : option (list (Z * Z)))
    (quality_threshold : Q) (long_ayah_words : Z) (long_ayah_duration : Q)
    (on_progress : option callback)
    (dp_results old_results : list AlignmentResult.t) :
  segments ≠ [] → ayahs ≠ [] →
  align_segments_dp_with_constraints segments ayahs silences_ms on_progress
  = Returned dp_results →
  dp_results ≠ [] →
  align_segments_greedy segments ayahs silences_ms = Returned old_results →
  ∃ final stats,
    align_segments_hybrid similarity callback align_segments_greedy
      align_segments_dp_with_constraints segments ayahs silences_ms
      quality_threshold long_ayah_words long_ayah_duration on_progress
    = Returned (final, stats)
    ∧ Forall2
        (emitted_for segments silences_ms old_results quality_threshold
           long_ayah_words long_ayah_duration)
        dp_results final.
Proof.
  intros Hseg Hay Hdp Hne Hgreedy. unfold align_segments_hybrid.
  destruct segments as [|seg segments]; [done|].
  destruct ayahs as [|ay ayahs]; [done|].
  rewrite Hdp. simpl. destruct dp_results as [|dp_r dp_results]; [done|].
  rewrite Hgreedy. simpl.
  destruct (hybrid_loop (seg :: segments) silences_ms old_results
              quality_threshold long_ayah_words long_ayah_duration
              (dp_r :: dp_results) []
              (mkStats (S (length ayahs)) 0 0 0 0))
    as (emitted & stats' & Hloop & Hem & _).
  simpl in Hloop. rewrite Hloop. by exists emitted, stats'.
Qed.

(** C4, as the code has it. When the strategy returns, the four category
    counts add up to the number of results it returns, and [total_ayahs]
    is the number of āyāt it was given. The sum is [total_ayahs] exactly
    when there is one result for each āya. *)
Theorem hybrid_stats_sum (segments : list Segment.t) (ayahs : list Ayah.t)
    (silences_ms : option (list (Z * Z))) (quality_threshold : Q)
    (long_ayah_words : Z) (long_ayah_duration : Q)
    (on_progress : option callback)
    (final : list AlignmentResult.t) (stats : HybridStats) :
  align_segments_hybrid similarity callback align_segments_greedy
    align_segments_dp_with_constraints segments ayahs silences_ms
    quality_threshold long_ayah_words long_ayah_duration on_progress
  = Returned (final, stats) →
  category_sum stats = length final
  ∧ total_ayahs stats = length ayahs
  ∧ (category_sum stats = total_ayahs stats
     ↔ length final = length ayahs).
Proof.
  intros Hrun.
  assert (category_sum stats = length final
          ∧ total_ayahs stats = length ayahs) as [Hsum Htot]; [|lia].
  unfold align_segments_hybrid in Hrun.
  destruct segments as [|seg segments]; [by simplify_eq/=|].
  destruct ayahs as [|ay ayahs]; [by simplify_eq/=|].
  destruct (align_segments_dp_with_constraints _ _ _ _)
    as [dp_results|]; [|done].
  simpl in Hrun. destruct dp_results as [|dp_r dp_results].
  - destruct (align_segments_greedy _ _ _) as [old_results|]; [|done].
    simpl in Hrun. simplify_eq. unfold category_sum. simpl. lia.
  - destruct (align_segments_greedy _ _ _) as [old_results|]; [|done].
    simpl in Hrun.
    destruct (hybrid_loop (seg :: segments) silences_ms old_results
                quality_threshold long_ayah_words long_ayah_duration
                (dp_r :: dp_results) []
                (mkStats (S (length ayahs)) 0 0 0 0))
      as (emitted & stats' & Hloop & Hem & Hsum & Htot).
    simpl in Hloop. rewrite Hloop in Hrun. simplify_eq.
    apply Forall2_length in Hem. unfold category_sum in *. simpl in *.
    split; [lia|done].
Qed.

End Strategy.

Import Examples.

Lemma try_split_and_restitch_frame_witness :
  ∃ r,
    _try_split_and_restitch sim two_segments
      (AlignmentResult.ayah weak_result) weak_result one_silence = Some r
    ∧ AlignmentResult.ayah r = AlignmentResult.ayah weak_result
    ∧ (AlignmentResult.similarity_score weak_result + 0.05
       < AlignmentResult.similarity_score r)%Q.
Proof.
  eexists. split; [by vm_compute|].
  split; eapply (try_split_and_restitch_frame sim two_segments weak_result
                   _ one_silence); by vm_compute.
Defined.

Lemma hybrid_emits_best_witness :
  ∃ final stats,
    align_segments_hybrid sim unit (greedy_returning greedy_results)
      (dp_returning dp_results) two_segments three_ayahs
      one_silence 0.85 30 30.0 None
    = Returned (final, stats)
    ∧ Forall2
        (emitted_for sim two_segments one_silence greedy_results 0.85 30
           30.0)
        dp_results final.
Proof.
  apply (hybrid_emits_best sim unit (greedy_returning greedy_results)
           (dp_returning dp_results) two_segments three_ayahs
           one_silence 0.85 30 30.0 None dp_results greedy_results);
    done.
Defined.

(** C4, counterexample. With no segment and one āya the strategy returns
    at once: [total_ayahs] is 1 and every category count is 0. *)
Lemma hybrid_stats_sum_short :
  ∃ stats,
    align_segments_hybrid sim unit (greedy_returning [])
      (dp_returning []) [] [long_ayah] None 0.85 30 30.0 None
    = Returned ([], stats)
    ∧ total_ayahs stats = 1
    ∧ dp_kept stats + old_fallback stats + split_improved stats
      + still_low stats = 0.
Proof. eexists. split_and!; by vm_compute. Qed.

Lemma hybrid_stats_sum_witness :
  ∃ final stats,
    align_segments_hybrid sim unit (greedy_returning greedy_results)
      (dp_returning dp_results) two_segments three_ayahs
      one_silence 0.85 30 30.0 None
    = Returned (final, stats)
    ∧ category_sum stats = length final.
Proof.
  pose proof (hybrid_stats_sum sim unit (greedy_returning greedy_results)
                (dp_returning dp_results) two_segments three_ayahs
                one_silence 0.85 30 30.0 None) as Hsum.
  destruct (align_segments_hybrid _ _ _ _ _ _ _ _ _ _ _)
    as [[final stats]|e] eqn:Hrun.
  - exists final, stats. split; [done|]. by apply Hsum.
  - by vm_compute in Hrun.
Defined.

End HybridFacts.

(** ** The facade *)

Module AlignerFacts.
Import Py Hybrid Aligner.

Section Facade.
Variable similarity : str → str → Q.
Variable callback : Type.
Variable align_segments_greedy :
  list Segment.t → list Ayah.t → option (list (Z * Z))
  → outcome (list AlignmentResult.t).
Variable align_segments_dp_with_constraints :
  list Segment.t → list Ayah.t → option (list (Z * Z)) → option callback
  → outcome (list AlignmentResult.t).
Variable zone_report : Type.
Variable realign_problem_zones :
  list AlignmentResult.t → list Segment.t → list Ayah.t → Z → Q → Q
  → outcome (list AlignmentResult.t * zone_report).
Variable realign_from_anchors :
  list AlignmentResult.t → list Segment.t → list Ayah.t → Z → Q
  → outcome (list AlignmentResult.t * zone_report).
Variable zone_fix_overlaps :
  list AlignmentResult.t → outcome (list AlignmentResult.t * Z).

(** C8, as the code has it. Called with an empty āya list, [Aligner.align]
    returns the empty list at once, whatever the segments are: nothing is
    raised, no aligner and no pass is called, there are no partial results,
    and the object is left as it was. *)
Theorem align_without_ayahs (self : Aligner.t) (segments : list Segment.t)
    (silences_ms : option (list (Z * Z))) (on_progress : option callback) :
  align similarity callback align_segments_greedy
    align_segments_dp_with_constraints zone_report realign_problem_zones
    realign_from_anchors zone_fix_overlaps self segments [] silences_ms
    on_progress
  = (Returned [], self).
Proof. unfold align. by destruct segments. Qed.

End Facade.

Import Examples.

(** C8, counterexample. With one segment and no āya the call returns the
    empty list; it does not end in an error. *)
Lemma align_without_ayahs_returns :
  (align sim unit (greedy_returning []) (dp_returning []) unit
     zones_unchanged anchors_unchanged overlaps_unchanged Aligner.default
     two_segments [] None None).1
  = Returned []
  ∧ ¬ ∃ e,
        (align sim unit (greedy_returning []) (dp_returning []) unit
           zones_unchanged anchors_unchanged overlaps_unchanged
           Aligner.default two_segments [] None None).1
        = Raised e.
Proof. split; [done|]. by intros [e He]. Qed.

End AlignerFacts.

(** ** Cascade recovery *)

Module CascadeRecoveryFacts.
Import PyStr Py PyFacts CascadeRecovery.

(** *** The acceptance gate *)

(** What the gate's loop checks for an old result and its replacement. *)
Definition protected (old new : AlignmentResult.t) : Prop :=
  let o := AlignmentResult.similarity_score old in
  let n := AlignmentResult.similarity_score new in
  ((0.75 <= o)%Q → (o - n <= 0.08)%Q)
  ∧ ((0.5 <= o)%Q → (o - n <= 0.12)%Q)
  ∧ ((0.75 <= o)%Q → (0.70 <= n)%Q).

Lemma degrades_false old new : degrades old new = false → protected old new.
Proof.
  unfold degrades, protected. cbv zeta.
  rewrite !orb_false_iff, !andb_false_iff.
  rewrite !Qle_bool_false, !Qlt_bool_false.
  intros [[H1 H2] H3]. split_and!; intros Ho.
  - destruct H1 as [H1|H1]; [|done]. by apply Qlt_not_le in H1.
  - destruct H2 as [H2|H2]; [|done]. by apply Qlt_not_le in H2.
  - destruct H3 as [H3|H3]; [|done]. by apply Qlt_not_le in H3.
Qed.

(** The averages the gate compares: over the window without its first
    result, and without its last one when it has more than two. *)
Definition gate_average (l : list AlignmentResult.t) (len : nat) : Q :=
  (Qsum (AlignmentResult.similarity_score
           <$> slice l cascade_old_start (cascade_old_end len))
   / inject_Z (Z.of_nat (cascade_old_end len) - Z.of_nat cascade_old_start))%Q.

(** What an accepted replacement satisfies. *)
Lemma accept_Some old_results_range new_results r :
  accept old_results_range new_results = Some r →
  r = new_results
  ∧ Forall (λ '(old, new), protected old new)
      (zip old_results_range new_results)
  ∧ (gate_average old_results_range (length old_results_range) + 0.08
     < gate_average new_results (length old_results_range))%Q.
Proof.
  unfold accept. intros Hacc.
  destruct (existsb _ _) eqn:Hex; [done|].
  destruct (_ =? 0)%Z; [done|].
  destruct (Qlt_bool _ _) eqn:Hlt; [|done].
  apply Qlt_bool_true in Hlt. simplify_eq. split_and!; [done| |exact Hlt].
  apply Forall_forall. intros [old new] Hin.
  apply degrades_false.
  destruct (degrades old new) eqn:Hd; [|done].
  assert (existsb (λ '(old, new), degrades old new)
            (zip old_results_range r) = true) as Htrue; [|congruence].
  apply existsb_exists. exists (old, new). split; [|done].
  by apply list_elem_of_In.
Qed.

(** *** Finding the cascades *)

Lemma low_run_end_ge results threshold room i :
  i ≤ low_run_end results threshold room i.
Proof.
  revert i. induction room as [|room IH]; intros i; simpl; [done|].
  destruct (results !! i); [|done].
  destruct (Qlt_bool _ _); [|done]. specialize (IH (S i)). lia.
Qed.

Lemma low_run_end_le results threshold room i :
  i ≤ length results → low_run_end results threshold room i ≤ length results.
Proof.
  revert i. induction room as [|room IH]; intros i Hi; simpl; [done|].
  destruct (results !! i) eqn:Hr; [|done].
  destruct (Qlt_bool _ _); [|done].
  apply IH. apply lookup_lt_Some in Hr. lia.
Qed.

(** A cascade [(start, end)] lies in the list and is not empty. *)
Definition cascade_in (results : list AlignmentResult.t)
    (c : nat * nat) : Prop :=
  c.1 < c.2 ∧ c.2 ≤ length results.

Lemma cascades_from_in results threshold min_len fuel :
  ∀ i cascades,
    Forall (cascade_in results) cascades →
    Forall (cascade_in results)
      (cascades_from results threshold min_len fuel i cascades).
Proof.
  induction fuel as [|fuel IH]; intros i cascades Hc; simpl; [done|].
  destruct (results !! i) as [r|] eqn:Hr; [|done].
  destruct (Qlt_bool _ _) eqn:Hlow; [|by apply IH].
  apply IH. destruct (_ <=? _)%Z; [|done].
  apply Forall_app. split; [done|]. constructor; [|done].
  pose proof (lookup_lt_Some _ _ _ Hr) as Hlt.
  split; simpl.
  - destruct (length results - i) as [|room] eqn:Hroom; [lia|].
    simpl. rewrite Hr, Hlow.
    pose proof (low_run_end_ge results threshold room (S i)). lia.
  - apply low_run_end_le. lia.
Qed.

Lemma find_cascade_sequences_in results threshold min_len :
  Forall (cascade_in results)
    (find_cascade_sequences results threshold min_len).
Proof. apply cascades_from_in. constructor. Qed.

(** The counter of the outer loop is large enough: once [i] and the
    counter reach the end of the list together, more turns change
    nothing. *)
Lemma cascades_from_enough results threshold min_len fuel :
  ∀ more i cascades,
    length results ≤ i + fuel →
    cascades_from results threshold min_len (fuel + more) i cascades
    = cascades_from results threshold min_len fuel i cascades.
Proof.
  induction fuel as [|fuel IH]; intros more i cascades Hlen.
  - simpl. destruct more; simpl; [done|].
    by rewrite lookup_ge_None_2 by lia.
  - simpl. destruct (results !! i) as [r|] eqn:Hr; [|done].
    pose proof (lookup_lt_Some _ _ _ Hr) as Hlt.
    destruct (Qlt_bool _ _) eqn:Hlow; [|apply IH; lia].
    apply IH.
    destruct (length results - i) as [|room] eqn:Hroom; [lia|].
    simpl. rewrite Hr, Hlow.
    pose proof (low_run_end_ge results threshold room (S i)). lia.
Qed.

(** *** The table of the local re-solve *)

Section Recovery.
Variable similarity : str → str → Q.
Variable compute_alignment_cost : str → str → Q.

(** An entry for the cell [(i, S j')] points back to a cell of the row
    before, over at least one segment. *)
Definition entry_ok (dp : gmap (nat * nat) dp_entry) (i j' : nat)
    (e : dp_entry) : Prop :=
  ∃ c text pi,
    e = (c, text, pi, Some (pi, j')) ∧ pi < i ∧ is_Some (dp !! (pi, j')).

(** The shape of the table: the only cell of row 0 is [(0, 0)], which has
    no parent; every other cell has a parent in the table. *)
Definition dp_wf (n_seg : nat) (dp : gmap (nat * nat) dp_entry) : Prop :=
  ∀ i j e,
    dp !! (i, j) = Some e →
    match j with
    | 0 => i = 0 ∧ entry_parent e = None
    | S j' => i ≤ n_seg ∧ entry_ok dp i j' e
    end.

Lemma dp_cell_ok sub_segments ayah_text ends max_segs dp i j' best :
  dp_cell compute_alignment_cost sub_segments ayah_text ends max_segs dp i
    (S j') = Some best →
  entry_ok dp i j' best.
Proof.
  unfold dp_cell.
  assert (Forall (λ k, 1 ≤ k ≤ i) (seq 1 (Nat.min max_segs i))) as Hks.
  { apply Forall_forall. intros k Hk%elem_of_seq. lia. }
  revert Hks. generalize (seq 1 (Nat.min max_segs i)). intros l Hl.
  assert (∀ st : option dp_entry * option Q,
            (st.1 = None ∨ ∃ e, st.1 = Some e ∧ entry_ok dp i j' e) →
            (fold_left
               (cell_step compute_alignment_cost sub_segments ayah_text
                  ends dp i (S j'))
               l st).1 = Some best →
            entry_ok dp i j' best) as Hfold.
  { induction Hl as [|k l Hk Hl IH]; intros [b bc] Hb; simpl in Hb.
    { simpl. intros ->. by destruct Hb as [|(e & [= ->] & He)]. }
    cbn [fold_left]. apply IH. unfold cell_step.
    replace (S j' - 1) with j' by lia.
    destruct (dp !! (i - k, j')) as [prev|] eqn:Hprev; [|done].
    cbv zeta. destruct (below _ _); [|done].
    right. eexists. split; [done|].
    eexists _, _, _. split_and!; [done|lia|by rewrite Hprev]. }
  apply (Hfold (None, None)). by left.
Qed.

Lemma dp_wf_insert n_seg dp i j' e :
  dp_wf n_seg dp → i ≤ n_seg → entry_ok dp i j' e →
  dp_wf n_seg (<[(i, S j') := e]> dp).
Proof.
  intros Hwf Hi He i0 j0 e0 Hlook.
  assert (∀ i1 j1 e1, entry_ok dp i1 j1 e1
                      → entry_ok (<[(i, S j') := e]> dp) i1 j1 e1) as Hmono.
  { intros i1 j1 e1 (c & text & pi & -> & Hpi & Hin).
    eexists _, _, _. split_and!; [done|done|].
    rewrite lookup_insert_is_Some. destruct (decide ((i, S j') = (pi, j1)));
      [by left|by right]. }
  destruct (decide ((i, S j') = (i0, j0))) as [[= <- <-]|Hne].
  - rewrite lookup_insert_eq in Hlook. simplify_eq. split; [done|].
    by apply Hmono.
  - rewrite lookup_insert_ne in Hlook by done.
    specialize (Hwf i0 j0 e0 Hlook). destruct j0 as [|j0']; [done|].
    destruct Hwf as [Hle Hok]. split; [done|]. by apply Hmono.
Qed.

Lemma dp_row_wf sub_segments ayah_text ends max_segs j' dp :
  dp_wf (length sub_segments) dp →
  dp_wf (length sub_segments)
    (dp_row compute_alignment_cost sub_segments ayah_text ends max_segs
       (S j') dp).
Proof.
  unfold dp_row.
  assert (Forall (λ i, i ≤ length sub_segments)
            (seq (S j') (length sub_segments + 1 - S j'))) as His.
  { apply Forall_forall. intros i Hi%elem_of_seq. lia. }
  revert His dp. generalize (seq (S j') (length sub_segments + 1 - S j')).
  intros l Hl. induction Hl as [|i l Hi Hl IH]; intros dp Hwf; simpl; [done|].
  apply IH.
  destruct (dp_cell _ _ _ _ _ _ _ _) as [best|] eqn:Hcell; [|done].
  apply dp_wf_insert; [done..|]. by eapply dp_cell_ok.
Qed.

Lemma dp_fill_wf sub_segments sub_ayahs ends max_segs :
  dp_wf (length sub_segments)
    (dp_fill compute_alignment_cost sub_segments sub_ayahs ends max_segs).
Proof.
  unfold dp_fill.
  assert (dp_wf (length sub_segments)
            ({[ (0, 0) := (0%Q, [], 0, None) ]} : gmap (nat * nat) dp_entry))
    as Hinit.
  { intros i j e Hlook.
    apply lookup_singleton_Some in Hlook as [[= <- <-] <-]. done. }
  revert Hinit.
  generalize ({[ (0, 0) := (0%Q, [], 0, None) ]} : gmap (nat * nat) dp_entry).
  generalize (imap pair sub_ayahs).
  intros l. induction l as [|[j0 ayah] l IH]; intros dp Hwf; simpl; [done|].
  apply IH. by apply dp_row_wf.
Qed.

Lemma find_best_end_in dp n_sub_seg n_sub_ayah best_end :
  find_best_end dp n_sub_seg n_sub_ayah = Some best_end →
  ∃ i, best_end = (i, n_sub_ayah) ∧ is_Some (dp !! (i, n_sub_ayah)).
Proof.
  unfold find_best_end.
  generalize (seq n_sub_ayah (n_sub_seg + 1 - n_sub_ayah)). intros l.
  assert (∀ st : option (nat * nat) * option Q,
            (st.1 = None
             ∨ ∃ i, st.1 = Some (i, n_sub_ayah)
                    ∧ is_Some (dp !! (i, n_sub_ayah))) →
            (fold_left (best_end_step dp n_sub_ayah) l st).1
            = Some best_end →
            ∃ i, best_end = (i, n_sub_ayah)
                 ∧ is_Some (dp !! (i, n_sub_ayah))) as Hfold.
  { induction l as [|i l IH]; intros [b bc] Hb; simpl in Hb.
    { simpl. intros ->. destruct Hb as [|(i & [= ->] & Hi)]; [done|].
      by exists i. }
    cbn [fold_left]. apply IH. unfold best_end_step.
    destruct (dp !! (i, n_sub_ayah)) as [e|] eqn:He; [|done].
    destruct (below _ _); [|done].
    right. exists i. by rewrite He. }
  apply (Hfold (None, None)). by left.
Qed.

(** *** Backtracking *)

(** A path from row [j] down to row 1, as the loop collects it. *)
Fixpoint descends (n_seg j : nat) (chain : list (nat * nat * nat * str))
    : Prop :=
  match j, chain with
  | 0, [] => True
  | S j', (seg_start, i, j0, _) :: chain' =>
      j0 = j ∧ seg_start < i ∧ i ≤ n_seg ∧ descends n_seg j' chain'
  | _, _ => False
  end.

Lemma backtrack_descends n_seg dp j :
  dp_wf n_seg dp →
  ∀ fuel i path,
    j < fuel → is_Some (dp !! (i, j)) →
    ∃ chain,
      backtrack fuel dp (Some (i, j)) path = Some (path ++ chain)
      ∧ descends n_seg j chain.
Proof.
  intros Hwf. induction j as [|j IH]; intros fuel i path Hfuel [e He].
  - destruct (Hwf _ _ _ He) as [-> Hpar].
    destruct e as [[[c text] pi] parent]. simpl in Hpar. subst parent.
    destruct fuel as [|fuel]; [lia|].
    exists []. cbn [backtrack]. rewrite He, app_nil_r.
    split; [by destruct fuel|done].
  - destruct (Hwf _ _ _ He) as [Hle (c & text & pi & -> & Hpi & Hin)].
    destruct fuel as [|fuel]; [lia|].
    destruct (IH fuel pi (path ++ [(pi, i, S j, text)]))
      as (chain & Hback & Hch); [lia|done|].
    exists ((pi, i, S j, text) :: chain).
    cbn [backtrack]. rewrite He, Hback, <- app_assoc.
    split; [done|]. simpl. done.
Qed.

(** The same path, read from row [lo + 1] upwards. *)
Fixpoint ascends (n_seg lo : nat) (path : list (nat * nat * nat * str))
    : Prop :=
  match path with
  | [] => True
  | (seg_start, i, j0, _) :: path' =>
      j0 = S lo ∧ seg_start < i ∧ i ≤ n_seg ∧ ascends n_seg (S lo) path'
  end.

Lemma descends_length n_seg j chain : descends n_seg j chain → length chain = j.
Proof.
  revert chain. induction j as [|j IH]; intros [|[[[s i] j0] t] chain];
    simpl; try done.
  intros (_ & _ & _ & Hch). f_equal. by apply IH.
Qed.

Lemma ascends_snoc n_seg lo path s i t :
  ascends n_seg lo path → s < i → i ≤ n_seg →
  ascends n_seg lo (path ++ [(s, i, S (lo + length path), t)]).
Proof.
  revert lo. induction path as [|[[[s0 i0] j0] t0] path IH]; intros lo;
    simpl.
  - intros _ Hs Hi. by rewrite Nat.add_0_r.
  - intros (-> & Hs0 & Hi0 & Hp) Hs Hi. split_and!; [done..|].
    replace (S (lo + S (length path))) with (S (S lo + length path)) by lia.
    by apply IH.
Qed.

Lemma descends_rev n_seg j chain :
  descends n_seg j chain → ascends n_seg 0 (rev chain).
Proof.
  revert chain. induction j as [|j IH]; intros [|[[[s i] j0] t] chain];
    simpl; try done.
  intros (-> & Hs & Hi & Hch).
  pose proof (descends_length _ _ _ Hch) as Hlen.
  replace (S j) with (S (0 + length (rev chain)))
    by (rewrite length_rev; lia).
  apply ascends_snoc; [by apply IH|done..].
Qed.

(** *** The new results *)

Lemma py_getitem_nat {A} (l : list A) i x :
  l !! i = Some x → py_getitem l (Z.of_nat i) = Returned x.
Proof.
  intros Hx. unfold py_getitem.
  replace (Z.of_nat i <? 0)%Z with false by (symmetry; apply Z.ltb_ge; lia).
  replace (Z.of_nat i <? 0)%Z with false by (symmetry; apply Z.ltb_ge; lia).
  by rewrite Nat2Z.id, Hx.
Qed.

Lemma py_getitem_pred {A} (l : list A) i x :
  l !! i = Some x → py_getitem l (Z.of_nat (S i) - 1) = Returned x.
Proof.
  intros Hx. replace (Z.of_nat (S i) - 1)%Z with (Z.of_nat i) by lia.
  by apply py_getitem_nat.
Qed.

Lemma convert_ascends sub_segments sub_ayahs path :
  ∀ lo,
    ascends (length sub_segments) lo path →
    lo + length path ≤ length sub_ayahs →
    ∃ new_results,
      convert similarity sub_segments sub_ayahs path = Returned new_results
      ∧ AlignmentResult.ayah <$> new_results
        = take (length path) (drop lo sub_ayahs).
Proof.
  induction path as [|[[[s i] j0] t] path IH]; intros lo Hasc Hlen.
  { exists []. by rewrite take_0. }
  simpl in Hasc, Hlen. destruct Hasc as (-> & Hs & Hi & Hasc).
  cbn [convert].
  replace (length sub_segments <=? s) with false
    by (symmetry; apply Nat.leb_gt; lia).
  replace (length sub_segments <? i) with false
    by (symmetry; apply Nat.ltb_ge; lia).
  cbn [orb].
  destruct (lookup_lt_is_Some_2 sub_ayahs lo) as [ayah Hayah]; [lia|].
  destruct (lookup_lt_is_Some_2 sub_segments s) as [first Hfirst]; [lia|].
  destruct i as [|i]; [lia|].
  destruct (lookup_lt_is_Some_2 sub_segments i) as [last Hlast]; [lia|].
  rewrite (py_getitem_pred _ _ _ Hayah). simpl.
  rewrite (py_getitem_nat _ _ _ Hfirst). simpl.
  rewrite (py_getitem_pred _ _ _ Hlast). simpl.
  destruct (IH (S lo)) as (rest & -> & Hrest); [done|lia|].
  eexists. split; [done|].
  rewrite fmap_cons, Hrest. cbn [length take AlignmentResult.ayah].
  by rewrite (drop_S _ _ _ Hayah).
Qed.

Lemma py_getitem_before {A} (l : list A) (i : nat) :
  0 < length l → i ≤ length l →
  ∃ x, py_getitem l (Z.of_nat i - 1) = Returned x.
Proof.
  intros Hl Hi. destruct i as [|i].
  - destruct (lookup_lt_is_Some_2 l (length l - 1)) as [x Hx]; [lia|].
    exists x. unfold py_getitem. cbv zeta.
    replace (Z.of_nat 0 - 1 <? 0)%Z with true by done.
    replace (Z.of_nat 0 - 1 + Z.of_nat (length l) <? 0)%Z with false
      by (symmetry; apply Z.ltb_ge; lia).
    replace (Z.to_nat (Z.of_nat 0 - 1 + Z.of_nat (length l)))
      with (length l - 1) by lia.
    by rewrite Hx.
  - destruct (lookup_lt_is_Some_2 l i) as [x Hx]; [lia|].
    exists x. by apply py_getitem_pred.
Qed.

(** *** One recovery *)

(** What [_recover_cascade_with_resync] does for a cascade that starts
    inside the list: it returns, and a replacement that it returns has
    passed the gate, has one result for each result of the window, and
    gives each the āya of the result it replaces. *)
Lemma recover_returns segments ayahs results cascade_start cascade_end
    silences_sec context_ayahs :
  cascade_start < length results →
  ∃ x,
    _recover_cascade_with_resync similarity compute_alignment_cost segments
      ayahs results cascade_start cascade_end silences_sec context_ayahs
    = Returned x
    ∧ ∀ new_results,
        x = Some new_results →
        let extended_start := Nat.max 0 (cascade_start - context_ayahs) in
        let extended_end :=
          Nat.min (length results) (cascade_end + context_ayahs) in
        extended_start ≤ extended_end
        ∧ length new_results = extended_end - extended_start
        ∧ AlignmentResult.ayah <$> new_results
          = AlignmentResult.ayah
              <$> slice results extended_start extended_end
        ∧ accept (slice results extended_start extended_end) new_results
          = Some new_results.
Proof.
  intros Hcs. unfold _recover_cascade_with_resync.
  set (extended_start := Nat.max 0 (cascade_start - context_ayahs)).
  set (extended_end :=
         Nat.min (length results) (cascade_end + context_ayahs)).
  destruct (lookup_lt_is_Some_2 results extended_start) as [first Hfirst];
    [subst extended_start; lia|].
  rewrite (py_getitem_nat _ _ _ Hfirst).
  destruct (py_getitem_before results extended_end) as [last ->];
    [lia|subst extended_end; lia|].
  cbn [mbind outcome_bind].
  destruct ((filter _ (imap pair segments)).*1) as [|idx0 seg_indices'].
  { by exists None. }
  set (sub_segments := slice segments _ _).
  set (sub_ayahs := AlignmentResult.ayah <$> slice results _ _).
  destruct (length sub_segments <? length sub_ayahs) eqn:Hfew.
  { by exists None. }
  apply Nat.ltb_ge in Hfew.
  set (dp := dp_fill _ _ _ _ _).
  pose proof (dp_fill_wf sub_segments sub_ayahs
                (list_to_set
                   (S <$> (filter
                             (λ '(idx, seg),
                                existsb
                                  (λ '(sil_start, sil_end),
                                     Qlt_bool
                                       (Qabs (Segment.end_ seg - sil_start))
                                       0.3)
                                  (filter
                                     (λ '(sil_start, sil_end),
                                        Qle_bool
                                          (AlignmentResult.start_time first)
                                          sil_start
                                        && Qle_bool sil_start
                                             (AlignmentResult.end_time last))
                                     silences_sec))
                             (imap pair sub_segments)).*1))
                (Nat.min 6 (length sub_segments))) as Hwf.
  fold dp in Hwf.
  destruct (find_best_end dp _ _) as [best_end|] eqn:Hend.
  2:{ by exists None. }
  apply find_best_end_in in Hend as (i & -> & Hin).
  destruct (backtrack_descends (length sub_segments) dp (length sub_ayahs)
              Hwf (S (length sub_ayahs)) i [])
    as (chain & -> & Hchain); [lia|done|].
  rewrite app_nil_l.
  pose proof (descends_length _ _ _ Hchain) as Hlen.
  destruct (convert_ascends sub_segments sub_ayahs (rev chain) 0)
    as (new_results & -> & Hnew).
  { by eapply descends_rev. }
  { rewrite length_rev. lia. }
  cbn [mbind outcome_bind].
  rewrite length_rev, Hlen, drop_0, firstn_all in Hnew.
  destruct (negb _) eqn:Hsize.
  { by exists None. }
  apply negb_false_iff, Z.eqb_eq in Hsize.
  eexists. split; [done|].
  intros new' Hacc. cbv zeta.
  pose proof (accept_Some _ _ _ Hacc) as [-> _].
  assert (length new_results = length sub_ayahs) as Hlen'.
  { by rewrite <- Hnew, length_fmap. }
  split_and!; [lia|lia|done|done].
Qed.

(** Results inside the window of a returned replacement are protected by
    the gate, each against the result it replaces. *)
Lemma recover_protected segments ayahs results cascade_start cascade_end
    silences_sec context_ayahs new_results :
  cascade_start < length results →
  _recover_cascade_with_resync similarity compute_alignment_cost segments
    ayahs results cascade_start cascade_end silences_sec context_ayahs
  = Returned (Some new_results) →
  Forall2 protected
    (slice results (Nat.max 0 (cascade_start - context_ayahs))
       (Nat.min (length results) (cascade_end + context_ayahs)))
    new_results.
Proof.
  intros Hcs Hrun.
  destruct (recover_returns segments ayahs results cascade_start
              cascade_end silences_sec context_ayahs Hcs)
    as (x & Hx & Hspec).
  rewrite Hrun in Hx. simplify_eq.
  destruct (Hspec new_results eq_refl) as (Hle & Hlen & Hayah & Hacc).
  apply accept_Some in Hacc as (_ & Hprot & _).
  apply Forall2_same_length_lookup. split.
  { apply (f_equal length) in Hayah. by rewrite !length_fmap in Hayah. }
  intros i old new Hold Hnew.
  rewrite Forall_forall in Hprot. apply (Hprot (old, new)).
  apply list_elem_of_lookup. exists i. by apply lookup_zip_with_Some; eauto.
Qed.

(** Putting a replacement of the right length in place of a window. *)
Lemma window_replace {A} (l new : list A) (lo hi : nat) :
  lo ≤ hi → hi ≤ length l → length new = hi - lo →
  ∀ i, ¬ (lo ≤ i < hi) →
       (take lo l ++ new ++ drop hi l) !! i = l !! i.
Proof.
  intros Hlo Hhi Hnew i Hi.
  destruct (decide (i < lo)).
  - rewrite lookup_app_l by (rewrite length_take; lia).
    by rewrite lookup_take_lt.
  - rewrite lookup_app_r by (rewrite length_take; lia).
    rewrite length_take, lookup_app_r by lia.
    rewrite lookup_drop. f_equal. lia.
Qed.

Lemma window_same {A} (l : list A) (lo hi : nat) :
  lo ≤ hi → take lo l ++ slice l lo hi ++ drop hi l = l.
Proof.
  intros Hlo. unfold slice.
  replace (drop hi l) with (drop (hi - lo) (drop lo l))
    by (rewrite drop_drop; f_equal; lia).
  by rewrite take_drop, take_drop.
Qed.

(** The indices of the window of a cascade in a list of [len] results. *)
Definition in_window (len : nat) (c : nat * nat) (i : nat) : Prop :=
  c.1 - 1 ≤ i < Nat.min len (c.2 + 1).

(** One turn of the loop of [apply_cascade_recovery] returns; it keeps
    the āya of every result, and every result outside the window. *)
Lemma recovery_step_keeps segments ayahs silences_sec improved_results
    cascade :
  cascade.1 < length improved_results →
  ∃ out,
    recovery_step similarity compute_alignment_cost segments ayahs
      silences_sec improved_results cascade
    = Returned out
    ∧ AlignmentResult.ayah <$> out
      = AlignmentResult.ayah <$> improved_results
    ∧ ∀ i, ¬ in_window (length improved_results) cascade i →
           out !! i = improved_results !! i.
Proof.
  destruct cascade as [cascade_start cascade_end]. intros Hcs.
  simpl in Hcs. unfold recovery_step.
  destruct (recover_returns segments ayahs improved_results cascade_start
              cascade_end silences_sec 1 Hcs) as (x & -> & Hspec).
  cbn [mbind outcome_bind].
  destruct x as [[|r recovery']|]; [by eexists..| |by eexists].
  destruct (Hspec (r :: recovery') eq_refl) as (Hle & Hlen & Hayah & _).
  eexists. split; [done|]. split.
  - rewrite !fmap_app, Hayah, <- !fmap_app. f_equal.
    by apply window_same.
  - intros i Hi. apply window_replace; [done|lia|done|].
    unfold in_window in Hi. simpl in Hi. lia.
Qed.

(** What one turn of the loop makes of the list [improved_results], given
    what [_recover_cascade_with_resync] returned for the cascade: a
    replacement takes the place of the results of the window, and of these
    only; with none, the list stays as it is. *)
Definition replaced_by (improved_results : list AlignmentResult.t)
    (cascade : nat * nat) (recovery : option (list AlignmentResult.t))
    (out : list AlignmentResult.t) : Prop :=
  match recovery with
  | Some (r :: recovery') =>
      let ext_start := cascade.1 - 1 in
      let ext_end := Nat.min (length improved_results) (cascade.2 + 1) in
      out
      = take ext_start improved_results ++ (r :: recovery')
        ++ drop ext_end improved_results
      ∧ length (r :: recovery') = ext_end - ext_start
      ∧ (∀ i, in_window (length improved_results) cascade i →
              out !! i = (r :: recovery') !! (i - ext_start))
      ∧ (∀ i, ¬ in_window (length improved_results) cascade i →
              out !! i = improved_results !! i)
  | _ => out = improved_results
  end.

(** A replacement is what the gate accepted for the window of the
    cascade. *)
Definition accepted_for (improved_results : list AlignmentResult.t)
    (cascade : nat * nat) (recovery : option (list AlignmentResult.t))
    : Prop :=
  ∀ new_results,
    recovery = Some new_results →
    accept
      (slice improved_results (cascade.1 - 1)
         (Nat.min (length improved_results) (cascade.2 + 1)))
      new_results
    = Some new_results.

(** The lists that the loop goes through, one cascade after the other:
    each turn asks [_recover_cascade_with_resync] for a replacement, on the
    list as the turns before have left it, and puts it in place. *)
Fixpoint recovered_through (segments : list Segment.t)
    (ayahs : list Ayah.t) (silences_sec : list (Q * Q))
    (cascades : list (nat * nat))
    (improved_results out : list AlignmentResult.t) : Prop :=
  match cascades with
  | [] => out = improved_results
  | cascade :: cascades' =>
      ∃ recovery next,
        _recover_cascade_with_resync similarity compute_alignment_cost
          segments ayahs improved_results cascade.1 cascade.2 silences_sec 1
        = Returned recovery
        ∧ accepted_for improved_results cascade recovery
        ∧ replaced_by improved_results cascade recovery next
        ∧ recovered_through segments ayahs silences_sec cascades' next out
  end.

Lemma recovery_step_replaces segments ayahs silences_sec improved_results
    cascade :
  cascade.1 < length improved_results →
  ∃ recovery out,
    _recover_cascade_with_resync similarity compute_alignment_cost segments
      ayahs improved_results cascade.1 cascade.2 silences_sec 1
    = Returned recovery
    ∧ recovery_step similarity compute_alignment_cost segments ayahs
        silences_sec improved_results cascade
      = Returned out
    ∧ accepted_for improved_results cascade recovery
    ∧ replaced_by improved_results cascade recovery out
    ∧ AlignmentResult.ayah <$> out
      = AlignmentResult.ayah <$> improved_results
    ∧ ∀ i, ¬ in_window (length improved_results) cascade i →
           out !! i = improved_results !! i.
Proof.
  destruct cascade as [cascade_start cascade_end]. intros Hcs.
  cbn [fst snd] in *.
  destruct (recovery_step_keeps segments ayahs silences_sec
              improved_results (cascade_start, cascade_end) Hcs)
    as (out & Hstep & Hay & Hout).
  destruct (recover_returns segments ayahs improved_results cascade_start
              cascade_end silences_sec 1 Hcs) as (x & Hrun & Hspec).
  exists x, out. split_and!; [done|done| | |done|done].
  - intros new_results ->.
    destruct (Hspec new_results eq_refl) as (_ & _ & _ & Hacc).
    cbn [fst snd]. by rewrite Nat.max_0_l in Hacc.
  - unfold recovery_step in Hstep. rewrite Hrun in Hstep.
    cbn [mbind outcome_bind] in Hstep. unfold replaced_by.
    destruct x as [[|r recovery']|]; [congruence| |congruence].
    destruct (Hspec (r :: recovery') eq_refl) as (Hle & Hlen & _ & _).
    rewrite Nat.max_0_l in Hstep, Hle, Hlen. cbn [fst snd].
    injection Hstep as <-.
    split_and!; [done|done| |].
    + intros i Hi. unfold in_window in Hi. cbn [fst snd] in Hi.
      change (r :: recovery' ++ ?x) with ((r :: recovery') ++ x).
      assert (length (take (cascade_start - 1) improved_results)
              = cascade_start - 1) as Htake.
      { rewrite length_take. lia. }
      rewrite lookup_app_r by lia. rewrite Htake.
      by rewrite lookup_app_l by lia.
    + intros i Hi. by apply Hout.
Qed.

Lemma recovery_loop_replaces segments ayahs silences_sec results cascades :
  Forall (cascade_in results) cascades →
  ∀ improved_results,
    length improved_results = length results →
    ∃ out,
      fold_left
        (λ improved_results cascade,
           improved_results ← improved_results;
           recovery_step similarity compute_alignment_cost segments ayahs
             silences_sec improved_results cascade)
        cascades (Returned improved_results)
      = Returned out
      ∧ AlignmentResult.ayah <$> out
        = AlignmentResult.ayah <$> improved_results
      ∧ recovered_through segments ayahs silences_sec cascades
          improved_results out
      ∧ ∀ i, (∀ c, c ∈ cascades → ¬ in_window (length results) c i) →
             out !! i = improved_results !! i.
Proof.
  induction 1 as [|c cascades [Hc1 Hc2] Hcs IH]; intros improved Hlen.
  { exists improved. by split_and!. }
  cbn [fold_left mbind outcome_bind].
  destruct (recovery_step_replaces segments ayahs silences_sec improved c)
    as (recovery & out1 & Hrun & -> & Hacc & Hrep & Hay1 & Hout1); [lia|].
  destruct (IH out1) as (out & -> & Hay & Hthrough & Hout).
  { apply (f_equal length) in Hay1. rewrite !length_fmap in Hay1. lia. }
  exists out. split_and!; [done|congruence| |].
  - cbn [recovered_through]. by exists recovery, out1.
  - intros i Hi. rewrite Hout.
    + apply Hout1. rewrite Hlen. apply Hi. apply list_elem_of_here.
    + intros c' Hc'. apply Hi. by apply list_elem_of_further.
Qed.

(** C9. [apply_cascade_recovery] returns, and never raises. The list it
    returns is as long as its input and every result in it has the āya of
    the input result at the same index. It is what the cascades, taken from
    the last to the first, make of the input one after the other: for each
    cascade [_recover_cascade_with_resync] is asked for a replacement, on
    the list as it stands; a replacement, which the gate has accepted, takes
    the place of the results of the window of the cascade (the cascade with
    one result before and one after), index by index, and every result
    outside the window stays; without a replacement the list stays as it
    is. So a result outside the windows of all cascades is the input result
    itself. This holds for every scorer and cost function. *)
Theorem apply_cascade_recovery_replaces_windows (segments : list Segment.t)
    (ayahs : list Ayah.t) (results : list AlignmentResult.t)
    (silences_ms : option (list (Z * Z))) (cascade_threshold : Q)
    (min_cascade_length : Z) :
  ∃ out,
    apply_cascade_recovery similarity compute_alignment_cost segments ayahs
      results silences_ms cascade_threshold min_cascade_length
    = Returned out
    ∧ length out = length results
    ∧ (∀ i, AlignmentResult.ayah <$> out !! i
            = AlignmentResult.ayah <$> results !! i)
    ∧ recovered_through segments ayahs
        (match silences_ms with
         | Some silences_ms => ms_to_sec <$> silences_ms
         | None => []
         end)
        (rev (find_cascade_sequences results cascade_threshold
                min_cascade_length))
        results out
    ∧ ∀ i,
        (∀ c,
           c ∈ find_cascade_sequences results cascade_threshold
                 min_cascade_length →
           ¬ in_window (length results) c i) →
        out !! i = results !! i.
Proof.
  unfold apply_cascade_recovery.
  destruct results as [|r0 results'].
  { exists []. by split_and!. }
  set (results := r0 :: results').
  pose proof (find_cascade_sequences_in results cascade_threshold
                min_cascade_length) as Hin.
  destruct (find_cascade_sequences results cascade_threshold
              min_cascade_length) as [|c cascades] eqn:Hcasc.
  { exists results. by split_and!. }
  rewrite <- Hcasc in *. clear Hcasc.
  set (cascades' := find_cascade_sequences results _ _) in *.
  destruct (recovery_loop_replaces segments ayahs
              (match silences_ms with
               | Some silences_ms => ms_to_sec <$> silences_ms
               | None => []
               end)
              results (rev cascades') (Forall_rev Hin) results eq_refl)
    as (out & -> & Hay & Hthrough & Hout).
  exists out. split_and!; [done| | |done|].
  - apply (f_equal length) in Hay. by rewrite !length_fmap in Hay.
  - intros i. by rewrite <- !list_lookup_fmap, Hay.
  - intros i Hi. apply Hout. intros c' Hc'. apply Hi.
    apply list_elem_of_In, in_rev, list_elem_of_In in Hc'. done.
Qed.

End Recovery.

(** *** The code at two inputs *)

Import Examples.

(** C2, the code at the failing input. The list has two results, both
    low, so the cascade is the whole list and so is the window. The
    replacement takes the first result from 0.45 to 0 and the second from
    0.60 to 1: the average over the cascade falls from 0.525 to 0.5, and the
    replacement is returned all the same, because the gate compares the
    second result alone. *)
Theorem recover_accepts_lower_average :
  ∃ new_results,
    find_cascade_sequences pair_results 0.7 2 = [(0, 2)]
    ∧ _recover_cascade_with_resync sim cost pair_segments pair_ayahs
        pair_results 0 2 [] 1
      = Returned (Some new_results)
    ∧ apply_cascade_recovery sim cost pair_segments pair_ayahs pair_results
        None 0.7 2
      = Returned new_results
    ∧ (Qsum (AlignmentResult.similarity_score <$> pair_results) / 2
       == 0.525)%Q
    ∧ (Qsum (AlignmentResult.similarity_score <$> new_results) / 2
       == 0.5)%Q.
Proof. eexists. split_and!; by vm_compute. Qed.

(** C1, the code at the failing input. Results 0-1 and 3-4 are two
    cascades, result 2 between them scores 10/13, above 0.75. The recovery
    of the second cascade, whose window starts at result 2, replaces it by
    one that scores 5/7; the recovery of the first cascade, whose window
    ends at result 2, then compares with 5/7 and replaces it by one that
    scores 5/8, below 0.70. *)
Theorem cascade_recovery_lowers_good_result :
  ∃ out r_old r_new,
    apply_cascade_recovery sim cost six_segments five_ayahs five_results
      None 0.7 2
    = Returned out
    ∧ five_results !! 2 = Some r_old
    ∧ out !! 2 = Some r_new
    ∧ (0.75 <= AlignmentResult.similarity_score r_old)%Q
    ∧ (AlignmentResult.similarity_score r_new == 5 # 8)%Q
    ∧ (AlignmentResult.similarity_score r_new < 0.70)%Q.
Proof. eexists _, _, _. split_and!; by vm_compute. Qed.

End CascadeRecoveryFacts.

(** ** Words: [split] and [join] *)

Module WordFacts.
Import PyStr PyStrFacts.

(** A word, as [split] returns them: not empty, no white space in it. *)
Definition word (w : str) : Prop :=
  w ≠ [] ∧ Forall (λ c, isspace c = false) w.

Lemma split_from_words s :
  ∀ cur,
    Forall (λ c, isspace c = false) cur → Forall word (split_from cur s).
Proof.
  induction s as [|c s IH]; intros cur Hcur; simpl.
  - destruct cur as [|c0 cur]; [done|]. constructor; [|done].
    split; [|by apply Forall_rev].
    intros Hnil%(f_equal length). rewrite length_rev in Hnil. done.
  - destruct (isspace c) eqn:Hc.
    + destruct cur as [|c0 cur]; [by apply IH|].
      constructor; [|by apply IH]. split; [|by apply Forall_rev].
      intros Hnil%(f_equal length). rewrite length_rev in Hnil. done.
    + apply IH. by constructor.
Qed.

Lemma split_words s : Forall word (split s).
Proof. by apply split_from_words. Qed.

(** Reading on from a word that was begun is reading the text that starts
    with that word. *)
Lemma split_from_begun cur :
  ∀ s,
    Forall (λ c, isspace c = false) cur →
    split_from cur s = split (rev cur ++ s).
Proof.
  induction cur as [|c cur IH]; intros s Hcur; [done|].
  apply Forall_cons in Hcur as [Hc Hcur].
  simpl. rewrite <- app_assoc. simpl. rewrite <- (IH (c :: s) Hcur).
  simpl. by rewrite Hc.
Qed.

Lemma split_from_app_space x sp y :
  isspace sp = true →
  ∀ cur, split_from cur (x ++ sp :: y) = split_from cur x ++ split y.
Proof.
  intros Hsp. induction x as [|c x IH]; intros cur; simpl.
  - rewrite Hsp. by destruct cur.
  - destruct (isspace c); [|apply IH].
    destruct cur; by rewrite IH.
Qed.

(** The words of two texts with white space between them. *)
Lemma split_app_space x sp y :
  isspace sp = true → split (x ++ sp :: y) = split x ++ split y.
Proof. intros Hsp. by apply split_from_app_space. Qed.

Lemma split_word w : word w → split w = [w].
Proof.
  intros [Hne Hw].
  pose proof (split_from_begun (rev w) [] (Forall_rev Hw)) as Hsplit.
  rewrite rev_involutive, app_nil_r in Hsplit. rewrite <- Hsplit.
  simpl. destruct (rev w) eqn:Hrev.
  - apply (f_equal (@rev N)) in Hrev. by rewrite rev_involutive in Hrev.
  - by rewrite <- Hrev, rev_involutive.
Qed.

Lemma join_cons sep (x y : str) l :
  join sep (x :: y :: l) = x ++ sep ++ join sep (y :: l).
Proof. done. Qed.

(** [" ".join(words).split() == words] *)
Lemma split_join ws : Forall word ws → split (join [SPACE] ws) = ws.
Proof.
  induction 1 as [|w ws Hw Hws IH]; [done|].
  destruct ws as [|w' ws']; [by apply split_word|].
  rewrite join_cons.
  change (w ++ [SPACE] ++ ?t) with (w ++ SPACE :: t).
  rewrite (split_app_space w SPACE) by apply isspace_SPACE.
  by rewrite split_word, IH.
Qed.

Lemma split_spaces s : Forall (λ c, isspace c = true) s → split s = [].
Proof.
  unfold split. induction 1 as [|c s Hc Hs IH]; [done|].
  simpl. by rewrite Hc.
Qed.

Lemma split_lstrip s : split (lstrip s) = split s.
Proof.
  unfold split. induction s as [|c s IH]; [done|].
  simpl. destruct (isspace c) eqn:Hc; [done|]. simpl. by rewrite Hc.
Qed.

Lemma rstrip_tail s :
  ∃ t, s = rstrip s ++ t ∧ Forall (λ c, isspace c = true) t.
Proof.
  induction s as [|c s (t & Hs & Ht)]; [by exists []|].
  simpl. destruct (rstrip s) as [|c' r] eqn:Hr.
  - destruct (isspace c) eqn:Hc.
    + exists (c :: s). split; [done|]. constructor; [done|].
      simpl in Hs. by subst t.
    + exists s. split; [done|]. simpl in Hs. by subst t.
  - exists t. split; [|done]. simpl. f_equal. exact Hs.
Qed.

Lemma split_app_spaces x t :
  Forall (λ c, isspace c = true) t → split (x ++ t) = split x.
Proof.
  intros Ht. destruct Ht as [|sp t Hsp Ht]; [by rewrite app_nil_r|].
  rewrite split_app_space by done.
  by rewrite (split_spaces t), app_nil_r.
Qed.

Lemma split_rstrip s : split (rstrip s) = split s.
Proof.
  destruct (rstrip_tail s) as (t & Hs & Ht).
  rewrite Hs at 2. by rewrite split_app_spaces.
Qed.

Lemma split_strip s : split (strip s) = split s.
Proof. unfold strip. by rewrite split_rstrip, split_lstrip. Qed.

Lemma split_from_begun_nonempty s :
  ∀ cur, cur ≠ [] → split_from cur s ≠ [].
Proof.
  induction s as [|c s IH]; intros cur Hcur; simpl.
  - by destruct cur.
  - destruct (isspace c); [by destruct cur|]. by apply IH.
Qed.

Lemma split_head s : s ≠ [] → head_black s = true → split s ≠ [].
Proof.
  destruct s as [|c s]; [done|]. intros _ Hc. simpl in Hc.
  apply negb_true_iff in Hc. unfold split. simpl. rewrite Hc.
  by apply split_from_begun_nonempty.
Qed.

Lemma rstrip_cons_fixed c s : rstrip (c :: s) = c :: s → rstrip s = s.
Proof.
  simpl. destruct (rstrip s) as [|c' r] eqn:Hr.
  - destruct (isspace c); [done|]. by intros [= <-].
  - by intros [= <-].
Qed.

Lemma join_split_from s :
  ∀ cur,
    Forall (λ c, isspace c = false) cur →
    ws_norm (bool_decide (cur = [])) s = true →
    (cur = [] → head_black s = true) →
    rstrip s = s →
    join [SPACE] (split_from cur s) = rev cur ++ s.
Proof.
  induction s as [|c s IH]; intros cur Hcur Hnorm Hhead Hlast.
  - simpl. destruct cur; [done|]. by rewrite app_nil_r.
  - pose proof (rstrip_cons_fixed _ _ Hlast) as Hlast'.
    simpl in Hnorm |- *. destruct (isspace c) eqn:Hc.
    + destruct cur as [|c0 cur].
      { specialize (Hhead eq_refl). simpl in Hhead. by rewrite Hc in Hhead. }
      rewrite bool_decide_eq_false_2 in Hnorm by done.
      apply andb_true_iff in Hnorm as [Hsp Hnorm].
      assert (s ≠ []) as Hne.
      { intros ->. cbn [rstrip] in Hlast. by rewrite Hc in Hlast. }
      simpl in Hsp. apply N.eqb_eq in Hsp. subst c.
      assert (head_black s = true) as Hh.
      { destruct s as [|c' s]; [done|]. simpl in Hnorm |- *.
        destruct (isspace c'); [done|done]. }
      pose proof (split_head s Hne Hh) as Hwords.
      specialize (IH [] (Forall_nil_2 _) Hnorm (λ _, Hh) Hlast').
      cbn [join]. fold (split s) in IH |- *.
      destruct (split s) as [|w ws] eqn:Hsplit; [done|].
      by rewrite IH.
    + rewrite IH; [simpl; by rewrite <- app_assoc|by constructor| |done|done].
      by rewrite bool_decide_eq_false_2.
Qed.

(** [" ".join(s.split()) == s] for a text whose white space is single
    spaces between words. *)
Lemma join_split s :
  ws_norm false s = true → head_black s = true → rstrip s = s →
  join [SPACE] (split s) = s.
Proof.
  intros Hnorm Hhead Hlast. unfold split.
  rewrite join_split_from; [done|done| |done|done].
  rewrite bool_decide_eq_true_2 by done.
  destruct s as [|c s]; [done|]. simpl in Hhead, Hnorm |- *.
  apply negb_true_iff in Hhead. by rewrite Hhead in Hnorm |- *.
Qed.

End WordFacts.

(** ** The legacy aligner: word windows and merged texts *)

Module LegacyWordsFacts.
Import PyStr PyStrFacts WordFacts AlignSegments AlignSegmentsFacts
  LegacyWords.

Section Words.
Variable isword : N → bool.

(** The shape of a normalised text: single spaces, none at either end. *)
Lemma normalize_arabic_shape text :
  let s := normalize_arabic isword text in
  ws_norm false s = true ∧ head_black s = true ∧ rstrip s = s.
Proof.
  unfold normalize_arabic. cbv zeta. split_and!.
  - apply strip_norm, re_sub_ws_runs_norm.
  - apply rstrip_head, lstrip_head.
  - apply rstrip_idemp.
Qed.

(** X1. Splitting a normalised text into words and joining them with
    single spaces gives the normalised text back:
    [" ".join(normalize_arabic(x).split()) == normalize_arabic(x)]; and every
    word of it is not empty and free of white space. *)
Theorem normalize_arabic_split_join (x : str) :
  join [SPACE] (split (normalize_arabic isword x)) = normalize_arabic isword x
  ∧ Forall word (split (normalize_arabic isword x)).
Proof.
  destruct (normalize_arabic_shape x) as (Hnorm & Hhead & Hlast).
  split; [by apply join_split|apply split_words].
Qed.

(** X2. [get_first_last_words(text, n)] for [n >= 1]: the first part
    consists of the first [n] words of the normalised text and the last part
    of its last [n] words; a text of at most [n] words is returned whole,
    normalised, in both parts. *)
Theorem get_first_last_words_windows (text : str) (n : Z) :
  (0 < n)%Z →
  let words := split (normalize_arabic isword text) in
  let first := (get_first_last_words isword text n).1 in
  let last := (get_first_last_words isword text n).2 in
  split first = take (Z.to_nat n) words
  ∧ split last = drop (length words - Z.to_nat n) words
  ∧ (length words ≤ Z.to_nat n →
     first = normalize_arabic isword text
     ∧ last = normalize_arabic isword text).
Proof.
  intros Hn. cbv zeta. unfold get_first_last_words. cbv zeta.
  destruct (normalize_arabic_split_join text) as [Hjoin Hwords].
  set (words := split (normalize_arabic isword text)) in *.
  cbn [fst snd].
  destruct (n <=? Z.of_nat (length words))%Z eqn:Hle.
  - apply Z.leb_le in Hle.
    unfold slice_to, slice_from, slice_bound.
    replace (n <? 0)%Z with false by (symmetry; apply Z.ltb_ge; lia).
    replace (- n <? 0)%Z with true by (symmetry; apply Z.ltb_lt; lia).
    replace (Z.to_nat n `min` length words) with (Z.to_nat n) by lia.
    replace (Z.to_nat (Z.max (- n + Z.of_nat (length words)) 0))
      with (length words - Z.to_nat n) by lia.
    rewrite !split_join by (by apply Forall_take || by apply Forall_drop).
    split_and!; [done..|].
    intros Hall. replace (length words - Z.to_nat n) with 0 by lia.
    by rewrite take_ge, drop_0 by done.
  - apply Z.leb_gt in Hle.
    replace (length words - Z.to_nat n) with 0 by lia.
    rewrite take_ge, drop_0 by lia.
    rewrite split_join by done. by rewrite Hjoin.
Qed.

(** X3. With [n = 0] the two parts differ: the first is empty, but the
    last is the whole normalised text, since [words[-0:]] is [words[0:]]. *)
Theorem get_first_last_words_zero (text : str) :
  get_first_last_words isword text 0 = ([], normalize_arabic isword text).
Proof.
  unfold get_first_last_words. cbv zeta.
  destruct (normalize_arabic_split_join text) as [Hjoin _].
  replace (0 <=? Z.of_nat _)%Z with true by (symmetry; apply Z.leb_le; lia).
  unfold slice_to, slice_from, slice_bound. simpl.
  by rewrite drop_0, Hjoin.
Qed.

Lemma kept_from_Forall (P : str → Prop) words1 words2 :
  Forall P words2 → ∀ seen, Forall P (kept_from isword words1 seen words2).
Proof.
  induction 1 as [|w words2 Hw Hws IH]; intros seen; simpl; [done|].
  apply Forall_app. split; [|apply IH].
  destruct (decide _); [by constructor|done].
Qed.

(** X4. The text that [remove_overlap(text1, text2)] returns has the words
    of [text1], all of them and as they are written, followed by the words
    of [text2] that were kept. *)
Theorem remove_overlap_words (text1 text2 : str) :
  split (remove_overlap isword text1 text2).1
  = split text1
    ++ kept_from isword (split (normalize_arabic isword text1)) []
         (split text2).
Proof.
  unfold remove_overlap. cbv zeta. rewrite drop_counted_kept.
  pose proof (kept_from_Forall word
                (split (normalize_arabic isword text1)) (split text2)
                (split_words text2) []) as Hkept.
  destruct (kept_from _ _ _ _) as [|w kept] eqn:Hk.
  - cbn [fst]. by rewrite split_strip, app_nil_r.
  - cbn [fst]. change (strip text1 ++ [SPACE] ++ ?t) with (strip text1 ++ SPACE :: t).
    rewrite split_app_space by apply isspace_SPACE.
    by rewrite !split_strip, split_join.
Qed.

End Words.

Lemma get_first_last_words_windows_witness :
  split (get_first_last_words isword_table (of_ascii "In the  Name!") 2).1
  = [of_ascii "In"; of_ascii "the"]
  ∧ split (get_first_last_words isword_table (of_ascii "In the  Name!") 2).2
    = [of_ascii "the"; of_ascii "Name"].
Proof.
  pose proof (get_first_last_words_windows isword_table
                (of_ascii "In the  Name!") 2 eq_refl) as (Hfirst & Hlast & _).
  split; [exact Hfirst|exact Hlast].
Defined.

End LegacyWordsFacts.

(** ** The range of the ratio *)

Module RatioFacts.
Import PyStr Difflib DifflibFacts.

Section Blocks.
Variables a b : str.

(** The room that the ranges of the queue leave in [a] and in [b]. *)
Definition room_a (queue : list (nat * nat * nat * nat)) : nat :=
  sum_list ((λ '(alo, ahi, _, _), ahi - alo) <$> queue).

Definition room_b (queue : list (nat * nat * nat * nat)) : nat :=
  sum_list ((λ '(_, _, blo, bhi), bhi - blo) <$> queue).

Definition total_size (blocks : list Match) : nat :=
  sum_list (size_of <$> blocks).

Lemma total_size_cons m blocks :
  total_size (m :: blocks) = size_of m + total_size blocks.
Proof. done. Qed.

Lemma total_size_snoc blocks m :
  total_size (blocks ++ [m]) = total_size blocks + size_of m.
Proof.
  unfold total_size. rewrite fmap_app, sum_list_with_app. simpl. lia.
Qed.

Lemma room_a_cons alo ahi blo bhi queue :
  room_a ((alo, ahi, blo, bhi) :: queue) = ahi - alo + room_a queue.
Proof. done. Qed.

Lemma room_b_cons alo ahi blo bhi queue :
  room_b ((alo, ahi, blo, bhi) :: queue) = bhi - blo + room_b queue.
Proof. done. Qed.

(** A block found in a range takes its size from the room of the range,
    in [a] and in [b]. *)
Lemma matching_loop_room fuel :
  ∀ queue blocks out,
    Forall range_ok queue →
    matching_loop a b fuel queue blocks = Some out →
    total_size out ≤ total_size blocks + room_a queue
    ∧ total_size out ≤ total_size blocks + room_b queue.
Proof.
  induction fuel as [|fuel IH]; intros queue blocks out Hq Hrun.
  { destruct queue as [|[[[alo ahi] blo] bhi] queue]; [|done].
    simpl in Hrun. simplify_eq. lia. }
  destruct queue as [|[[[alo ahi] blo] bhi] queue].
  { simpl in Hrun. simplify_eq. lia. }
  apply Forall_cons in Hq as [[Ha Hb] Hq].
  cbn [matching_loop] in Hrun.
  pose proof (find_longest_match_in a b alo ahi blo bhi Ha Hb) as Hm.
  destruct (find_longest_match a b alo ahi blo bhi) as [[i j] k].
  simpl in Hm. destruct Hm as (Hi & Hik & Hj & Hjk).
  rewrite room_a_cons, room_b_cons.
  destruct (k =? 0) eqn:Hk.
  { apply IH in Hrun as [H1 H2]; [lia|done]. }
  apply IH in Hrun as [H1 H2].
  - rewrite total_size_snoc in H1, H2. cbn [size_of snd] in H1, H2.
    revert H1 H2.
    destruct ((alo <? i) && (blo <? j));
      destruct ((i + k <? ahi) && (j + k <? bhi));
      rewrite ?room_a_cons, ?room_b_cons; lia.
  - destruct ((alo <? i) && (blo <? j)) eqn:H1;
      destruct ((i + k <? ahi) && (j + k <? bhi)) eqn:H2;
      repeat (apply Forall_cons; split); try done;
      repeat match goal with
             | H : _ && _ = true |- _ =>
                 apply andb_prop in H as [?%Nat.ltb_lt ?%Nat.ltb_lt]
             end; simpl; lia.
Qed.

End Blocks.

Lemma total_size_insert_sorted x l :
  total_size (insert_sorted x l) = size_of x + total_size l.
Proof.
  induction l as [|y l IH]; [done|]. simpl.
  destruct (match_le x y); [done|].
  rewrite !total_size_cons, IH. lia.
Qed.

Lemma total_size_sort l : total_size (sort l) = total_size l.
Proof.
  induction l as [|x l IH]; [done|].
  cbn [sort foldr]. fold (sort l).
  by rewrite total_size_insert_sorted, IH.
Qed.

(** Joining adjacent blocks keeps the number of matched elements. *)
Lemma total_size_join_adjacent blocks :
  ∀ cur non_adjacent,
    let out := join_adjacent cur blocks non_adjacent in
    size_of out.1 + total_size out.2
    = size_of cur + total_size blocks + total_size non_adjacent.
Proof.
  induction blocks as [|[[i2 j2] k2] blocks IH];
    intros [[i1 j1] k1] non_adjacent; cbv zeta.
  { simpl. unfold total_size. simpl. lia. }
  cbn [join_adjacent]. rewrite total_size_cons.
  destruct ((i1 + k1 =? i2) && (j1 + k1 =? j2)).
  - rewrite IH. cbn [size_of snd]. lia.
  - rewrite IH. cbn [size_of snd]. destruct (k1 =? 0) eqn:Hk.
    + apply Nat.eqb_eq in Hk. lia.
    + rewrite total_size_snoc. cbn [size_of snd]. lia.
Qed.

(** The matched elements fit in either sequence. *)
Lemma get_matching_blocks_size a b blocks :
  get_matching_blocks a b = Some blocks →
  total_size blocks ≤ length a ∧ total_size blocks ≤ length b.
Proof.
  unfold get_matching_blocks. cbv zeta.
  destruct (matching_loop a b _ _ _) as [found|] eqn:Hloop; [|done].
  cbn [mbind option_bind].
  apply matching_loop_room in Hloop.
  2:{ constructor; [|done]. simpl. lia. }
  pose proof (total_size_join_adjacent (sort found) (0, 0, 0) []) as Hjoin.
  cbv zeta in Hjoin. rewrite total_size_sort in Hjoin.
  destruct (join_adjacent _ _ _) as [[[i1 j1] k1] non_adjacent].
  intros [= <-]. rewrite total_size_snoc. cbn [size_of snd fst] in *.
  unfold room_a, room_b in Hloop. simpl in Hloop.
  destruct (k1 =? 0) eqn:Hk.
  - apply Nat.eqb_eq in Hk. unfold total_size in *. simpl in *. lia.
  - rewrite total_size_snoc. unfold total_size in *. simpl in *. lia.
Qed.

Lemma calculate_ratio_range matches len :
  2 * matches ≤ len →
  (0 <= calculate_ratio matches len)%Q ∧ (calculate_ratio matches len <= 1)%Q.
Proof.
  intros Hm. unfold calculate_ratio.
  destruct (len =? 0) eqn:Hlen; [done|].
  apply Nat.eqb_neq in Hlen.
  assert (0 < inject_Z (Z.of_nat len))%Q as Hpos.
  { rewrite <- (Zlt_Qlt 0). lia. }
  split.
  - apply Qle_shift_div_l; [done|]. rewrite Qmult_0_l.
    change 2%Q with (inject_Z 2). rewrite <- inject_Z_mult.
    rewrite <- (Zle_Qle 0). lia.
  - apply Qle_shift_div_r; [done|]. rewrite Qmult_1_l.
    change 2%Q with (inject_Z 2). rewrite <- inject_Z_mult.
    rewrite <- Zle_Qle. lia.
Qed.

(** X5. [similarity(a, b)] has a value for every two texts, and the value
    lies between 0 and 1: the matcher's loop ends, and the elements it
    matches fit in either text. *)
Theorem similarity_in_unit_interval (a b : str) :
  ∃ q, AlignSegments.similarity a b = Some q ∧ (0 <= q)%Q ∧ (q <= 1)%Q.
Proof.
  unfold AlignSegments.similarity.
  destruct (ratio_total a b) as [q Hq]. exists q. split; [done|].
  unfold ratio in Hq.
  destruct (get_matching_blocks a b) as [blocks|] eqn:Hblocks; [|done].
  simpl in Hq. simplify_eq.
  apply get_matching_blocks_size in Hblocks as [Ha Hb].
  apply calculate_ratio_range. unfold total_size in *. lia.
Qed.

End RatioFacts.

(** ** The cascades that are found *)

Module CascadeFacts.
Import PyStr Py PyFacts CascadeRecovery CascadeRecoveryFacts.

(** The test of both loops of [find_cascade_sequences]:
    [i < len(results) and results[i].similarity_score < threshold]. *)
Definition is_low (results : list AlignmentResult.t) (threshold : Q)
    (i : nat) : bool :=
  match results !! i with
  | Some r => Qlt_bool (AlignmentResult.similarity_score r) threshold
  | None => false
  end.

(** A maximal run of low results: the results from [s] up to [e], [e]
    excluded, are low, and neither the result before nor the result after
    is. *)
Definition low_run (results : list AlignmentResult.t) (threshold : Q)
    (s e : nat) : bool :=
  (s <? e)
  && forallb (is_low results threshold) (seq s (e - s))
  && negb (is_low results threshold e)
  && match s with
     | 0 => true
     | S s' => negb (is_low results threshold s')
     end.

(** Cascades in increasing order, each one starting after the end of the
    one before, and none before [lo]. *)
Fixpoint separated (lo : nat) (cascades : list (nat * nat)) : Prop :=
  match cascades with
  | [] => True
  | (s, e) :: cascades' => lo ≤ s ∧ s < e ∧ separated (S e) cascades'
  end.

Lemma separated_weaken lo lo' cascades :
  lo' ≤ lo → separated lo cascades → separated lo' cascades.
Proof.
  destruct cascades as [|[s e] cascades]; [done|].
  simpl. intros Hlo (Hs & He & Hrest). split_and!; [lia|done|done].
Qed.

Lemma low_run_bounds results threshold s e :
  low_run results threshold s e = true → s < e ∧ e ≤ length results.
Proof.
  unfold low_run. intros Hrun.
  apply andb_prop in Hrun as [Hrun _]. apply andb_prop in Hrun as [Hrun _].
  apply andb_prop in Hrun as [Hse%Nat.ltb_lt Hall].
  split; [done|]. rewrite forallb_forall in Hall.
  specialize (Hall (e - 1)). unfold is_low in Hall.
  destruct (results !! (e - 1)) eqn:Hr.
  - apply lookup_lt_Some in Hr. lia.
  - discriminate Hall. apply in_seq. lia.
Qed.

Lemma low_run_end_spec results threshold room :
  ∀ i,
    length results ≤ i + room →
    let e := low_run_end results threshold room i in
    i ≤ e
    ∧ forallb (is_low results threshold) (seq i (e - i)) = true
    ∧ is_low results threshold e = false.
Proof.
  induction room as [|room IH]; intros i Hlen; cbv zeta.
  { simpl. rewrite Nat.sub_diag. split_and!; [done|done|].
    unfold is_low. by rewrite lookup_ge_None_2 by lia. }
  cbn [low_run_end]. unfold is_low at 2.
  destruct (results !! i) as [r|] eqn:Hr.
  2:{ rewrite Nat.sub_diag. split_and!; [done|done|].
      unfold is_low. by rewrite Hr. }
  destruct (Qlt_bool _ _) eqn:Hlow.
  2:{ rewrite Nat.sub_diag. split_and!; [done|done|].
      unfold is_low. by rewrite Hr. }
  destruct (IH (S i)) as (Hle & Hall & Hend); [lia|].
  split_and!; [lia| |done].
  replace (low_run_end results threshold room (S i) - i)
    with (S (low_run_end results threshold room (S i) - S i)) by lia.
  cbn [seq forallb]. rewrite Hall. unfold is_low. by rewrite Hr, Hlow.
Qed.

(** The place [i] is not inside a run: it is low only if the result
    before it is not. *)
Definition at_boundary (results : list AlignmentResult.t) (threshold : Q)
    (i : nat) : Prop :=
  is_low results threshold i = true →
  match i with 0 => True | S i' => is_low results threshold i' = false end.

Lemma cascades_from_runs results threshold min_len fuel :
  ∀ i cascades,
    at_boundary results threshold i →
    ∃ new,
      cascades_from results threshold min_len fuel i cascades
      = cascades ++ new
      ∧ separated i new
      ∧ Forall (λ c, low_run results threshold c.1 c.2 = true
                     ∧ (min_len <= Z.of_nat c.2 - Z.of_nat c.1)%Z) new.
Proof.
  induction fuel as [|fuel IH]; intros i cascades Hb; cbn [cascades_from].
  { exists []. by rewrite app_nil_r. }
  destruct (results !! i) as [r|] eqn:Hr.
  2:{ exists []. by rewrite app_nil_r. }
  pose proof (lookup_lt_Some _ _ _ Hr) as Hlt.
  destruct (Qlt_bool _ _) eqn:Hlow.
  - set (e := low_run_end results threshold (length results - i) i).
    destruct (low_run_end_spec results threshold (length results - i) i)
      as (Hle & Hall & Hend); [lia|]. fold e in Hle, Hall, Hend.
    assert (i < e) as Hie.
    { destruct (decide (i = e)) as [Heq|]; [|lia].
      rewrite <- Heq in Hend. unfold is_low in Hend.
      by rewrite Hr, Hlow in Hend. }
    assert (low_run results threshold i e = true) as Hrun.
    { unfold low_run. rewrite Hall, Hend.
      replace (i <? e) with true by (symmetry; apply Nat.ltb_lt; lia).
      simpl. unfold at_boundary, is_low in Hb. rewrite Hr, Hlow in Hb.
      specialize (Hb eq_refl). destruct i as [|i']; [done|].
      fold (is_low results threshold i') in Hb. by rewrite Hb. }
    destruct (IH e (if (min_len <=? Z.of_nat e - Z.of_nat i)%Z
                    then cascades ++ [(i, e)] else cascades))
      as (new & -> & Hsep & Hnew).
    { intros Hlow'. by rewrite Hlow' in Hend. }
    destruct (min_len <=? Z.of_nat e - Z.of_nat i)%Z eqn:Hmin.
    + exists ((i, e) :: new). rewrite <- app_assoc. split; [done|].
      split.
      * simpl. split_and!; [done|done|].
        destruct new as [|[s' e'] new]; [done|].
        simpl in Hsep |- *. destruct Hsep as (Hs' & He' & Hrest).
        split_and!; [|done|done].
        destruct (decide (s' = e)) as [->|]; [|lia].
        apply Forall_cons in Hnew as [[Hrun' _] _]. simpl in Hrun'.
        unfold low_run in Hrun'.
        replace (e' - e) with (S (e' - S e)) in Hrun' by lia.
        cbn [seq forallb] in Hrun'. rewrite Hend in Hrun'.
        by rewrite andb_false_r in Hrun'.
      * constructor; [|done]. simpl. split; [done|]. by apply Z.leb_le.
    + exists new. split; [done|]. split; [|done].
      eapply separated_weaken; [|done]. lia.
  - destruct (IH (S i) cascades) as (new & -> & Hsep & Hnew).
    { intros _. unfold is_low. by rewrite Hr, Hlow. }
    exists new. split; [done|]. split; [|done].
    eapply separated_weaken; [|done]. lia.
Qed.

(** X6. Every cascade [(s, e)] that [find_cascade_sequences] reports is a
    maximal run of low results: the results [s .. e-1] are all below the
    threshold, the results at [s-1] and at [e], where the list has them, are
    not, and the run has at least [min_cascade_length] results. The cascades
    come in increasing order, and between two of them lies at least one
    result that is not low. *)
Theorem find_cascade_sequences_runs (results : list AlignmentResult.t)
    (threshold : Q) (min_cascade_length : Z) :
  let cascades :=
    find_cascade_sequences results threshold min_cascade_length in
  separated 0 cascades
  ∧ Forall
      (λ c, low_run results threshold c.1 c.2 = true
            ∧ c.2 ≤ length results
            ∧ (min_cascade_length <= Z.of_nat c.2 - Z.of_nat c.1)%Z)
      cascades.
Proof.
  cbv zeta. unfold find_cascade_sequences.
  destruct (cascades_from_runs results threshold min_cascade_length
              (length results) 0 []) as (new & -> & Hsep & Hnew); [done|].
  rewrite app_nil_l. split; [done|].
  eapply Forall_impl; [exact Hnew|]. intros [s e] [Hrun Hmin]. simpl in *.
  split_and!; [done| |done]. by apply low_run_bounds in Hrun as [_ ?].
Qed.

Lemma low_run_end_first results threshold room i e :
  length results ≤ i + room → i ≤ e →
  forallb (is_low results threshold) (seq i (e - i)) = true →
  is_low results threshold e = false →
  low_run_end results threshold room i = e.
Proof.
  intros Hlen Hie Hall Hend.
  destruct (low_run_end_spec results threshold room i Hlen)
    as (Hle & Hall' & Hend').
  set (e' := low_run_end results threshold room i) in *.
  rewrite forallb_forall in Hall, Hall'.
  destruct (Nat.lt_trichotomy e e') as [Hlt|[Heq|Hgt]]; [|done|].
  - rewrite Hall' in Hend; [done|]. apply in_seq. lia.
  - rewrite Hall in Hend'; [done|]. apply in_seq. lia.
Qed.

Lemma cascades_from_complete results threshold min_len s e :
  low_run results threshold s e = true →
  (min_len <= Z.of_nat e - Z.of_nat s)%Z →
  ∀ fuel i cascades,
    at_boundary results threshold i → length results ≤ i + fuel → i ≤ s →
    (s, e) ∈ cascades_from results threshold min_len fuel i cascades.
Proof.
  intros Hrun Hmin.
  pose proof (low_run_bounds _ _ _ _ Hrun) as [Hse Hlen].
  unfold low_run in Hrun.
  apply andb_prop in Hrun as [Hrun Hbefore].
  apply andb_prop in Hrun as [Hrun Hend]. apply negb_true_iff in Hend.
  apply andb_prop in Hrun as [_ Hall].
  assert (is_low results threshold s = true) as Hs.
  { rewrite forallb_forall in Hall. apply Hall, in_seq. lia. }
  induction fuel as [|fuel IH]; intros i cascades Hb Hfuel His; [lia|].
  cbn [cascades_from].
  destruct (results !! i) as [r|] eqn:Hr.
  2:{ apply lookup_ge_None in Hr. lia. }
  pose proof (lookup_lt_Some _ _ _ Hr) as Hlt.
  destruct (Qlt_bool _ _) eqn:Hlow.
  - destruct (low_run_end_spec results threshold (length results - i) i)
      as (Hle & Hall' & Hend'); [lia|].
    set (e' := low_run_end results threshold (length results - i) i) in *.
    assert (i < e') as Hie.
    { destruct (decide (i = e')) as [Heq|]; [|lia].
      rewrite <- Heq in Hend'. unfold is_low in Hend'.
      by rewrite Hr, Hlow in Hend'. }
    destruct (decide (i = s)) as [->|Hne].
    + assert (e' = e) as ->.
      { apply low_run_end_first; [lia|lia|done|done]. }
      replace (min_len <=? Z.of_nat e - Z.of_nat s)%Z with true
        by (symmetry; by apply Z.leb_le).
      destruct (cascades_from_runs results threshold min_len fuel e
                  (cascades ++ [(s, e)])) as (new & -> & _).
      { intros Hlow'. by rewrite Hlow' in Hend. }
      rewrite !elem_of_app, list_elem_of_singleton. by left; right.
    + apply IH; [|lia|].
      { intros Hlow'. by rewrite Hlow' in Hend'. }
      destruct s as [|s']; [lia|]. apply negb_true_iff in Hbefore.
      destruct (decide (e' ≤ S s')); [done|].
      rewrite forallb_forall in Hall'. rewrite Hall' in Hbefore; [done|].
      apply in_seq. lia.
  - apply IH; [|lia|].
    { intros _. unfold is_low. by rewrite Hr, Hlow. }
    destruct (decide (i = s)) as [->|]; [|lia].
    unfold is_low in Hs. by rewrite Hr, Hlow in Hs.
Qed.

(** X7. [find_cascade_sequences] reports every maximal run of low results
    that has at least [min_cascade_length] results. *)
Theorem find_cascade_sequences_complete (results : list AlignmentResult.t)
    (threshold : Q) (min_cascade_length : Z) (s e : nat) :
  low_run results threshold s e = true →
  (min_cascade_length <= Z.of_nat e - Z.of_nat s)%Z →
  (s, e) ∈ find_cascade_sequences results threshold min_cascade_length.
Proof.
  intros Hrun Hmin.
  apply (cascades_from_complete _ _ _ _ _ Hrun Hmin); [done|lia|lia].
Qed.

Lemma find_cascade_sequences_complete_witness :
  (3, 5) ∈ find_cascade_sequences Examples.five_results 0.7 2.
Proof.
  apply (find_cascade_sequences_complete Examples.five_results 0.7 2 3 5);
    reflexivity.
Defined.

(** Two results in a row that are both low. *)
Definition adjacent_low (results : list AlignmentResult.t) (threshold : Q)
    : bool :=
  existsb
    (λ i, is_low results threshold i && is_low results threshold (S i))
    (seq 0 (length results)).

Section Recovery.
Variable similarity : str → str → Q.
Variable compute_alignment_cost : str → str → Q.

(** X8. Isolated low results are left alone: when no two results in a
    row are below the threshold, and a cascade needs two results or more,
    [apply_cascade_recovery] returns the list it was given. *)
Theorem apply_cascade_recovery_isolated (segments : list Segment.t)
    (ayahs : list Ayah.t) (results : list AlignmentResult.t)
    (silences_ms : option (list (Z * Z))) (cascade_threshold : Q)
    (min_cascade_length : Z) :
  (2 <= min_cascade_length)%Z →
  adjacent_low results cascade_threshold = false →
  apply_cascade_recovery similarity compute_alignment_cost segments ayahs
    results silences_ms cascade_threshold min_cascade_length
  = Returned results.
Proof.
  intros Hmin Hadj. unfold apply_cascade_recovery.
  destruct results as [|r0 results']; [done|].
  set (results := r0 :: results') in *.
  destruct (find_cascade_sequences_runs results cascade_threshold
              min_cascade_length) as [_ Hruns].
  destruct (find_cascade_sequences results cascade_threshold
              min_cascade_length) as [|[s e] cascades]; [done|].
  apply Forall_cons in Hruns as [(Hrun & Hlen & Hlong) _].
  cbn [fst snd] in *.
  assert (adjacent_low results cascade_threshold = true) as Htrue;
    [|congruence].
  pose proof (low_run_bounds _ _ _ _ Hrun) as [Hse _].
  unfold low_run in Hrun.
  apply andb_prop in Hrun as [Hrun _]. apply andb_prop in Hrun as [Hrun _].
  apply andb_prop in Hrun as [_ Hall]. rewrite forallb_forall in Hall.
  apply existsb_exists. exists s. split; [apply in_seq; lia|].
  rewrite !Hall; [done|apply in_seq; lia|apply in_seq; lia].
Qed.

End Recovery.

Lemma apply_cascade_recovery_isolated_witness :
  apply_cascade_recovery Examples.sim Examples.cost Examples.two_segments
    Examples.three_ayahs CascadeExamples.isolated_results None 0.7 2
  = Returned CascadeExamples.isolated_results.
Proof.
  apply (apply_cascade_recovery_isolated Examples.sim Examples.cost
           Examples.two_segments Examples.three_ayahs
           CascadeExamples.isolated_results None 0.7 2); reflexivity.
Defined.

End CascadeFacts.

(** ** Silences and chunks *)

Module SilenceFacts.
Import PyStr Py PyFacts Hybrid WordFacts.

Lemma py_max_ge x y : (x <= py_max x y)%Q ∧ (y <= py_max x y)%Q.
Proof.
  unfold py_max. destruct (Qlt_bool x y) eqn:Hlt.
  - apply Qlt_bool_true in Hlt. split; [by apply Qlt_le_weak|apply Qle_refl].
  - apply Qlt_bool_false in Hlt. split; [apply Qle_refl|done].
Qed.

Lemma py_min_le x y : (py_min x y <= x)%Q ∧ (py_min x y <= y)%Q.
Proof.
  unfold py_min. destruct (Qlt_bool y x) eqn:Hlt.
  - apply Qlt_bool_true in Hlt. split; [by apply Qlt_le_weak|apply Qle_refl].
  - apply Qlt_bool_false in Hlt. split; [apply Qle_refl|done].
Qed.

(** X9. Every silence that [_find_silences_in_range] returns lies within
    the range [start_time, end_time] and within one of the silences it was
    given, and lasts [min_duration] or more; it returns no more silences
    than it was given. *)
Theorem find_silences_in_range_clipped (silences_sec : list (Q * Q))
    (start_time end_time min_duration : Q) :
  let found :=
    _find_silences_in_range silences_sec start_time end_time min_duration in
  Forall
    (λ c, (start_time <= c.1)%Q ∧ (c.2 <= end_time)%Q
          ∧ (min_duration <= c.2 - c.1)%Q
          ∧ ∃ sil, sil ∈ silences_sec ∧ (sil.1 <= c.1)%Q ∧ (c.2 <= sil.2)%Q)
    found
  ∧ length found ≤ length silences_sec.
Proof.
  cbv zeta. unfold _find_silences_in_range.
  induction silences_sec as [|[sil_start sil_end] silences [IH Hlen]];
    [by split|].
  cbn [omap list_omap].
  assert (Forall
            (λ c : Q * Q,
               (start_time <= c.1)%Q ∧ (c.2 <= end_time)%Q
               ∧ (min_duration <= c.2 - c.1)%Q
               ∧ ∃ sil, sil ∈ (sil_start, sil_end) :: silences
                        ∧ (sil.1 <= c.1)%Q ∧ (c.2 <= sil.2)%Q)
            (omap
               (λ '(sil_start, sil_end),
                  if Qlt_bool start_time sil_end
                     && Qlt_bool sil_start end_time
                  then
                    let clipped_start := py_max sil_start start_time in
                    let clipped_end := py_min sil_end end_time in
                    let duration := (clipped_end - clipped_start)%Q in
                    if Qle_bool min_duration duration
                    then Some (clipped_start, clipped_end)
                    else None
                  else None)
               silences)) as IH'.
  { eapply Forall_impl; [exact IH|].
    intros c (H1 & H2 & H3 & sil & Hin & H4).
    split_and!; [done..|]. exists sil. split; [by right|done]. }
  destruct (_ && _); [|split; [done|simpl; lia]].
  cbv zeta. destruct (Qle_bool _ _) eqn:Hdur; [|split; [done|simpl; lia]].
  split; [|simpl; lia].
  constructor; [|done]. cbn [fst snd].
  apply Qle_bool_iff in Hdur.
  split_and!;
    [apply py_max_ge|apply py_min_le|done|].
  exists (sil_start, sil_end). split; [by left|].
  split; [apply py_max_ge|apply py_min_le].
Qed.

(** The loop of [_split_segments_at_silences] moves every segment into
    the chunks or the current chunk, in order, and closes no empty chunk. *)
Lemma split_step_fold silences range_segments :
  ∀ chunks current_chunk silence_idx,
    Forall (λ chunk, chunk ≠ []) chunks →
    ∃ chunks' current' idx',
      fold_left (split_step silences) range_segments
        (chunks, current_chunk, silence_idx)
      = (chunks', current', idx')
      ∧ Forall (λ chunk, chunk ≠ []) chunks'
      ∧ concat chunks' ++ current'
        = concat chunks ++ current_chunk ++ range_segments.
Proof.
  induction range_segments as [|seg range_segments IH];
    intros chunks current_chunk silence_idx Hne.
  { eexists _, _, _. split; [done|]. by rewrite app_nil_r. }
  cbn [fold_left]. unfold split_step at 2.
  destruct (silences !! silence_idx) as [[sil_start sil_end]|].
  2:{ destruct (IH chunks (current_chunk ++ [seg]) silence_idx Hne)
        as (c' & cur' & i' & -> & Hne' & Hcat).
      eexists _, _, _. split; [done|]. split; [done|].
      by rewrite Hcat, <- app_assoc. }
  destruct (Qle_bool (Segment.end_ seg) sil_start).
  { destruct (IH chunks (current_chunk ++ [seg]) silence_idx Hne)
      as (c' & cur' & i' & -> & Hne' & Hcat).
    eexists _, _, _. split; [done|]. split; [done|].
    by rewrite Hcat, <- app_assoc. }
  destruct (Qle_bool sil_end (Segment.start seg)).
  - destruct current_chunk as [|s0 current_chunk].
    + destruct (IH chunks [seg] (S silence_idx) Hne)
        as (c' & cur' & i' & -> & Hne' & Hcat).
      eexists _, _, _. split; [done|]. split; [done|]. by rewrite Hcat.
    + destruct (IH (chunks ++ [s0 :: current_chunk]) [seg] (S silence_idx))
        as (c' & cur' & i' & -> & Hne' & Hcat).
      { apply Forall_app. split; [done|]. by constructor. }
      eexists _, _, _. split; [done|]. split; [done|].
      rewrite Hcat, concat_app. simpl. by rewrite app_nil_r, <- !app_assoc.
  - destruct (IH (chunks ++ [current_chunk ++ [seg]]) [] (S silence_idx))
      as (c' & cur' & i' & -> & Hne' & Hcat).
    { apply Forall_app. split; [done|]. constructor; [|done].
      by destruct current_chunk. }
    eexists _, _, _. split; [done|]. split; [done|].
    rewrite Hcat, concat_app. simpl. by rewrite app_nil_r, <- !app_assoc.
Qed.

(** X10. The chunks that [_split_segments_at_silences] returns are the
    segments of the range, each one once and in their order, cut into
    pieces none of which is empty: their concatenation is the list of the
    segments that start and end within half a second of the range. *)
Theorem split_segments_at_silences_partition (segments : list Segment.t)
    (silences_sec : list (Q * Q)) (start_time end_time : Q) :
  let range_segments :=
    filter
      (λ s, Qle_bool (start_time - 0.5) (Segment.start s)
            && Qle_bool (Segment.end_ s) (end_time + 0.5))
      segments in
  let chunks :=
    _split_segments_at_silences segments silences_sec start_time end_time in
  concat chunks = range_segments ∧ Forall (λ chunk, chunk ≠ []) chunks.
Proof.
  cbv zeta. unfold _split_segments_at_silences. cbv zeta.
  destruct (filter _ segments) as [|s0 range'] eqn:Hrange; [done|].
  set (range_segments := s0 :: range') in *.
  assert (concat [range_segments] = range_segments
          ∧ Forall (λ chunk, chunk ≠ []) [range_segments]) as Hone.
  { split; [by rewrite (concat_cons range_segments []), app_nil_r|].
    by constructor. }
  destruct (_find_silences_in_range _ _ _ _) as [|sil silences]; [done|].
  destruct (split_step_fold (sort_by_start (sil :: silences)) range_segments
              [] [] 0) as (chunks & current & idx & -> & Hne & Hcat);
    [done|].
  simpl in Hcat.
  destruct current as [|s1 current].
  - rewrite app_nil_r in Hcat. destruct chunks as [|c chunks]; [done|].
    done.
  - destruct (chunks ++ [s1 :: current]) as [|c chunks'] eqn:Hchunks.
    { by destruct chunks. }
    rewrite <- Hchunks. split.
    + by rewrite concat_app, (concat_cons _ []), app_nil_r.
    + apply Forall_app. split; [done|]. by constructor.
Qed.

End SilenceFacts.

(** ** What the hybrid strategy emits and counts *)

Module HybridResultFacts.
Import PyStr PyStrFacts Py PyFacts Hybrid HybridFacts WordFacts SilenceFacts.

(** [" ".join(texts).split()]: the words of the texts, in order. *)
Lemma split_join_texts (texts : list str) :
  split (join [SPACE] texts) = concat (split <$> texts).
Proof.
  induction texts as [|x texts IH]; [done|].
  destruct texts as [|y texts].
  - simpl. by rewrite app_nil_r.
  - rewrite join_cons.
    change (x ++ [SPACE] ++ ?t) with (x ++ SPACE :: t).
    rewrite split_app_space by apply isspace_SPACE.
    by rewrite IH.
Qed.

Lemma split_blank s : strip s = [] → split s = [].
Proof. intros Hs. by rewrite <- split_strip, Hs. Qed.

Lemma concat_split_filter (texts : list str) :
  concat (split <$> filter (λ t, strip t ≠ []) texts)
  = concat (split <$> texts).
Proof.
  induction texts as [|x texts IH]; [done|].
  rewrite filter_cons. destruct (decide (strip x ≠ [])) as [Hx|Hx].
  - rewrite !fmap_cons. simpl. by rewrite IH.
  - rewrite fmap_cons. simpl. rewrite IH.
    apply dec_stable in Hx. by rewrite (split_blank x Hx).
Qed.

Lemma concat_split_chunks (chunks : list (list Segment.t)) :
  concat (split <$> ((λ chunk, join [SPACE] (Segment.text <$> chunk))
                       <$> chunks))
  = concat ((split ∘ Segment.text) <$> concat chunks).
Proof.
  induction chunks as [|chunk chunks IH]; [done|].
  rewrite !fmap_cons. simpl. rewrite IH, split_join_texts.
  rewrite fmap_app, concat_app. f_equal.
  by rewrite <- list_fmap_compose.
Qed.

Section Strategy.
Variable similarity : str → str → Q.
Variable callback : Type.
Variable align_segments_greedy :
  list Segment.t → list Ayah.t → option (list (Z * Z))
  → outcome (list AlignmentResult.t).
Variable align_segments_dp_with_constraints :
  list Segment.t → list Ayah.t → option (list (Z * Z)) → option callback
  → outcome (list AlignmentResult.t).

(** X11. The text of a result that [_try_split_and_restitch] returns has
    the words of the segments that start and end within half a second of
    the DP result's time range, all of them and in their order; there are
    two such segments or more; and the score of the result is the
    similarity of this text to the text of the āya. *)
Theorem try_split_and_restitch_words (segments : list Segment.t)
    (ayah : Ayah.t) (dp_result r : AlignmentResult.t)
    (silences_ms : option (list (Z * Z))) :
  _try_split_and_restitch similarity segments ayah dp_result silences_ms
  = Some r →
  let range_segments :=
    filter
      (λ s, Qle_bool (AlignmentResult.start_time dp_result - 0.5)
              (Segment.start s)
            && Qle_bool (Segment.end_ s)
                 (AlignmentResult.end_time dp_result + 0.5))
      segments in
  split (AlignmentResult.transcribed_text r)
  = concat ((split ∘ Segment.text) <$> range_segments)
  ∧ 2 ≤ length range_segments
  ∧ AlignmentResult.similarity_score r
    = similarity (AlignmentResult.transcribed_text r) (Ayah.text ayah).
Proof.
  unfold _try_split_and_restitch. intros Hrun. cbv zeta.
  destruct silences_ms as [[|sil silences_ms]|]; [done| |done].
  destruct (split_segments_at_silences_partition segments
              (ms_to_sec <$> sil :: silences_ms)
              (AlignmentResult.start_time dp_result)
              (AlignmentResult.end_time dp_result)) as [Hcat Hne].
  set (chunks := _split_segments_at_silences _ _ _ _) in *.
  destruct (length chunks <=? 1) eqn:Hlen; [done|].
  apply Nat.leb_gt in Hlen.
  destruct (filter _ (_ <$> chunks)) as [|t texts] eqn:Htexts; [done|].
  destruct (Qlt_bool _ _); [|done]. simplify_eq.
  cbn [AlignmentResult.transcribed_text AlignmentResult.similarity_score].
  split_and!; [| |done].
  - rewrite <- Htexts, split_join_texts, concat_split_filter.
    by rewrite concat_split_chunks, Hcat.
  - rewrite <- Hcat.
    destruct chunks as [|c1 [|c2 chunks]]; simpl in Hlen; [lia|lia|].
    apply Forall_cons in Hne as [H1 Hne].
    apply Forall_cons in Hne as [H2 _].
    simpl. rewrite !length_app.
    destruct c1; [done|]. destruct c2; [done|]. simpl. lia.
Qed.

(** What [improve] returns for a DP result: the DP result itself with the
    source "dp", or a result with a strictly higher score for the same āya
    number with another source. *)
Lemma improve_source segments silences_ms old_results words dur dp_r :
  let out :=
    improve similarity segments silences_ms (build_old_by_ayah old_results)
      words dur dp_r in
  (out.2 = src_dp ∧ out.1 = dp_r)
  ∨ (out.2 ≠ src_dp
     ∧ (AlignmentResult.similarity_score dp_r
        < AlignmentResult.similarity_score out.1)%Q
     ∧ Ayah.ayah_number (AlignmentResult.ayah out.1)
       = Ayah.ayah_number (AlignmentResult.ayah dp_r)).
Proof.
  cbv zeta. unfold improve. rewrite build_old_by_ayah_lookup.
  assert (∀ o, stored_under (Ayah.ayah_number (AlignmentResult.ayah dp_r))
                 old_results = Some o →
               Ayah.ayah_number (AlignmentResult.ayah o)
               = Ayah.ayah_number (AlignmentResult.ayah dp_r)) as Hold.
  { unfold stored_under. intros o Ho%last_Some_elem_of.
    by apply list_elem_of_filter in Ho as [Ho _]. }
  assert (∀ s, _try_split_and_restitch similarity segments
                 (AlignmentResult.ayah dp_r) dp_r silences_ms = Some s →
               AlignmentResult.ayah s = AlignmentResult.ayah dp_r) as Hsplit.
  { unfold _try_split_and_restitch. intros s Hs.
    destruct silences_ms as [[|sil silences]|]; [done| |done].
    destruct (_ <=? 1); [done|].
    destruct (filter _ _); [done|].
    destruct (Qlt_bool _ _); [|done]. by simplify_eq. }
  destruct (stored_under _ _) as [o|];
    [specialize (Hold o eq_refl)|clear Hold];
    (destruct (is_long_ayah words dur dp_r);
     [destruct (_try_split_and_restitch _ _ _ _ _) as [s|];
      [specialize (Hsplit s eq_refl)|clear Hsplit]|clear Hsplit]);
    repeat match goal with
      | |- context [Qlt_bool ?x ?y] =>
          let H := fresh "H" in
          destruct (Qlt_bool x y) eqn:H;
          [apply Qlt_bool_true in H|apply Qlt_bool_false in H]; cbn [fst snd]
      end;
    cbn [fst snd];
    first [by left
          |right; split_and!; [done| |congruence]; first
             [done|eapply Qlt_trans; eassumption]].
Qed.

(** The number of items of a list that pass a test. *)
Definition count {A} (test : A → bool) (l : list A) : nat :=
  length (filter (λ x, test x) l).

Lemma count_cons {A} (test : A → bool) x l :
  count test (x :: l) = (if test x then 1 else 0) + count test l.
Proof.
  unfold count. rewrite filter_cons. by destruct (test x).
Qed.

(** The three cases of a DP result [d] and the result [r] emitted for
    it. *)
Definition kept (quality_threshold : Q) (d : AlignmentResult.t) : bool :=
  Qle_bool quality_threshold (AlignmentResult.similarity_score d).

Definition replaced (quality_threshold : Q)
    (p : AlignmentResult.t * AlignmentResult.t) : bool :=
  negb (kept quality_threshold p.1)
  && Qlt_bool (AlignmentResult.similarity_score p.1)
       (AlignmentResult.similarity_score p.2).

Definition left_low (quality_threshold : Q)
    (p : AlignmentResult.t * AlignmentResult.t) : bool :=
  negb (kept quality_threshold p.1)
  && negb (Qlt_bool (AlignmentResult.similarity_score p.1)
             (AlignmentResult.similarity_score p.2)).

(** What is emitted for a DP result [d]: [d] itself, or in its place a
    result for the same āya number that scores strictly higher, and this
    only when [d] is below the threshold. *)
Definition emitted_or_replaced (quality_threshold : Q)
    (d r : AlignmentResult.t) : Prop :=
  r = d
  ∨ (kept quality_threshold d = false
     ∧ (AlignmentResult.similarity_score d
        < AlignmentResult.similarity_score r)%Q
     ∧ Ayah.ayah_number (AlignmentResult.ayah r)
       = Ayah.ayah_number (AlignmentResult.ayah d)).

Lemma hybrid_loop_counts segments silences_ms old_results threshold words
    dur dp_results :
  ∀ final stats,
    ∃ emitted stats',
      fold_left
        (hybrid_step similarity segments silences_ms
           (build_old_by_ayah old_results) threshold words dur)
        dp_results (final, stats)
      = (final ++ emitted, stats')
      ∧ Forall2 (emitted_or_replaced threshold) dp_results emitted
      ∧ dp_kept stats' = dp_kept stats + count (kept threshold) dp_results
      ∧ still_low stats'
        = still_low stats
          + count (left_low threshold) (zip dp_results emitted)
      ∧ old_fallback stats' + split_improved stats'
        = old_fallback stats + split_improved stats
          + count (replaced threshold) (zip dp_results emitted).
Proof.
  induction dp_results as [|dp_r dp_results IH]; intros final stats.
  { exists [], stats. rewrite app_nil_r. simpl.
    split_and!; [done|constructor|unfold count; simpl; lia..]. }
  cbn [fold_left].
  assert (∃ r stats1,
            hybrid_step similarity segments silences_ms
              (build_old_by_ayah old_results) threshold words dur
              (final, stats) dp_r = (final ++ [r], stats1)
            ∧ emitted_or_replaced threshold dp_r r
            ∧ dp_kept stats1
              = dp_kept stats + (if kept threshold dp_r then 1 else 0)
            ∧ still_low stats1
              = still_low stats
                + (if left_low threshold (dp_r, r) then 1 else 0)
            ∧ old_fallback stats1 + split_improved stats1
              = old_fallback stats + split_improved stats
                + (if replaced threshold (dp_r, r) then 1 else 0))
    as (r & stats1 & -> & Hr & Hkept & Hlow & Hrep).
  { unfold hybrid_step, emitted_or_replaced, left_low, replaced, kept.
    cbn [fst snd].
    destruct (Qle_bool threshold _) eqn:Hq.
    - eexists _, _. split_and!; [done|by left|simpl; lia..].
    - pose proof (improve_source segments silences_ms old_results words dur
                    dp_r) as Hsrc.
      destruct (improve _ _ _ _ _ _ _) as [best src]. cbv zeta in Hsrc.
      cbn [fst snd] in Hsrc.
      eexists _, _. split; [done|].
      destruct Hsrc as [[-> ->]|(Hsrc & Hlt & Hnum)].
      + assert (Qlt_bool (AlignmentResult.similarity_score dp_r)
                  (AlignmentResult.similarity_score dp_r) = false) as ->.
        { apply Qlt_bool_false, Qle_refl. }
        assert (Qlt_bool (AlignmentResult.similarity_score dp_r) threshold
                = true) as ->.
        { unfold Qlt_bool. by rewrite Hq. }
        split_and!; [by left|simpl; lia..].
      + assert (Qlt_bool (AlignmentResult.similarity_score dp_r)
                  (AlignmentResult.similarity_score best) = true) as ->.
        { by apply Qlt_bool_true. }
        split_and!; [by right|destruct src; simpl; done || lia..]. }
  destruct (IH (final ++ [r]) stats1)
    as (emitted & stats' & -> & Hem & Hkept' & Hlow' & Hrep').
  exists (r :: emitted), stats'. rewrite <- app_assoc.
  cbn [zip zip_with]. rewrite !count_cons.
  split_and!; [done|by constructor|lia..].
Qed.

(** X12. When the DP aligner returns results, the strategy emits for each
    of them, in order, either the DP result itself or a result for the same
    āya number whose score is strictly higher; a DP result at or above
    the threshold is never replaced. So the emitted list covers the same
    āya numbers as the DP results and no score goes down. *)
Theorem hybrid_replaces_by_better (segments : list Segment.t)
    (ayahs : list Ayah.t) (silences_ms : option (list (Z * Z)))
    (quality_threshold : Q) (long_ayah_words : Z) (long_ayah_duration : Q)
    (on_progress : option callback)
    (dp_results old_results : list AlignmentResult.t) :
  segments ≠ [] → ayahs ≠ [] →
  align_segments_dp_with_constraints segments ayahs silences_ms on_progress
  = Returned dp_results →
  dp_results ≠ [] →
  align_segments_greedy segments ayahs silences_ms = Returned old_results →
  ∃ final stats,
    align_segments_hybrid similarity callback align_segments_greedy
      align_segments_dp_with_constraints segments ayahs silences_ms
      quality_threshold long_ayah_words long_ayah_duration on_progress
    = Returned (final, stats)
    ∧ Forall2 (emitted_or_replaced quality_threshold) dp_results final.
Proof.
  intros Hseg Hay Hdp Hne Hgreedy. unfold align_segments_hybrid.
  destruct segments as [|seg segments]; [done|].
  destruct ayahs as [|ay ayahs]; [done|].
  rewrite Hdp. simpl. destruct dp_results as [|dp_r dp_results]; [done|].
  rewrite Hgreedy. simpl.
  destruct (hybrid_loop_counts (seg :: segments) silences_ms old_results
              quality_threshold long_ayah_words long_ayah_duration
              (dp_r :: dp_results) []
              (mkStats (S (length ayahs)) 0 0 0 0))
    as (emitted & stats' & Hloop & Hem & _).
  simpl in Hloop. rewrite Hloop. by exists emitted, stats'.
Qed.

(** X13. What the counters count when the DP aligner returns results:
    [dp_kept] is the number of DP results at or above the threshold,
    [still_low] the number of DP results below it that were emitted as they
    are, and [old_fallback + split_improved] the number of DP results below
    it that were replaced. A result that replaces a low DP result is counted
    as a fallback or an improvement whether or not it reaches the
    threshold. *)
Theorem hybrid_stats_meaning (segments : list Segment.t)
    (ayahs : list Ayah.t) (silences_ms : option (list (Z * Z)))
    (quality_threshold : Q) (long_ayah_words : Z) (long_ayah_duration : Q)
    (on_progress : option callback)
    (dp_results old_results : list AlignmentResult.t) :
  segments ≠ [] → ayahs ≠ [] →
  align_segments_dp_with_constraints segments ayahs silences_ms on_progress
  = Returned dp_results →
  dp_results ≠ [] →
  align_segments_greedy segments ayahs silences_ms = Returned old_results →
  ∃ final stats,
    align_segments_hybrid similarity callback align_segments_greedy
      align_segments_dp_with_constraints segments ayahs silences_ms
      quality_threshold long_ayah_words long_ayah_duration on_progress
    = Returned (final, stats)
    ∧ dp_kept stats = count (kept quality_threshold) dp_results
    ∧ still_low stats
      = count (left_low quality_threshold) (zip dp_results final)
    ∧ old_fallback stats + split_improved stats
      = count (replaced quality_threshold) (zip dp_results final).
Proof.
  intros Hseg Hay Hdp Hne Hgreedy. unfold align_segments_hybrid.
  destruct segments as [|seg segments]; [done|].
  destruct ayahs as [|ay ayahs]; [done|].
  rewrite Hdp. simpl. destruct dp_results as [|dp_r dp_results]; [done|].
  rewrite Hgreedy. simpl.
  destruct (hybrid_loop_counts (seg :: segments) silences_ms old_results
              quality_threshold long_ayah_words long_ayah_duration
              (dp_r :: dp_results) []
              (mkStats (S (length ayahs)) 0 0 0 0))
    as (emitted & stats' & Hloop & _ & Hkept & Hlow & Hrep).
  simpl in Hloop. rewrite Hloop. exists emitted, stats'.
  simpl in Hkept, Hlow, Hrep. by split_and!.
Qed.

End Strategy.

Import Examples.

Lemma try_split_and_restitch_words_witness :
  ∃ r,
    _try_split_and_restitch sim two_segments long_ayah weak_result
      one_silence = Some r
    ∧ split (AlignmentResult.transcribed_text r)
      = [of_ascii "ab"; of_ascii "cd"].
Proof.
  eexists. split; [by vm_compute|].
  eapply (try_split_and_restitch_words sim two_segments long_ayah
            weak_result _ one_silence). by vm_compute.
Defined.

Lemma hybrid_replaces_by_better_witness :
  ∃ final stats,
    align_segments_hybrid sim unit (greedy_returning greedy_results)
      (dp_returning dp_results) two_segments three_ayahs
      one_silence 0.85 30 30.0 None
    = Returned (final, stats)
    ∧ Forall2 (emitted_or_replaced 0.85) dp_results final.
Proof.
  apply (hybrid_replaces_by_better sim unit (greedy_returning greedy_results)
           (dp_returning dp_results) two_segments three_ayahs
           one_silence 0.85 30 30.0 None dp_results greedy_results);
    done.
Defined.

Lemma hybrid_stats_meaning_witness :
  ∃ final stats,
    align_segments_hybrid sim unit (greedy_returning greedy_results)
      (dp_returning dp_results) two_segments three_ayahs
      one_silence 0.85 30 30.0 None
    = Returned (final, stats)
    ∧ dp_kept stats = 1 ∧ still_low stats = 0
    ∧ old_fallback stats + split_improved stats = 2.
Proof.
  destruct (hybrid_stats_meaning sim unit (greedy_returning greedy_results)
              (dp_returning dp_results) two_segments three_ayahs
              one_silence 0.85 30 30.0 None dp_results greedy_results)
    as (final & stats & Hrun & Hkept & Hlow & Hrep); [done..|].
  exists final, stats. split; [done|].
  vm_compute in Hrun. simplify_eq. by vm_compute.
Defined.

End HybridResultFacts.

(** ** What one recovery and the whole pass guarantee *)

Module RecoveryGateFacts.
Import PyStr Py PyFacts CascadeRecovery CascadeRecoveryFacts.

(** The gate accepts nothing for a window of fewer than two results. *)
Lemma accept_length old_results_range new_results r :
  accept old_results_range new_results = Some r →
  2 ≤ length old_results_range.
Proof.
  unfold accept. intros Hacc.
  destruct (existsb _ _); [done|].
  destruct old_results_range as [|o1 [|o2 old]]; [|done|simpl; lia].
  by vm_compute in Hacc.
Qed.

Section Recovery.
Variable similarity : str → str → Q.
Variable compute_alignment_cost : str → str → Q.

(** X14. [_recover_cascade_with_resync], for a cascade that starts inside
    the list: the call returns, and a replacement that it returns has two
    results or more, one for each result of the window and with the same
    āya; no result of the window loses more than the gate allows (0.08 from
    0.75 on, 0.12 from 0.5 on, and none that had 0.75 falls under 0.70);
    and the average over the window without its first result, and without
    its last one when it has more than two, goes up by more than 0.08. *)
Theorem recover_cascade_gate (segments : list Segment.t)
    (ayahs : list Ayah.t) (results : list AlignmentResult.t)
    (cascade_start cascade_end : nat) (silences_sec : list (Q * Q))
    (context_ayahs : nat) :
  cascade_start < length results →
  ∃ x,
    _recover_cascade_with_resync similarity compute_alignment_cost segments
      ayahs results cascade_start cascade_end silences_sec context_ayahs
    = Returned x
    ∧ ∀ new_results,
        x = Some new_results →
        let window :=
          slice results (Nat.max 0 (cascade_start - context_ayahs))
            (Nat.min (length results) (cascade_end + context_ayahs)) in
        2 ≤ length new_results
        ∧ length new_results = length window
        ∧ AlignmentResult.ayah <$> new_results
          = AlignmentResult.ayah <$> window
        ∧ Forall2 protected window new_results
        ∧ (gate_average window (length window) + 0.08
           < gate_average new_results (length window))%Q.
Proof.
  intros Hcs.
  destruct (recover_returns similarity compute_alignment_cost segments ayahs
              results cascade_start cascade_end silences_sec context_ayahs
              Hcs) as (x & Hrun & Hspec).
  exists x. split; [done|]. intros new_results ->. cbv zeta.
  destruct (Hspec new_results eq_refl) as (Hle & Hlen & Hayah & Hacc).
  pose proof (accept_length _ _ _ Hacc) as Htwo.
  pose proof (recover_protected similarity compute_alignment_cost segments
                ayahs results cascade_start cascade_end silences_sec
                context_ayahs new_results Hcs Hrun) as Hprot.
  apply accept_Some in Hacc as (_ & _ & Havg).
  pose proof (Forall2_length _ _ _ Hprot) as Hsame.
  split_and!; [lia|lia|done|done|done].
Qed.

(** One turn of the loop of [apply_cascade_recovery]: a result is kept
    or replaced by one that the gate allows in its place. *)
Lemma recovery_step_protects segments ayahs silences_sec improved_results
    cascade :
  cascade.1 < length improved_results →
  ∃ out,
    recovery_step similarity compute_alignment_cost segments ayahs
      silences_sec improved_results cascade
    = Returned out
    ∧ length out = length improved_results
    ∧ (∀ i, ¬ in_window (length improved_results) cascade i →
            out !! i = improved_results !! i)
    ∧ ∀ i old new,
        improved_results !! i = Some old → out !! i = Some new →
        new = old ∨ protected old new.
Proof.
  destruct cascade as [cascade_start cascade_end]. intros Hcs.
  simpl in Hcs.
  destruct (recovery_step_keeps similarity compute_alignment_cost segments
              ayahs silences_sec improved_results
              (cascade_start, cascade_end) Hcs) as (out & Hstep & Hay & Hout).
  exists out. split; [done|]. split.
  { apply (f_equal length) in Hay. by rewrite !length_fmap in Hay. }
  split; [done|]. intros i old new Hold Hnew.
  unfold recovery_step in Hstep.
  destruct (recover_returns similarity compute_alignment_cost segments ayahs
              improved_results cascade_start cascade_end silences_sec 1 Hcs)
    as (x & Hrun & Hspec).
  rewrite Hrun in Hstep. cbn [mbind outcome_bind] in Hstep.
  destruct x as [[|r recovery']|]; [left; congruence| |left; congruence].
  destruct (Hspec (r :: recovery') eq_refl) as (Hle & Hlen & _ & _).
  pose proof (recover_protected similarity compute_alignment_cost segments
                ayahs improved_results cascade_start cascade_end silences_sec
                1 (r :: recovery') Hcs Hrun) as Hprot.
  set (es := Nat.max 0 (cascade_start - 1)) in *.
  set (ee := Nat.min (length improved_results) (cascade_end + 1)) in *.
  simplify_eq.
  destruct (decide (es ≤ i < ee)) as [Hin|Hnin].
  - right. rewrite Forall2_lookup in Hprot. specialize (Hprot (i - es)).
    rewrite lookup_app_r in Hnew by (rewrite length_take; lia).
    rewrite length_take in Hnew.
    replace (i - es `min` length improved_results) with (i - es) in Hnew
      by lia.
    change (r :: recovery' ++ ?x) with ((r :: recovery') ++ x) in Hnew.
    rewrite lookup_app_l in Hnew by lia.
    unfold slice in Hprot. rewrite lookup_take_lt, lookup_drop in Hprot by lia.
    replace (es + (i - es)) with i in Hprot by lia.
    rewrite Hold, Hnew in Hprot. by inversion Hprot.
  - left. rewrite Hout in Hnew by (unfold in_window; simpl; lia).
    congruence.
Qed.

(** The windows of two cascades share no result. *)
Definition windows_apart (len : nat) (c c' : nat * nat) : Prop :=
  ∀ i, ¬ (in_window len c i ∧ in_window len c' i).

Lemma recovery_loop_protects segments ayahs silences_sec results cascades :
  Forall (cascade_in results) cascades →
  ForallOrdPairs (windows_apart (length results)) cascades →
  ∀ improved_results,
    length improved_results = length results →
    (∀ i c, c ∈ cascades → in_window (length results) c i →
            improved_results !! i = results !! i) →
    Forall2 (λ old new, new = old ∨ protected old new) results
      improved_results →
    ∃ out,
      fold_left
        (λ improved_results cascade,
           improved_results ← improved_results;
           recovery_step similarity compute_alignment_cost segments ayahs
             silences_sec improved_results cascade)
        cascades (Returned improved_results)
      = Returned out
      ∧ Forall2 (λ old new, new = old ∨ protected old new) results out.
Proof.
  intros Hin Hpairs. induction Hpairs as [|c cascades Hc Hpairs IH];
    intros improved Hlen Hsame Hrel.
  { by exists improved. }
  apply Forall_cons in Hin as [[Hc1 Hc2] Hin].
  cbn [fold_left mbind outcome_bind].
  destruct (recovery_step_protects segments ayahs silences_sec improved c)
    as (out1 & -> & Hlen1 & Hout1 & Hprot1); [lia|].
  apply IH; [done|lia| |].
  - intros i c' Hc' Hwin. rewrite Hout1.
    + apply (Hsame i c'); [by right|done].
    + rewrite Hlen. intros Hwin'. rewrite Forall_forall in Hc.
      by apply (Hc c' Hc' i).
  - apply Forall2_same_length_lookup. split; [lia|].
    intros i old new Hold Hnew.
    destruct (lookup_lt_is_Some_2 improved i) as [mid Hmid].
    { apply lookup_lt_Some in Hnew. lia. }
    destruct (decide (c.1 - 1 ≤ i < Nat.min (length results) (c.2 + 1)))
      as [Hwin|Hwin].
    + apply (Hprot1 i); [|done].
      rewrite (Hsame i c); [done|by left|done].
    + rewrite Hout1 in Hnew by (by rewrite Hlen).
      rewrite Forall2_lookup in Hrel. specialize (Hrel i).
      rewrite Hold, Hnew in Hrel. by inversion Hrel.
Qed.

(** Cascades in increasing order with two results or more between the
    end of one and the start of the next, the first not before [lo]. *)
Fixpoint gapped (lo : nat) (cascades : list (nat * nat)) : bool :=
  match cascades with
  | [] => true
  | (s, e) :: cascades' => (lo <=? s) && (s <? e) && gapped (e + 2) cascades'
  end.

Lemma gapped_from lo cascades :
  gapped lo cascades = true → Forall (λ c, lo ≤ c.1) cascades.
Proof.
  revert lo. induction cascades as [|[s e] cascades IH]; intros lo; [done|].
  simpl. intros Hg. apply andb_prop in Hg as [Hg Hrest].
  apply andb_prop in Hg as [Hlo%Nat.leb_le Hse%Nat.ltb_lt].
  constructor; [done|].
  eapply Forall_impl; [by apply IH|]. simpl. intros c Hc. lia.
Qed.

Lemma ForallOrdPairs_snoc {A} (R : A → A → Prop) l x :
  ForallOrdPairs R l → Forall (λ y, R y x) l → ForallOrdPairs R (l ++ [x]).
Proof.
  induction 1 as [|y l Hy Hl IH]; intros Hx; simpl.
  { constructor; constructor. }
  apply Forall_cons in Hx as [Hyx Hx]. constructor; [|by apply IH].
  apply Forall_app. split; [done|]. by constructor.
Qed.

Lemma gapped_windows_apart len lo cascades :
  gapped lo cascades = true →
  ForallOrdPairs (windows_apart len) (rev cascades).
Proof.
  revert lo. induction cascades as [|[s e] cascades IH]; intros lo.
  { constructor. }
  simpl. intros Hg. apply andb_prop in Hg as [Hg Hrest].
  apply andb_prop in Hg as [Hlo%Nat.leb_le Hse%Nat.ltb_lt].
  apply ForallOrdPairs_snoc; [by eapply IH|].
  apply Forall_rev. eapply Forall_impl; [by apply gapped_from|].
  intros [s' e'] Hs' i [Hw' Hw]. unfold in_window in *. simpl in *. lia.
Qed.

(** X15. When any two cascades have two results or more between them, so
    that their windows share no result, [apply_cascade_recovery] returns a
    list in which every result is the input result at its index or a
    replacement that the gate allows for it: it has lost at most 0.08 if
    the input result had 0.75 or more, at most 0.12 if it had 0.5 or more,
    and it has 0.70 or more if the input result had 0.75 or more. *)
Theorem apply_cascade_recovery_protects (segments : list Segment.t)
    (ayahs : list Ayah.t) (results : list AlignmentResult.t)
    (silences_ms : option (list (Z * Z))) (cascade_threshold : Q)
    (min_cascade_length : Z) :
  gapped 0
    (find_cascade_sequences results cascade_threshold min_cascade_length)
  = true →
  ∃ out,
    apply_cascade_recovery similarity compute_alignment_cost segments ayahs
      results silences_ms cascade_threshold min_cascade_length
    = Returned out
    ∧ Forall2 (λ old new, new = old ∨ protected old new) results out.
Proof.
  intros Hgap. unfold apply_cascade_recovery.
  assert (Forall2 (λ old new : AlignmentResult.t,
                     new = old ∨ protected old new) results results)
    as Hrefl.
  { apply Forall2_same_length_lookup. split; [done|].
    intros i old new Hold Hnew. left. congruence. }
  destruct results as [|r0 results']; [by exists []|].
  set (results := r0 :: results') in *.
  pose proof (find_cascade_sequences_in results cascade_threshold
                min_cascade_length) as Hin.
  destruct (find_cascade_sequences results cascade_threshold
              min_cascade_length) as [|c cascades] eqn:Hcasc.
  { by exists results. }
  rewrite <- Hcasc in *. clear Hcasc.
  set (cascades' := find_cascade_sequences results _ _) in *.
  apply (recovery_loop_protects segments ayahs _ results (rev cascades'));
    [by apply Forall_rev|by eapply gapped_windows_apart|done|done|done].
Qed.

End Recovery.

Import Examples.

Lemma recover_cascade_gate_witness :
  ∃ new_results,
    _recover_cascade_with_resync sim cost pair_segments pair_ayahs
      pair_results 0 2 [] 1
    = Returned (Some new_results)
    ∧ Forall2 protected pair_results new_results.
Proof.
  destruct (recover_cascade_gate sim cost pair_segments pair_ayahs
              pair_results 0 2 [] 1) as (x & Hrun & Hspec);
    [simpl; lia|].
  destruct x as [new_results|]; [|by vm_compute in Hrun].
  exists new_results. split; [done|].
  by destruct (Hspec new_results eq_refl) as (_ & _ & _ & Hprot & _).
Defined.

Lemma apply_cascade_recovery_protects_witness :
  ∃ out,
    apply_cascade_recovery sim cost pair_segments pair_ayahs pair_results
      None 0.7 2
    = Returned out
    ∧ Forall2 (λ old new, new = old ∨ protected old new) pair_results out.
Proof.
  apply (apply_cascade_recovery_protects sim cost pair_segments pair_ayahs
           pair_results None 0.7 2). reflexivity.
Defined.

End RecoveryGateFacts.

(** ** The legacy aligner: the merging loop *)

Module LegacyAlignerFacts.
Import PyStr Py AlignSegments LegacyWords LegacyAligner DifflibFacts
  WordFacts AlignSegmentsFacts LegacyWordsFacts.

Lemma similarity_of_returns a b : ∃ q, similarity_of a b = Returned q.
Proof.
  unfold similarity_of, similarity.
  destruct (ratio_total a b) as [q ->]. by exists q.
Qed.

Lemma item_lookup {A} (l : list A) i x :
  l !! i = Some x → item l i = Returned x.
Proof. unfold item. by intros ->. Qed.

Section Loop.
Variable isword : N → bool.

Lemma reached_end_returns merged_text text :
  ∃ ended, reached_end isword merged_text text = Returned ended.
Proof.
  unfold reached_end. cbv zeta.
  destruct (similarity_of_returns
              (get_first_last_words isword merged_text (n_check text)).2
              (get_first_last_words isword text (n_check text)).2)
    as [q ->].
  by eexists.
Qed.

Lemma next_starts_returns next_segment_text next_text :
  ∃ starts,
    next_starts isword next_segment_text next_text = Returned starts.
Proof.
  unfold next_starts. cbv zeta.
  destruct (similarity_of_returns
              (get_first_last_words isword next_segment_text
                 (n_check next_text)).1
              (get_first_last_words isword next_text (n_check next_text)).1)
    as [q ->].
  by eexists.
Qed.

(** The words of the texts of the segments [lo .. hi - 1]. *)
Definition words_of (segments : list segment) (lo hi : nat) : list str :=
  concat ((split ∘ seg_text) <$> slice segments lo hi).

Lemma words_of_snoc segments lo hi s :
  lo ≤ hi → segments !! hi = Some s →
  words_of segments lo (S hi) = words_of segments lo hi ++ split (seg_text s).
Proof.
  intros Hlo Hs. unfold words_of, slice.
  replace (S hi - lo) with (S (hi - lo)) by lia.
  rewrite (take_S_r _ _ s).
  - rewrite fmap_app, concat_app. simpl. by rewrite app_nil_r.
  - rewrite lookup_drop. by replace (lo + (hi - lo)) with hi by lia.
Qed.

(** The inner loop ends, at a segment [i'] not before [i]; the end time
    is the end of that segment, and the merged text has the words it had,
    followed by words of the segments after [i] up to [i'], in their
    order. *)
Lemma merge_loop_returns segments ayahs ayah_index fuel :
  ∀ i merged_text end_time overlap_flag s,
    ayah_index < length ayahs →
    length segments - i ≤ fuel →
    segments !! i = Some s → seg_end s = end_time →
    ∃ i' merged_text' last rest,
      merge_loop isword fuel segments ayahs ayah_index i merged_text
        end_time overlap_flag
      = Returned (i', merged_text', seg_end last)
      ∧ i ≤ i' ∧ segments !! i' = Some last
      ∧ split merged_text' = split merged_text ++ rest
      ∧ rest `sublist_of` words_of segments (S i) (S i').
Proof.
  induction fuel as [|fuel IH];
    intros i merged_text end_time overlap_flag s Hay Hfuel Hs Hend.
  { apply lookup_lt_Some in Hs. lia. }
  assert (∃ i' merged_text' last rest,
            Returned (i, merged_text, end_time)
            = Returned (i', merged_text', seg_end last)
            ∧ i ≤ i' ∧ segments !! i' = Some last
            ∧ split merged_text' = split merged_text ++ rest
            ∧ rest `sublist_of` words_of segments (S i) (S i')) as Hhere.
  { exists i, merged_text, s, []. rewrite Hend, app_nil_r.
    split_and!; [done..|]. apply sublist_nil_l. }
  cbn [merge_loop].
  destruct (lookup_lt_is_Some_2 ayahs ayah_index Hay) as [ayah Hayah].
  rewrite (item_lookup _ _ _ Hayah). cbn [mbind outcome_bind].
  destruct (similarity_of_returns
              (normalize_arabic isword merged_text)
              (normalize_arabic isword (ayah_text ayah))) as [full_sim ->].
  cbn [mbind outcome_bind].
  destruct (reached_end_returns merged_text (ayah_text ayah)) as [ended ->].
  cbn [mbind outcome_bind].
  destruct ended; [done|].
  destruct (i + 1 <? length segments) eqn:Hnext; [|done].
  apply Nat.ltb_lt in Hnext.
  destruct (lookup_lt_is_Some_2 segments (i + 1) Hnext) as [next Hnext'].
  assert (∃ found,
            (if ayah_index + 1 <? length ayahs
             then
               next_ayah ← item ayahs (ayah_index + 1);
               next_segment ← item segments (i + 1);
               starts ←
                 next_starts isword (seg_text next_segment)
                   (ayah_text next_ayah);
               Returned ((ayah_index + 1 <? length ayahs) && starts)
             else Returned false) = Returned found) as [found ->].
  { destruct (ayah_index + 1 <? length ayahs) eqn:Hnay; [|by eexists].
    apply Nat.ltb_lt in Hnay.
    destruct (lookup_lt_is_Some_2 ayahs (ayah_index + 1) Hnay)
      as [next_ayah Hnay'].
    rewrite (item_lookup _ _ _ Hnay'), (item_lookup _ _ _ Hnext').
    cbn [mbind outcome_bind].
    destruct (next_starts_returns (seg_text next) (ayah_text next_ayah))
      as [starts ->].
    by eexists. }
  cbn [mbind outcome_bind]. destruct found; [done|].
  rewrite (item_lookup _ _ _ Hnext'). cbn [mbind outcome_bind].
  pose proof (remove_overlap_words isword merged_text (seg_text next))
    as Hwords.
  pose proof (kept_from_sublist isword
                (split (normalize_arabic isword merged_text)) []
                (split (seg_text next))) as Hkept.
  destruct (remove_overlap isword merged_text (seg_text next))
    as [merged_text1 overlap_found].
  cbn [fst] in Hwords.
  destruct (IH (i + 1) merged_text1 (seg_end next)
              (if overlap_found then true else overlap_flag) next
              Hay ltac:(lia) Hnext' eq_refl)
    as (i' & merged_text' & last & rest & -> & Hi' & Hlast & Hsplit & Hrest).
  exists i', merged_text', last.
  eexists. split; [done|]. split; [lia|]. split; [done|].
  split.
  - by rewrite Hsplit, Hwords, <- app_assoc.
  - replace (i + 1) with (S i) in * by lia.
    assert (words_of segments (S i) (S i')
            = split (seg_text next) ++ words_of segments (S (S i)) (S i'))
      as ->.
    { unfold words_of, slice.
      replace (S i' - S i) with (S (S i' - S (S i))) by lia.
      rewrite (drop_S _ next) by done. by rewrite firstn_cons, fmap_cons. }
    by apply sublist_app.
Qed.

(** The items saved from segment [lo] and āya [k] on, after [n] items:
    each item stands for the next āya and a group of segments [lo .. hi]
    that begins where the group before ended; the list ends only where the
    segments or the āyāt do. *)
Fixpoint tiled (surah_uuid : str) (segments : list segment)
    (ayahs : list ayah) (lo k n : nat) (saved : list cleaned) : Prop :=
  match saved with
  | [] => length segments ≤ lo ∨ length ayahs ≤ k
  | c :: saved' =>
      ∃ hi first last a rest,
        lo ≤ hi ∧ segments !! lo = Some first ∧ segments !! hi = Some last
        ∧ ayahs !! k = Some a
        ∧ id c = n + 1 ∧ ayah_index c = k
        ∧ sura_id c = ayah_sura_id a ∧ corrected_text c = ayah_text a
        ∧ uuid c = surah_uuid
        ∧ start c = seg_start first ∧ end_ c = seg_end last
        ∧ start_id c = seg_id last ∧ end_id c = seg_id last
        ∧ split (transcribed_text c) = split (seg_text first) ++ rest
        ∧ rest `sublist_of` words_of segments (S lo) (S hi)
        ∧ tiled surah_uuid segments ayahs (S hi) (S k) (S n) saved'
  end.

(** The row that goes with a saved item. *)
Definition row_of (surah_uuid reciter_name : str) (ayahs : list ayah)
    (c : cleaned) (r : row) : Prop :=
  ∃ a, ayahs !! ayah_index c = Some a
       ∧ r = (surah_uuid, ayah_sura_id a, ayah_index_in_sura a, start c,
              end_ c, reciter_name).

Lemma align_loop_returns surah_uuid reciter_name segments ayahs fuel :
  ∀ i k saved rows,
    length segments - i ≤ fuel →
    ∃ new new_rows,
      align_loop isword fuel surah_uuid reciter_name segments ayahs i k
        saved rows
      = Returned (saved ++ new, rows ++ new_rows)
      ∧ tiled surah_uuid segments ayahs i k (length saved) new
      ∧ Forall2 (row_of surah_uuid reciter_name ayahs) new new_rows.
Proof.
  induction fuel as [|fuel IH]; intros i k saved rows Hfuel.
  - exists [], []. rewrite !app_nil_r. cbn [align_loop].
    replace (i <? length segments) with false
      by (symmetry; apply Nat.ltb_ge; lia).
    simpl. split_and!; [done|left; lia|constructor].
  - cbn [align_loop].
    destruct ((i <? length segments) && (k <? length ayahs)) eqn:Hcond.
    2:{ exists [], []. rewrite !app_nil_r. split_and!; [done| |constructor].
        apply andb_false_iff in Hcond as [H%Nat.ltb_ge|H%Nat.ltb_ge];
          [by left|by right]. }
    apply andb_prop in Hcond as [Hi%Nat.ltb_lt Hk%Nat.ltb_lt].
    destruct (lookup_lt_is_Some_2 segments i Hi) as [first Hfirst].
    destruct (lookup_lt_is_Some_2 ayahs k Hk) as [a Ha].
    rewrite (item_lookup _ _ _ Hfirst). cbn [mbind outcome_bind].
    destruct (merge_loop_returns segments ayahs k (length segments - i) i
                (seg_text first) (seg_end first) false first Hk
                ltac:(lia) Hfirst eq_refl)
      as (i' & merged & last & rest & -> & Hi' & Hlast & Hsplit & Hrest).
    cbn [mbind outcome_bind].
    rewrite (item_lookup _ _ _ Ha). cbn [mbind outcome_bind].
    rewrite (item_lookup _ _ _ Hlast). cbn [mbind outcome_bind].
    pose proof (lookup_lt_Some _ _ _ Hlast) as Hlt.
    destruct (IH (i' + 1) (k + 1)
                (saved
                 ++ [mk_cleaned (length saved + 1) (ayah_sura_id a) k
                       (seg_start first) (seg_end last) merged (ayah_text a)
                       (seg_id last) (seg_id last) surah_uuid])
                (rows
                 ++ [(surah_uuid, ayah_sura_id a, ayah_index_in_sura a,
                      seg_start first, seg_end last, reciter_name)]))
      as (new & new_rows & -> & Htiled & Hrows); [lia|].
    eexists (_ :: new), (_ :: new_rows). rewrite <- !app_assoc.
    split; [done|]. split.
    + cbn [tiled]. exists i', first, last, a, rest.
      rewrite length_app in Htiled. simpl in Htiled.
      replace (i' + 1) with (S i') in Htiled by lia.
      replace (k + 1) with (S k) in Htiled by lia.
      replace (length saved + 1) with (S (length saved)) in Htiled by lia.
      by split_and!.
    + constructor; [|done]. by exists a.
Qed.

(** X16. The loop of [clean_and_merge_segments] ends without an error.
    The items it saves are numbered from 1 and stand for the āyāt in
    order, from the first on. Each stands for a group of consecutive
    segments: the first group begins at the first segment and every other
    one where the group before ended; the item has the start of the first
    segment of its group and the end of the last one, and the id of the
    last one as both [start_id] and [end_id]; its text has all the words of
    the first segment followed by words of the other segments of the group,
    in their order. Items are saved until the segments or the āyāt run
    out. *)
Theorem clean_and_merge_segments_tiled (surah_uuid reciter_name : str)
    (segments : list segment) (ayahs : list ayah) :
  ∃ saved rows,
    clean_and_merge_segments isword surah_uuid reciter_name segments ayahs
    = Returned (saved, rows)
    ∧ tiled surah_uuid segments ayahs 0 0 0 saved.
Proof.
  unfold clean_and_merge_segments.
  destruct (align_loop_returns surah_uuid reciter_name segments ayahs
              (length segments) 0 0 [] []) as (new & new_rows & -> & Ht & _);
    [lia|].
  by exists new, new_rows.
Qed.

(** X17. The rows that [clean_and_merge_segments] inserts into the table
    go with the items it saves, one row for each item and in the same
    order: a row has the start and end times of its item, and the sūra
    number and the index of the āya that the item stands for. *)
Theorem clean_and_merge_segments_rows (surah_uuid reciter_name : str)
    (segments : list segment) (ayahs : list ayah) :
  ∃ saved rows,
    clean_and_merge_segments isword surah_uuid reciter_name segments ayahs
    = Returned (saved, rows)
    ∧ Forall2 (row_of surah_uuid reciter_name ayahs) saved rows.
Proof.
  unfold clean_and_merge_segments.
  destruct (align_loop_returns surah_uuid reciter_name segments ayahs
              (length segments) 0 0 [] []) as (new & new_rows & -> & _ & Hr);
    [lia|].
  by exists new, new_rows.
Qed.

Lemma tiled_length surah_uuid segments ayahs saved :
  ∀ lo k n,
    tiled surah_uuid segments ayahs lo k n saved →
    lo + length saved ≤ length segments `max` lo
    ∧ k + length saved ≤ length ayahs `max` k.
Proof.
  induction saved as [|c saved IH]; intros lo k n; simpl; [lia|].
  intros (hi & first & last & a & rest & Hlo & Hfirst & Hlast & Ha & Hrest).
  do 11 destruct Hrest as [_ Hrest].
  apply IH in Hrest. apply lookup_lt_Some in Hlast, Ha. lia.
Qed.

(** X18. [clean_and_merge_segments] saves at most one item for each āya
    and at most one for each segment. *)
Theorem clean_and_merge_segments_count (surah_uuid reciter_name : str)
    (segments : list segment) (ayahs : list ayah) :
  ∃ saved rows,
    clean_and_merge_segments isword surah_uuid reciter_name segments ayahs
    = Returned (saved, rows)
    ∧ length saved ≤ length segments ∧ length saved ≤ length ayahs.
Proof.
  unfold clean_and_merge_segments.
  destruct (align_loop_returns surah_uuid reciter_name segments ayahs
              (length segments) 0 0 [] []) as (new & new_rows & -> & Ht & _);
    [lia|].
  exists new, new_rows. split; [done|].
  apply tiled_length in Ht. lia.
Qed.

End Loop.

End LegacyAlignerFacts.

(** ** The facade: what a call leaves in the object *)

Module AlignerStateFacts.
Import Py Hybrid Aligner.

Section Facade.
Variable similarity : str → str → Q.
Variable callback : Type.
Variable align_segments_greedy :
  list Segment.t → list Ayah.t → option (list (Z * Z))
  → outcome (list AlignmentResult.t).
Variable align_segments_dp_with_constraints :
  list Segment.t → list Ayah.t → option (list (Z * Z)) → option callback
  → outcome (list AlignmentResult.t).
Variable zone_report : Type.
Variable realign_problem_zones :
  list AlignmentResult.t → list Segment.t → list Ayah.t → Z → Q → Q
  → outcome (list AlignmentResult.t * zone_report).
Variable realign_from_anchors :
  list AlignmentResult.t → list Segment.t → list Ayah.t → Z → Q
  → outcome (list AlignmentResult.t * zone_report).
Variable zone_fix_overlaps :
  list AlignmentResult.t → outcome (list AlignmentResult.t * Z).

(** The statistics that a call on segments and āyāt, neither list empty,
    leaves in the object: those of the hybrid run if the strategy is
    [HYBRID] and the run returned, none otherwise. *)
Definition stats_after (self : Aligner.t) (segments : list Segment.t)
    (ayahs : list Ayah.t) (silences_ms : option (list (Z * Z)))
    (on_progress : option callback) : option HybridStats :=
  match strategy self with
  | HYBRID =>
      match align_segments_hybrid similarity callback align_segments_greedy
              align_segments_dp_with_constraints segments ayahs silences_ms
              (quality_threshold self) 30 30.0 on_progress with
      | Returned (_, stats) => Some stats
      | Raised _ => None
      end
  | _ => None
  end.

(** X19. [Aligner.align] never changes the strategy, the threshold or the
    two switches of the object. After a call with segments and āyāt, neither
    list empty, [last_stats] holds the statistics of this call's hybrid run
    when the strategy is [HYBRID] and the run returned, and is [None] in
    every other case, whatever it held before and whether or not a
    post-processing pass raised afterwards. *)
Theorem align_leaves_stats (self : Aligner.t) (segments : list Segment.t)
    (ayahs : list Ayah.t) (silences_ms : option (list (Z * Z)))
    (on_progress : option callback) :
  let after :=
    (align similarity callback align_segments_greedy
       align_segments_dp_with_constraints zone_report realign_problem_zones
       realign_from_anchors zone_fix_overlaps self segments ayahs
       silences_ms on_progress).2 in
  strategy after = strategy self
  ∧ quality_threshold after = quality_threshold self
  ∧ fix_drift after = fix_drift self
  ∧ fix_overlaps after = fix_overlaps self
  ∧ (segments ≠ [] → ayahs ≠ [] →
     _last_stats after
     = stats_after self segments ayahs silences_ms on_progress).
Proof.
  cbv zeta. unfold align, stats_after.
  destruct segments as [|seg segments]; [by split_and!|].
  destruct ayahs as [|ay ayahs]; [by split_and!|].
  destruct self as [st q drift overlaps last]. cbn [strategy set_last_stats
    quality_threshold fix_drift fix_overlaps _last_stats].
  destruct st; cbn [strategy fst snd]; [by split_and!..|].
  unfold _align_hybrid. cbn [quality_threshold].
  destruct (align_segments_hybrid _ _ _ _ _ _ _ _ _ _ _) as [[rs stats]|e];
    by split_and!.
Qed.

End Facade.

Import Examples.

Lemma align_leaves_stats_witness :
  ∃ stats,
    _last_stats
      (align sim unit (greedy_returning greedy_results)
         (dp_returning dp_results) unit zones_unchanged anchors_unchanged
         overlaps_unchanged Aligner.default two_segments three_ayahs
         one_silence None).2
    = Some stats
    ∧ total_ayahs stats = 3.
Proof.
  destruct (align_leaves_stats sim unit (greedy_returning greedy_results)
              (dp_returning dp_results) unit zones_unchanged
              anchors_unchanged overlaps_unchanged Aligner.default
              two_segments three_ayahs one_silence None)
    as (_ & _ & _ & _ & Hstats).
  rewrite Hstats by done. eexists. split; by vm_compute.
Defined.

End AlignerStateFacts.

(** ** The shape of a replacement *)

Module RecoveryShapeFacts.
Import PyStr Py PyFacts CascadeRecovery CascadeRecoveryFacts.

Section Recovery.
Variable similarity : str → str → Q.
Variable compute_alignment_cost : str → str → Q.

(** The text of the segments [lo .. hi - 1], joined by spaces. *)
Definition group_text (sub_segments : list Segment.t) (lo hi : nat) : str :=
  join [SPACE] (Segment.text <$> slice sub_segments lo hi).

(** An entry for the cell [(i, S j')] holds the text of the segments from
    its start [pi] up to [i], at least one and at most [max_segs] of them,
    and points back to the cell [(pi, j')]. *)
Definition entry_group (sub_segments : list Segment.t) (max_segs : nat)
    (dp : gmap (nat * nat) dp_entry) (i j' : nat) (e : dp_entry) : Prop :=
  ∃ c pi,
    e = (c, group_text sub_segments pi i, pi, Some (pi, j'))
    ∧ pi < i ∧ i - pi ≤ max_segs ∧ is_Some (dp !! (pi, j')).

Definition dp_groups (sub_segments : list Segment.t) (max_segs : nat)
    (dp : gmap (nat * nat) dp_entry) : Prop :=
  ∀ i j e,
    dp !! (i, j) = Some e →
    match j with
    | 0 => i = 0 ∧ entry_parent e = None
    | S j' =>
        i ≤ length sub_segments ∧ entry_group sub_segments max_segs dp i j' e
    end.

Lemma dp_cell_group sub_segments ayah_text ends max_segs dp i j' best :
  dp_cell compute_alignment_cost sub_segments ayah_text ends max_segs dp i
    (S j') = Some best →
  entry_group sub_segments max_segs dp i j' best.
Proof.
  unfold dp_cell.
  assert (Forall (λ k, 1 ≤ k ≤ i ∧ k ≤ max_segs)
            (seq 1 (Nat.min max_segs i))) as Hks.
  { apply Forall_forall. intros k Hk%elem_of_seq. lia. }
  revert Hks. generalize (seq 1 (Nat.min max_segs i)). intros l Hl.
  assert (∀ st : option dp_entry * option Q,
            (st.1 = None
             ∨ ∃ e, st.1 = Some e
                    ∧ entry_group sub_segments max_segs dp i j' e) →
            (fold_left
               (cell_step compute_alignment_cost sub_segments ayah_text
                  ends dp i (S j'))
               l st).1 = Some best →
            entry_group sub_segments max_segs dp i j' best) as Hfold.
  { induction Hl as [|k l Hk Hl IH]; intros [b bc] Hb; simpl in Hb.
    { simpl. intros ->. by destruct Hb as [|(e & [= ->] & He)]. }
    cbn [fold_left]. apply IH. unfold cell_step.
    replace (S j' - 1) with j' by lia.
    destruct (dp !! (i - k, j')) as [prev|] eqn:Hprev; [|done].
    cbv zeta. destruct (below _ _); [|done].
    right. eexists. split; [done|].
    eexists _, _. split_and!; [done|lia|lia|by rewrite Hprev]. }
  apply (Hfold (None, None)). by left.
Qed.

Lemma dp_groups_insert sub_segments max_segs dp i j' e :
  dp_groups sub_segments max_segs dp → i ≤ length sub_segments →
  entry_group sub_segments max_segs dp i j' e →
  dp_groups sub_segments max_segs (<[(i, S j') := e]> dp).
Proof.
  intros Hwf Hi He i0 j0 e0 Hlook.
  assert (∀ i1 j1 e1,
            entry_group sub_segments max_segs dp i1 j1 e1
            → entry_group sub_segments max_segs (<[(i, S j') := e]> dp)
                i1 j1 e1) as Hmono.
  { intros i1 j1 e1 (c & pi & -> & Hpi & Hmax & Hin).
    eexists _, _. split_and!; [done|done|done|].
    rewrite lookup_insert_is_Some. destruct (decide ((i, S j') = (pi, j1)));
      [by left|by right]. }
  destruct (decide ((i, S j') = (i0, j0))) as [[= <- <-]|Hne].
  - rewrite lookup_insert_eq in Hlook. simplify_eq. split; [done|].
    by apply Hmono.
  - rewrite lookup_insert_ne in Hlook by done.
    specialize (Hwf i0 j0 e0 Hlook). destruct j0 as [|j0']; [done|].
    destruct Hwf as [Hle Hok]. split; [done|]. by apply Hmono.
Qed.

Lemma dp_row_groups sub_segments ayah_text ends max_segs j' dp :
  dp_groups sub_segments max_segs dp →
  dp_groups sub_segments max_segs
    (dp_row compute_alignment_cost sub_segments ayah_text ends max_segs
       (S j') dp).
Proof.
  unfold dp_row.
  assert (Forall (λ i, i ≤ length sub_segments)
            (seq (S j') (length sub_segments + 1 - S j'))) as His.
  { apply Forall_forall. intros i Hi%elem_of_seq. lia. }
  revert His dp. generalize (seq (S j') (length sub_segments + 1 - S j')).
  intros l Hl. induction Hl as [|i l Hi Hl IH]; intros dp Hwf; simpl; [done|].
  apply IH.
  destruct (dp_cell _ _ _ _ _ _ _ _) as [best|] eqn:Hcell; [|done].
  apply dp_groups_insert; [done..|]. by eapply dp_cell_group.
Qed.

Lemma dp_fill_groups sub_segments sub_ayahs ends max_segs :
  dp_groups sub_segments max_segs
    (dp_fill compute_alignment_cost sub_segments sub_ayahs ends max_segs).
Proof.
  unfold dp_fill.
  assert (dp_groups sub_segments max_segs
            ({[ (0, 0) := (0%Q, [], 0, None) ]} : gmap (nat * nat) dp_entry))
    as Hinit.
  { intros i j e Hlook.
    apply lookup_singleton_Some in Hlook as [[= <- <-] <-]. done. }
  revert Hinit.
  generalize ({[ (0, 0) := (0%Q, [], 0, None) ]} : gmap (nat * nat) dp_entry).
  generalize (imap pair sub_ayahs).
  intros l. induction l as [|[j0 ayah] l IH]; intros dp Hwf; simpl; [done|].
  apply IH. by apply dp_row_groups.
Qed.

(** A path from the cell [(i, j)] down to the cell [(0, 0)], as the
    backtracking collects it: each step holds a group that ends where the
    step before it begins. *)
Fixpoint descends_groups (sub_segments : list Segment.t) (max_segs : nat)
    (i j : nat) (chain : list (nat * nat * nat * str)) : Prop :=
  match j, chain with
  | 0, [] => i = 0
  | S j', (seg_start, i0, j0, text) :: chain' =>
      i0 = i ∧ j0 = j ∧ seg_start < i ∧ i ≤ length sub_segments
      ∧ i - seg_start ≤ max_segs
      ∧ text = group_text sub_segments seg_start i
      ∧ descends_groups sub_segments max_segs seg_start j' chain'
  | _, _ => False
  end.

Lemma backtrack_groups sub_segments max_segs dp j :
  dp_groups sub_segments max_segs dp →
  ∀ fuel i path,
    j < fuel → is_Some (dp !! (i, j)) →
    ∃ chain,
      backtrack fuel dp (Some (i, j)) path = Some (path ++ chain)
      ∧ descends_groups sub_segments max_segs i j chain.
Proof.
  intros Hwf. induction j as [|j IH]; intros fuel i path Hfuel [e He].
  - destruct (Hwf _ _ _ He) as [-> Hpar].
    destruct e as [[[c text] pi] parent]. simpl in Hpar. subst parent.
    destruct fuel as [|fuel]; [lia|].
    exists []. cbn [backtrack]. rewrite He, app_nil_r.
    split; [by destruct fuel|done].
  - destruct (Hwf _ _ _ He) as [Hle (c & pi & -> & Hpi & Hmax & Hin)].
    destruct fuel as [|fuel]; [lia|].
    destruct (IH fuel pi
                (path ++ [(pi, i, S j, group_text sub_segments pi i)]))
      as (chain & Hback & Hch); [lia|done|].
    exists ((pi, i, S j, group_text sub_segments pi i) :: chain).
    cbn [backtrack]. rewrite He, Hback, <- app_assoc.
    split; [done|]. simpl. done.
Qed.

(** The same path read upwards, from the segment [lo] and the row
    [lj + 1]. *)
Fixpoint ascends_groups (sub_segments : list Segment.t) (max_segs : nat)
    (lo lj : nat) (path : list (nat * nat * nat * str)) : Prop :=
  match path with
  | [] => True
  | (seg_start, i, j0, text) :: path' =>
      seg_start = lo ∧ j0 = S lj ∧ lo < i ∧ i ≤ length sub_segments
      ∧ i - lo ≤ max_segs
      ∧ text = group_text sub_segments lo i
      ∧ ascends_groups sub_segments max_segs i (S lj) path'
  end.

(** Where a path that starts at [lo] ends. *)
Fixpoint path_end (lo : nat) (path : list (nat * nat * nat * str)) : nat :=
  match path with
  | [] => lo
  | (_, i, _, _) :: path' => path_end i path'
  end.

Lemma ascends_groups_snoc sub_segments max_segs path :
  ∀ lo lj i,
    ascends_groups sub_segments max_segs lo lj path →
    path_end lo path < i → i ≤ length sub_segments →
    i - path_end lo path ≤ max_segs →
    ascends_groups sub_segments max_segs lo lj
      (path
       ++ [(path_end lo path, i, S (lj + length path),
            group_text sub_segments (path_end lo path) i)])
    ∧ path_end lo
        (path
         ++ [(path_end lo path, i, S (lj + length path),
              group_text sub_segments (path_end lo path) i)]) = i.
Proof.
  induction path as [|[[[s0 i0] j0] t0] path IH]; intros lo lj i; simpl.
  - intros _ Hs Hi Hmax. rewrite Nat.add_0_r. by split_and!.
  - intros (-> & -> & Hs0 & Hi0 & Hmax0 & -> & Hp) Hs Hi Hmax.
    destruct (IH i0 (S lj) i Hp Hs Hi Hmax) as [Hasc Hend].
    replace (S (lj + S (length path))) with (S (S lj + length path)) by lia.
    by split_and!.
Qed.

Lemma descends_groups_rev sub_segments max_segs j :
  ∀ i chain,
    descends_groups sub_segments max_segs i j chain →
    ascends_groups sub_segments max_segs 0 0 (rev chain)
    ∧ path_end 0 (rev chain) = i ∧ length chain = j.
Proof.
  induction j as [|j IH]; intros i [|[[[s i0] j0] t] chain]; simpl;
    try done.
  intros (-> & -> & Hs & Hi & Hmax & -> & Hch).
  destruct (IH s chain Hch) as (Hasc & Hend & Hlen).
  destruct (ascends_groups_snoc sub_segments max_segs (rev chain) 0 0 i)
    as [Hasc' Hend']; [done|lia|done|lia|].
  rewrite Hend, length_rev, Hlen in Hasc', Hend'. simpl in Hasc', Hend'.
  split_and!; [done|done|lia].
Qed.

(** New results that stand for groups of segments, one after the other
    from the segment [lo] on: each has the text of its group, the start of
    its first segment and the end of its last one, the score of this text
    against the text of its āya, and no overlap mark. *)
Fixpoint results_tile (sub_segments : list Segment.t) (max_segs : nat)
    (lo : nat) (new_results : list AlignmentResult.t) : Prop :=
  match new_results with
  | [] => True
  | r :: new_results' =>
      ∃ hi first last,
        lo < hi ∧ hi - lo ≤ max_segs
        ∧ sub_segments !! lo = Some first
        ∧ sub_segments !! (hi - 1) = Some last
        ∧ AlignmentResult.start_time r = Segment.start first
        ∧ AlignmentResult.end_time r = Segment.end_ last
        ∧ AlignmentResult.transcribed_text r
          = group_text sub_segments lo hi
        ∧ AlignmentResult.similarity_score r
          = similarity (AlignmentResult.transcribed_text r)
              (Ayah.text (AlignmentResult.ayah r))
        ∧ AlignmentResult.overlap_detected r = false
        ∧ results_tile sub_segments max_segs hi new_results'
  end.

Lemma convert_groups sub_segments max_segs sub_ayahs path :
  ∀ lo lj,
    ascends_groups sub_segments max_segs lo lj path →
    lj + length path ≤ length sub_ayahs →
    ∃ new_results,
      convert similarity sub_segments sub_ayahs path = Returned new_results
      ∧ results_tile sub_segments max_segs lo new_results.
Proof.
  induction path as [|[[[s i] j0] t] path IH]; intros lo lj Hasc Hlen.
  { by exists []. }
  simpl in Hasc, Hlen. destruct Hasc as (-> & -> & Hs & Hi & Hmax & -> & Hasc).
  cbn [convert].
  replace (length sub_segments <=? lo) with false
    by (symmetry; apply Nat.leb_gt; lia).
  replace (length sub_segments <? i) with false
    by (symmetry; apply Nat.ltb_ge; lia).
  cbn [orb].
  destruct (lookup_lt_is_Some_2 sub_ayahs lj) as [ayah Hayah]; [lia|].
  destruct (lookup_lt_is_Some_2 sub_segments lo) as [first Hfirst]; [lia|].
  destruct i as [|i]; [lia|].
  destruct (lookup_lt_is_Some_2 sub_segments i) as [last Hlast]; [lia|].
  rewrite (py_getitem_pred _ _ _ Hayah). simpl.
  rewrite (py_getitem_nat _ _ _ Hfirst). simpl.
  rewrite (py_getitem_pred _ _ _ Hlast). simpl.
  destruct (IH (S i) (S lj)) as (rest & -> & Hrest); [done|lia|].
  eexists. split; [done|].
  cbn [results_tile]. exists (S i), first, last.
  replace (S i - 1) with i by lia. by split_and!.
Qed.

Lemma results_tile_weaken sub_segments max_segs max_segs' new_results :
  max_segs ≤ max_segs' →
  ∀ lo,
    results_tile sub_segments max_segs lo new_results →
    results_tile sub_segments max_segs' lo new_results.
Proof.
  intros Hmax. induction new_results as [|r new_results IH]; intros lo;
    [done|].
  cbn [results_tile].
  intros (hi & first & last & Hlo & Hhi & Hfirst & Hlast & H1 & H2 & H3
          & H4 & H5 & Hrest).
  exists hi, first, last.
  split_and!; [done|lia|done|done|done|done|done|done|done|by apply IH].
Qed.

(** X20. A replacement that [_recover_cascade_with_resync] returns cuts a
    run of consecutive segments into groups, one group for each result and
    in their order: the first group begins at the first segment of the run
    and every other one where the group before ended, and a group has at
    least one segment and at most six. Each new result has the texts of
    its group joined by spaces, the start of the first segment of the group
    and the end of the last one, the similarity of this text to the text of
    its āya as its score, and no overlap mark. *)
Theorem recover_cascade_groups (segments : list Segment.t)
    (ayahs : list Ayah.t) (results : list AlignmentResult.t)
    (cascade_start cascade_end : nat) (silences_sec : list (Q * Q))
    (context_ayahs : nat) (new_results : list AlignmentResult.t) :
  cascade_start < length results →
  _recover_cascade_with_resync similarity compute_alignment_cost segments
    ayahs results cascade_start cascade_end silences_sec context_ayahs
  = Returned (Some new_results) →
  ∃ lo hi, results_tile (slice segments lo hi) 6 0 new_results.
Proof.
  intros Hcs. unfold _recover_cascade_with_resync.
  set (extended_start := Nat.max 0 (cascade_start - context_ayahs)).
  set (extended_end :=
         Nat.min (length results) (cascade_end + context_ayahs)).
  destruct (lookup_lt_is_Some_2 results extended_start) as [first Hfirst];
    [subst extended_start; lia|].
  rewrite (py_getitem_nat _ _ _ Hfirst).
  destruct (py_getitem_before results extended_end) as [last ->];
    [lia|subst extended_end; lia|].
  cbn [mbind outcome_bind].
  destruct ((filter _ (imap pair segments)).*1) as [|idx0 seg_indices'];
    [done|].
  set (lo := foldr Nat.min idx0 seg_indices').
  set (hi := foldr Nat.max idx0 seg_indices' + 1).
  set (sub_segments := slice segments lo hi).
  set (sub_ayahs := AlignmentResult.ayah <$> slice results _ _).
  destruct (length sub_segments <? length sub_ayahs) eqn:Hfew; [done|].
  apply Nat.ltb_ge in Hfew.
  set (dp := dp_fill _ _ _ _ _).
  pose proof (dp_fill_groups sub_segments sub_ayahs
                (list_to_set
                   (S <$> (filter
                             (λ '(idx, seg),
                                existsb
                                  (λ '(sil_start, sil_end),
                                     Qlt_bool
                                       (Qabs (Segment.end_ seg - sil_start))
                                       0.3)
                                  (filter
                                     (λ '(sil_start, sil_end),
                                        Qle_bool
                                          (AlignmentResult.start_time first)
                                          sil_start
                                        && Qle_bool sil_start
                                             (AlignmentResult.end_time last))
                                     silences_sec))
                             (imap pair sub_segments)).*1))
                (Nat.min 6 (length sub_segments))) as Hwf.
  fold dp in Hwf.
  destruct (find_best_end dp _ _) as [best_end|] eqn:Hend; [|done].
  apply find_best_end_in in Hend as (i & -> & Hin).
  destruct (backtrack_groups sub_segments (Nat.min 6 (length sub_segments))
              dp (length sub_ayahs) Hwf (S (length sub_ayahs)) i [])
    as (chain & -> & Hchain); [lia|done|].
  rewrite app_nil_l.
  apply descends_groups_rev in Hchain as (Hasc & _ & Hlen).
  destruct (convert_groups sub_segments (Nat.min 6 (length sub_segments))
              sub_ayahs (rev chain) 0 0 Hasc)
    as (new & -> & Hnew).
  { rewrite length_rev. lia. }
  cbn [mbind outcome_bind].
  destruct (negb _); [done|].
  intros [= Hacc]. apply accept_Some in Hacc as [-> _].
  exists lo, hi. eapply results_tile_weaken; [|exact Hnew]. lia.
Qed.

End Recovery.

Import Examples.

Lemma recover_cascade_groups_witness :
  ∃ new_results,
    _recover_cascade_with_resync sim cost pair_segments pair_ayahs
      pair_results 0 2 [] 1
    = Returned (Some new_results)
    ∧ ∃ lo hi, results_tile sim (slice pair_segments lo hi) 6 0 new_results.
Proof.
  eexists. split; [by vm_compute|].
  apply (recover_cascade_groups sim cost pair_segments pair_ayahs
           pair_results 0 2 [] 1); [simpl; lia|by vm_compute].
Defined.

End RecoveryShapeFacts.

(** ** The comparison script counts the same cascades *)

Module ReprocessFromCacheFacts.
Import Py CascadeRecovery ReprocessFromCache.

Section Same.
Variable orig_ayahs : list saved_ayah.
Variable results : list AlignmentResult.t.
Hypothesis same_scores :
  similarity <$> orig_ayahs = AlignmentResult.similarity_score <$> results.

Lemma same_length : length orig_ayahs = length results.
Proof.
  apply (f_equal length) in same_scores. by rewrite !length_fmap in same_scores.
Qed.

Lemma same_lookup i :
  similarity <$> orig_ayahs !! i
  = AlignmentResult.similarity_score <$> results !! i.
Proof. by rewrite <- !list_lookup_fmap, same_scores. Qed.

Lemma orig_run_end_same room :
  ∀ i, orig_run_end orig_ayahs room i = low_run_end results 0.7 room i.
Proof.
  induction room as [|room IH]; intros i; [done|].
  simpl. pose proof (same_lookup i) as Hi.
  destruct (orig_ayahs !! i) as [a|], (results !! i) as [r|];
    simpl in Hi; simplify_eq; [|done].
  rewrite Hi. by destruct (Qlt_bool _ _).
Qed.

Lemma orig_cascades_from_same fuel :
  ∀ i cascades,
    orig_cascades_from orig_ayahs fuel i cascades
    = cascades_from results 0.7 2 fuel i cascades.
Proof.
  induction fuel as [|fuel IH]; intros i cascades; [done|].
  simpl. pose proof (same_lookup i) as Hi.
  destruct (orig_ayahs !! i) as [a|], (results !! i) as [r|];
    simpl in Hi; simplify_eq; [|done].
  rewrite Hi, same_length, orig_run_end_same.
  destruct (Qlt_bool _ _); by rewrite IH.
Qed.

(** X21. The cascades that [compare_results] counts in the original
    output are those that [find_cascade_sequences], with the threshold 0.7
    and the minimal length 2, finds in a list of results that has the same
    scores: the script's own loop and the library's function agree. *)
Theorem compare_results_counts_same_cascades :
  orig_cascades orig_ayahs = find_cascade_sequences results 0.7 2.
Proof.
  unfold orig_cascades, find_cascade_sequences.
  by rewrite orig_cascades_from_same, same_length.
Qed.

End Same.

Import Examples.

Lemma compare_results_counts_same_cascades_witness :
  orig_cascades
    ((λ r, mk_saved_ayah
             (Ayah.ayah_number (AlignmentResult.ayah r))
             (AlignmentResult.start_time r) (AlignmentResult.end_time r)
             (Ayah.text (AlignmentResult.ayah r))
             (AlignmentResult.similarity_score r)) <$> five_results)
  = [(0, 2); (3, 5)].
Proof.
  rewrite (compare_results_counts_same_cascades _ five_results);
    reflexivity.
Defined.

End ReprocessFromCacheFacts.

(** ** The investigation script: cascades and isolated failures *)

Module InvestigateSurahFacts.
Import PyStr Py InvestigateSurah.

Definition low (a : AyahAnalysis) : bool := Qlt_bool (similarity a) 0.8.

Definition next_low (l : list AyahAnalysis) : bool :=
  match l with a :: _ => low a | [] => false end.

(** The numbers of the low analyses that have a low neighbour, and of
    those that have none, each in the order of the list; [prev_low] tells
    whether the analysis before the list is low. *)
Fixpoint low_with_neighbour (prev_low : bool) (l : list AyahAnalysis)
    : list Z :=
  match l with
  | [] => []
  | a :: l' =>
      (if low a && (prev_low || next_low l') then [ayah_number a] else [])
      ++ low_with_neighbour (low a) l'
  end.

Fixpoint low_alone (prev_low : bool) (l : list AyahAnalysis) : list Z :=
  match l with
  | [] => []
  | a :: l' =>
      (if low a && negb (prev_low || next_low l') then [ayah_number a]
       else [])
      ++ low_alone (low a) l'
  end.

Lemma low_with_neighbour_prev p l :
  next_low l = false → low_with_neighbour p l = low_with_neighbour false l.
Proof. destruct l as [|a l]; [done|]. simpl. by intros ->. Qed.

Lemma low_alone_prev p l :
  next_low l = false → low_alone p l = low_alone false l.
Proof. destruct l as [|a l]; [done|]. simpl. by intros ->. Qed.

(** A run of low analyses, followed by one that is not low or by the end
    of the list. *)
Lemma low_with_neighbour_run run :
  ∀ p rest,
    run ≠ [] → Forall (λ a, low a = true) run → next_low rest = false →
    low_with_neighbour p (run ++ rest)
    = (if p || (2 <=? length run) then ayah_number <$> run else [])
      ++ low_with_neighbour false rest.
Proof.
  induction run as [|a run IH]; intros p rest Hne Hrun Hrest; [done|].
  apply Forall_cons in Hrun as [Ha Hrun]. simpl. rewrite Ha. simpl.
  destruct run as [|b run].
  - simpl. rewrite Hrest, orb_false_r.
    rewrite (low_with_neighbour_prev true) by done. by destruct p.
  - rewrite (IH true rest) by done.
    apply Forall_cons in Hrun as [Hb Hrun]. simpl. rewrite Hb.
    by rewrite !orb_true_r.
Qed.

Lemma low_alone_run run :
  ∀ p rest,
    run ≠ [] → Forall (λ a, low a = true) run → next_low rest = false →
    low_alone p (run ++ rest)
    = (if p || (2 <=? length run) then [] else ayah_number <$> run)
      ++ low_alone false rest.
Proof.
  induction run as [|a run IH]; intros p rest Hne Hrun Hrest; [done|].
  apply Forall_cons in Hrun as [Ha Hrun]. simpl. rewrite Ha. simpl.
  destruct run as [|b run].
  - simpl. rewrite Hrest, orb_false_r.
    rewrite (low_alone_prev true) by done. by destruct p.
  - rewrite (IH true rest) by done.
    apply Forall_cons in Hrun as [Hb Hrun]. simpl. rewrite Hb.
    by rewrite !orb_true_r.
Qed.

(** Where the inner loop stops: after a run of low analyses. *)
Lemma sequence_end_run analyses room :
  ∀ j,
    length analyses ≤ j + room →
    let e := sequence_end analyses room j in
    j ≤ e ∧ e ≤ length analyses `max` j
    ∧ Forall (λ a, low a = true) (slice analyses j e)
    ∧ next_low (drop e analyses) = false.
Proof.
  induction room as [|room IH]; intros j Hlen; cbv zeta.
  { simpl. unfold slice. rewrite Nat.sub_diag, drop_ge by lia.
    split_and!; [lia|lia|done|done]. }
  cbn [sequence_end].
  destruct (analyses !! j) as [a|] eqn:Ha.
  2:{ unfold slice. rewrite Nat.sub_diag.
      rewrite drop_ge by (by apply lookup_ge_None).
      split_and!; [lia|lia|done|done]. }
  pose proof (lookup_lt_Some _ _ _ Ha) as Hlt.
  destruct (Qlt_bool _ _) eqn:Hlow.
  2:{ unfold slice. rewrite Nat.sub_diag, (drop_S _ a) by done.
      split_and!; [lia|lia|done|]. simpl. unfold low. by rewrite Hlow. }
  destruct (IH (S j)) as (Hle & Hmax & Hall & Hnext); [lia|].
  split_and!; [lia|lia| |done].
  unfold slice in *.
  replace (sequence_end analyses room (S j) - j)
    with (S (sequence_end analyses room (S j) - S j)) by lia.
  rewrite (drop_S _ a) by done. rewrite firstn_cons.
  constructor; [done|done].
Qed.

Lemma sequences_from_neighbours analyses fuel :
  ∀ i cascade isolated,
    length analyses - i ≤ fuel →
    sequences_from analyses fuel i cascade isolated
    = (cascade ++ low_with_neighbour false (drop i analyses),
       isolated ++ low_alone false (drop i analyses)).
Proof.
  induction fuel as [|fuel IH]; intros i cascade isolated Hfuel.
  { simpl. rewrite drop_ge by lia. simpl. by rewrite !app_nil_r. }
  cbn [sequences_from].
  destruct (analyses !! i) as [a|] eqn:Ha.
  2:{ rewrite drop_ge by (by apply lookup_ge_None). simpl.
      by rewrite !app_nil_r. }
  pose proof (lookup_lt_Some _ _ _ Ha) as Hlt.
  destruct (Qlt_bool _ _) eqn:Hlow.
  2:{ rewrite IH by lia. rewrite (drop_S _ a i) by done. simpl.
      unfold low. by rewrite Hlow. }
  destruct (length analyses - i) as [|room] eqn:Hroom; [lia|].
  cbn [sequence_end]. rewrite Ha, Hlow.
  destruct (sequence_end_run analyses room (S i))
    as (Hle & Hmax & Hall & Hnext); [lia|].
  set (j := sequence_end analyses room (S i)) in *.
  assert (drop i analyses
          = (a :: slice analyses (S i) j) ++ drop j analyses) as Hsplit.
  { rewrite (drop_S _ a i) by done. simpl. f_equal. unfold slice.
    replace (drop j analyses)
      with (drop (j - S i) (drop (S i) analyses))
      by (rewrite drop_drop; f_equal; lia).
    by rewrite take_drop. }
  assert (slice analyses i j = a :: slice analyses (S i) j) as Hrun.
  { unfold slice. replace (j - i) with (S (j - S i)) by lia.
    by rewrite (drop_S _ a i). }
  assert (length (slice analyses (S i) j) = j - S i) as Hlen.
  { unfold slice. rewrite length_take, length_drop. lia. }
  rewrite Hsplit.
  rewrite low_with_neighbour_run, low_alone_run;
    [|done|by constructor|done|done|by constructor|done].
  cbn [orb length]. rewrite Hlen.
  destruct (2 <=? Z.of_nat j - Z.of_nat i)%Z eqn:Hlong.
  - apply Z.leb_le in Hlong.
    replace (2 <=? S (j - S i)) with true
      by (symmetry; apply Nat.leb_le; lia).
    rewrite IH by lia. rewrite Hrun. simpl. by rewrite <- !app_assoc.
  - apply Z.leb_gt in Hlong.
    replace (2 <=? S (j - S i)) with false
      by (symmetry; apply Nat.leb_gt; lia).
    replace (Z.of_nat j - Z.of_nat i =? 1)%Z with true
      by (symmetry; apply Z.eqb_eq; lia).
    rewrite IH by lia. assert (j = S i) as -> by lia.
    unfold slice. rewrite Nat.sub_diag. simpl. by rewrite <- !app_assoc.
Qed.

(** X22. [identify_patterns] sorts the analyses below 0.8 by their
    neighbours: [cascade_sequences] has the numbers of those with a
    neighbour below 0.8, before or after, and [isolated_failures] the
    numbers of those with none, each list in the order of the analyses. So
    every analysis below 0.8 is in exactly one of the two lists, and no
    other analysis is in either. *)
Theorem identify_patterns_neighbours (analyses : list AyahAnalysis) :
  cascade_sequences (identify_patterns analyses)
  = low_with_neighbour false analyses
  ∧ isolated_failures (identify_patterns analyses)
    = low_alone false analyses.
Proof.
  unfold identify_patterns.
  rewrite sequences_from_neighbours by lia. rewrite drop_0.
  by destruct (fold_left other_step analyses ([], [], []))
    as [[critical gaps] mismatch].
Qed.

Lemma low_in_one_list l :
  ∀ p a,
    a ∈ l → low a = true →
    ayah_number a ∈ low_with_neighbour p l ++ low_alone p l.
Proof.
  induction l as [|b l IH]; intros p a Hin Hlow.
  { by apply elem_of_nil in Hin. }
  simpl. apply elem_of_cons in Hin as [->|Hin].
  - rewrite Hlow. cbn [andb]. rewrite !elem_of_app.
    destruct (p || next_low l); cbn [negb].
    + left. left. apply list_elem_of_here.
    + right. left. apply list_elem_of_here.
  - specialize (IH (low b) a Hin Hlow).
    rewrite elem_of_app in IH. rewrite !elem_of_app.
    destruct IH as [IH|IH]; [left|right]; by right.
Qed.

Lemma other_step_low analyses :
  ∀ critical gaps mismatch,
    let out := fold_left other_step analyses (critical, gaps, mismatch) in
    (∀ n, n ∈ out.1.1 →
          n ∈ critical ∨ ∃ a, a ∈ analyses ∧ low a = true
                              ∧ ayah_number a = n)
    ∧ (∀ n, n ∈ out.1.2 →
            n ∈ gaps ∨ ∃ a, a ∈ analyses ∧ low a = true
                            ∧ ayah_number a = n).
Proof.
  induction analyses as [|a analyses IH]; intros critical gaps mismatch;
    cbv zeta.
  { simpl. split; intros n Hn; by left. }
  cbn [fold_left]. unfold other_step at 2 4.
  set (critical' := if Qlt_bool (similarity a) 0.5 then _ else _).
  set (gaps' := if _ && _ then _ else _).
  set (mismatch' := if _ || _ then _ else _).
  destruct (IH critical' gaps' mismatch') as [Hc Hg]. cbv zeta in Hc, Hg.
  split; intros n Hn.
  - destruct (Hc n Hn) as [Hin|(b & Hb & Hlow & Hnum)].
    + subst critical'. destruct (Qlt_bool (similarity a) 0.5) eqn:Hcrit;
        [|by left].
      apply elem_of_app in Hin as [Hin|Hin]; [by left|].
      apply list_elem_of_singleton in Hin as ->. right. exists a.
      split_and!; [by left| |done].
      unfold low. apply PyFacts.Qlt_bool_true in Hcrit.
      apply PyFacts.Qlt_bool_true. eapply Qlt_trans; [exact Hcrit|done].
    + right. exists b. split_and!; [by right|done|done].
  - destruct (Hg n Hn) as [Hin|(b & Hb & Hlow & Hnum)].
    + subst gaps'. destruct (_ && _) eqn:Hgap; [|by left].
      apply elem_of_app in Hin as [Hin|Hin]; [by left|].
      apply list_elem_of_singleton in Hin as ->. right. exists a.
      apply andb_prop in Hgap as [_ Hlow].
      split_and!; [by left|done|done].
    + right. exists b. split_and!; [by right|done|done].
Qed.

(** X23. Every āya that [identify_patterns] lists as a critical failure
    or as a gap issue is also in [cascade_sequences] or in
    [isolated_failures]. *)
Theorem identify_patterns_low_listed (analyses : list AyahAnalysis) :
  critical_failures (identify_patterns analyses)
  ++ gap_issues (identify_patterns analyses)
  ⊆ cascade_sequences (identify_patterns analyses)
    ++ isolated_failures (identify_patterns analyses).
Proof.
  unfold identify_patterns.
  rewrite sequences_from_neighbours by lia. rewrite drop_0.
  pose proof (other_step_low analyses [] [] []) as [Hc Hg].
  cbv zeta in Hc, Hg.
  destruct (fold_left other_step analyses ([], [], []))
    as [[critical gaps] mismatch].
  cbn [critical_failures gap_issues cascade_sequences isolated_failures
       fst snd] in *.
  intros n Hn. apply elem_of_app in Hn as [Hn|Hn].
  - destruct (Hc n Hn) as [Hnil|(a & Ha & Hlow & <-)].
    { by apply elem_of_nil in Hnil. }
    by apply low_in_one_list.
  - destruct (Hg n Hn) as [Hnil|(a & Ha & Hlow & <-)].
    { by apply elem_of_nil in Hnil. }
    by apply low_in_one_list.
Qed.

End InvestigateSurahFacts.

(** ** The normal form *)

Module NormalFormFacts.
Import PyStr PyStrFacts AlignSegments AlignSegmentsFacts LegacyWordsFacts.

(** X24. What [normalize_arabic] returns is in normal form: it has none
    of the letters أ, إ, آ, ى and ة, no character that is neither a word
    character nor white space, and no white space but single spaces between
    words, none at either end. A text in this form is returned as it is. *)
Theorem normalize_arabic_normal_form (isword : N → bool) (x : str) :
  let s := normalize_arabic isword x in
  Forall (normal_char isword) s
  ∧ ws_norm false s = true ∧ head_black s = true ∧ rstrip s = s
  ∧ ∀ t,
      Forall (normal_char isword) t ∧ ws_norm false t = true
      ∧ head_black t = true ∧ rstrip t = t →
      normalize_arabic isword t = t.
Proof.
  cbv zeta.
  destruct (normalize_arabic_shape isword x) as (Hnorm & Hhead & Hlast).
  split_and!; [apply normalize_arabic_chars|done|done|done|].
  intros t (Hchars & Hn & Hh & Hl). by apply normalize_arabic_fixed.
Qed.

End NormalFormFacts.
